(** * donkeytownsfolk: decks, snapshots, prices and legality

    A shallow embedding of the core of the Go package [donkeytownsfolk]
    ([database.go], [prices.go], and the deck, user and filter-page logic
    of the handlers in [renderer.go]) together with the properties its
    specification states about it and further properties of the code.

    Conventions of the embedding:
    - a Go [string] is the sequence of runes that [for _, c := range s]
      yields, each rune a code point in [Z] (strings are taken as
      well-formed UTF-8, and positions count runes);
    - [Money] is Go's [float64], embedded as the kernel's binary64 floats;
    - Go [int] is taken at 64 bits;
    - a dereference of a nil pointer is the outcome [Panics]. *)

From Stdlib Require Import ZArith List Floats Ascii String DecimalString DecimalPos.
From stdpp Require Import base option list gmap.

Local Open Scope Z_scope.

(** ** Outcomes of calls that may panic *)

Inductive outcome (A : Type) : Type :=
  | Returns (a : A)
  | Panics.
Arguments Returns {A} a.
Arguments Panics {A}.

(** ** Strings *)

Definition rune := Z.
Definition gostring := list rune.

Definition rune_of_ascii (a : ascii) : rune := Z.of_N (N_of_ascii a).

(** String literals of the source, read as rune sequences. *)
Definition runes (s : string) : gostring :=
  map rune_of_ascii (list_ascii_of_string s).

(** [fmt.Sprintf("%d", n)]. *)
Definition itoa (n : Z) : gostring :=
  runes (NilZero.string_of_int (Z.to_int n)).

(** ** Money *)

Definition Money := float.

Definition Free : Money := 0%float.

(** The conversion [Money(n)] of an [int]: the nearest binary64 value. *)
Definition Money_of_int (n : Z) : Money :=
  SF2Prim (binary_normalize prec emax n 0 false).

(** ** Data model ([database.go], the [type] block) *)

Record CardEntry := mkCardEntry {
  Name : gostring;
  Count : Z;
  PricePer : Money;
  NotFound : bool
}.

Record CommanderEntry := mkCommanderEntry {
  CName : gostring;
  CPrice : Money;
  IsPresent : bool;
  CNotFound : bool
}.

Record Snapshot := mkSnapshot {
  Date : Z;
  Decklist : list CardEntry;
  Sideboard : list CardEntry;
  Commander : CommanderEntry;
  IsGrandfatherLegal : bool
}.

Record Deck := mkDeck {
  DName : gostring;
  CreationDate : Z;
  PriceLimit : Money;
  StagingArea : Snapshot;
  Snapshots : list Snapshot
}.

Record PriceDbEntry := mkPriceDbEntry {
  ID : gostring;
  PName : gostring;
  Price : Money
}.

(** ** Prices of entries and snapshots *)

Definition CardEntry_TotalPrice (c : CardEntry) : Money :=
  PrimFloat.mul (PricePer c) (Money_of_int (Count c)).

Definition add_cards (ret : Money) (cards : list CardEntry) : Money :=
  fold_left (fun ret c => PrimFloat.add ret (CardEntry_TotalPrice c)) cards ret.

Definition TotalPrice (s : Snapshot) : Money :=
  let ret := Free in
  let ret := add_cards ret (Decklist s) in
  let ret := add_cards ret (Sideboard s) in
  if IsPresent (Commander s) then PrimFloat.add ret (CPrice (Commander s)) else ret.

(** ** Card dumps and the identical-cards comparison *)

Definition dump_line (c : CardEntry) : gostring :=
  itoa (Count c) ++ runes " " ++ Name c ++ [10].

Definition dump_cards (cards : list CardEntry) : gostring :=
  fold_left (fun buffer c => buffer ++ dump_line c) cards [].

Definition DecklistDump (s : Snapshot) : gostring := dump_cards (Decklist s).
Definition SideboardDump (s : Snapshot) : gostring := dump_cards (Sideboard s).

Definition HasIdenticalCards (s other : Snapshot) : bool :=
  bool_decide (DecklistDump s = DecklistDump other) &&
  bool_decide (SideboardDump s = SideboardDump other) &&
  Bool.eqb (IsPresent (Commander s)) (IsPresent (Commander other)) &&
  bool_decide (CName (Commander s) = CName (Commander other)).

(** ** Legality *)

(** [Deck.CurrentPriceSnapshot]: the loop over [i] from [len-2] down to [0].
    [n] is [i+1]; the pointers [lastSnap] and [bestSnap] are indices into
    [d.Snapshots]. *)
Fixpoint olderSnapshots (snaps : list Snapshot) (lastSnap : Snapshot)
    (n : nat) (bestSnap : nat) : nat :=
  match n with
  | O => bestSnap
  | S i =>
      match snaps !! i, snaps !! bestSnap with
      | Some si, Some sb =>
          if negb (HasIdenticalCards si lastSnap) then bestSnap
          else olderSnapshots snaps lastSnap i
                 (if PrimFloat.ltb (TotalPrice si) (TotalPrice sb) then i else bestSnap)
      | _, _ => bestSnap
      end
  end.

(** The index of the snapshot that [CurrentPriceSnapshot] points to, [None]
    for the nil result. *)
Definition CurrentPriceIndex (d : Deck) : option nat :=
  let snaps := Snapshots d in
  match length snaps with
  | O => None
  | S m =>
      match snaps !! m with
      | Some lastSnap => Some (olderSnapshots snaps lastSnap m m)
      | None => None
      end
  end.

Definition CurrentPriceSnapshot (d : Deck) : option Snapshot :=
  i ← CurrentPriceIndex d; Snapshots d !! i.

Definition Deck_IsGrandfatherLegal (d : Deck) : bool :=
  match CurrentPriceSnapshot d with
  | Some s => IsGrandfatherLegal s
  | None => false
  end.

(** [Deck.IsSnapshotLegal]. The argument is a pointer: [None] is nil, and
    the first statement reads [s.Commander]. *)
Definition IsSnapshotLegal (d : Deck) (s : option Snapshot) : outcome bool :=
  match s with
  | None => Panics
  | Some s =>
      if IsPresent (Commander s) && CNotFound (Commander s) then Returns false
      else if existsb NotFound (Decklist s) then Returns false
      else if existsb NotFound (Sideboard s) then Returns false
      else Returns (IsGrandfatherLegal s || PrimFloat.leb (TotalPrice s) (PriceLimit d))
  end.

Definition IsLegal (d : Deck) : outcome bool :=
  IsSnapshotLegal d (CurrentPriceSnapshot d).

Definition IsStagingAreaLegal (d : Deck) : outcome bool :=
  IsSnapshotLegal d (Some (StagingArea d)).

(** ** The fragment of [regexp] syntax that the card-line pattern uses

    Matching is the backtracking search whose first success [regexp]
    returns (leftmost-first): greedy repetition and greedy option, captures
    undone on backtracking. *)

Inductive regex : Type :=
  | Class (p : rune → bool)            (* one rune of a class *)
  | Plus (p : rune → bool)             (* class+ *)
  | Seq (r1 r2 : regex)                (* r1 r2 *)
  | Opt (r : regex)                    (* r? *)
  | Group (i : nat) (r : regex).       (* (r), capturing group number i *)

Abbreviation captures := (gmap nat gostring).

Definition matchk := gostring → captures → option (gostring * captures).

(** [class*] followed by the continuation [k], longest repetition first. *)
Fixpoint star (p : rune → bool) (s : gostring) (c : captures) (k : matchk)
    : option (gostring * captures) :=
  match s with
  | x :: s' =>
      if p x then
        match star p s' c k with
        | Some res => Some res
        | None => k s c
        end
      else k s c
  | [] => k s c
  end.

(** [rmatch r s c k]: match [r] at the start of [s], then [k] on what is
    left; the result is the input left after the whole match, and the
    captures. *)
Fixpoint rmatch (r : regex) (s : gostring) (c : captures) (k : matchk)
    : option (gostring * captures) :=
  match r with
  | Class p =>
      match s with
      | x :: s' => if p x then k s' c else None
      | [] => None
      end
  | Plus p =>
      match s with
      | x :: s' => if p x then star p s' c k else None
      | [] => None
      end
  | Seq r1 r2 => rmatch r1 s c (fun s' c' => rmatch r2 s' c' k)
  | Opt r1 =>
      match rmatch r1 s c k with
      | Some res => Some res
      | None => k s c
      end
  | Group i r1 =>
      rmatch r1 s c
        (fun s' c' => k s' (<[i := take (length s - length s') s]> c'))
  end.

Definition matchHere (r : regex) (s : gostring) : option (gostring * captures) :=
  rmatch r s ∅ (fun s' c' => Some (s', c')).

(** The leftmost match in [s]: the input from the start of the match, the
    input left after it, and the captures. *)
Fixpoint search (r : regex) (s : gostring)
    : option (gostring * gostring * captures) :=
  match matchHere r s with
  | Some (rest, c) => Some (s, rest, c)
  | None =>
      match s with
      | _ :: s' => search r s'
      | [] => None
      end
  end.

(** One element of a [FindAllStringSubmatch] result: the text of the match
    and of groups [1..ngroups], the empty string for a group that took no
    part in the match. *)
Definition submatches (ngroups : nat) (from rest : gostring) (c : captures)
    : list gostring :=
  take (length from - length rest) from
    :: map (fun i => default [] (c !! i)) (seq 1 ngroups).

(** [FindAllStringSubmatch(s, -1)]: successive matches that do not overlap.
    After an empty match the search resumes one rune further, and an empty
    match right after the previous match is dropped. *)
Fixpoint findAll (fuel : nat) (r : regex) (ngroups : nat) (s : gostring)
    (prevMatchEnd : option nat) : list (list gostring) :=
  match fuel with
  | O => []
  | S fuel' =>
      match search r s with
      | None => []
      | Some (from, rest, c) =>
          if bool_decide (length from = length rest) then
            let accept := negb (bool_decide (prevMatchEnd = Some (length rest))) in
            let more :=
              match rest with
              | _ :: rest' => findAll fuel' r ngroups rest' (Some (length rest))
              | [] => []
              end in
            if accept then submatches ngroups from rest c :: more else more
          else
            submatches ngroups from rest c
              :: findAll fuel' r ngroups rest (Some (length rest))
      end
  end.

Definition FindAllStringSubmatch (r : regex) (ngroups : nat) (s : gostring)
    : list (list gostring) :=
  findAll (S (length s)) r ngroups s None.

(** Character classes of the pattern. *)
Definition isDigit (c : rune) : bool := (48 <=? c) && (c <=? 57).
Definition isXx (c : rune) : bool := (c =? 120) || (c =? 88).
(* \s is [\t\n\f\r ] *)
Definition isReSpace (c : rune) : bool :=
  (c =? 9) || (c =? 10) || (c =? 12) || (c =? 13) || (c =? 32).
(* \w is [0-9A-Za-z_] *)
Definition isWord (c : rune) : bool :=
  isDigit c || ((65 <=? c) && (c <=? 90)) || ((97 <=? c) && (c <=? 122)) || (c =? 95).
(* . is any rune but \n *)
Definition isAnyNotNL (c : rune) : bool := negb (c =? 10).

(** The pattern [(?:([0-9]+)[xX]?\s+)?(\w.+)]. *)
Definition cardLineRegex : regex :=
  Seq (Opt (Seq (Group 1 (Plus isDigit)) (Seq (Opt (Class isXx)) (Plus isReSpace))))
      (Group 2 (Seq (Class isWord) (Plus isAnyNotNL))).

(** ** [strconv.Atoi], [strings.TrimSpace], [strings.Split] *)

Definition maxInt : Z := 2 ^ 63 - 1.
Definition minInt : Z := - 2 ^ 63.

Definition digitsValue (ds : gostring) : Z :=
  fold_left (fun acc d => 10 * acc + (d - 48)) ds 0.

(** The optional sign in front: whether it is [-], and what follows. *)
Definition splitSign (s : gostring) : bool * gostring :=
  match s with
  | 45 :: t => (true, t)
  | 43 :: t => (false, t)
  | _ => (false, s)
  end.

(** [None] is the error result (syntax or range). *)
Definition Atoi (s : gostring) : option Z :=
  let '(neg, ds) := splitSign s in
  match ds with
  | [] => None
  | _ =>
      if forallb isDigit ds then
        let n := if neg : bool then - digitsValue ds else digitsValue ds in
        if (minInt <=? n) && (n <=? maxInt) then Some n else None
      else None
  end.

(** [unicode.IsSpace]. *)
Definition isSpace (c : rune) : bool :=
  ((9 <=? c) && (c <=? 13)) || (c =? 32) || (c =? 133) || (c =? 160) ||
  (c =? 5760) || ((8192 <=? c) && (c <=? 8202)) || (c =? 8232) || (c =? 8233) ||
  (c =? 8239) || (c =? 8287) || (c =? 12288).

Fixpoint trimLeft (p : rune → bool) (s : gostring) : gostring :=
  match s with
  | x :: s' => if p x then trimLeft p s' else s
  | [] => []
  end.

Definition trimRight (p : rune → bool) (s : gostring) : gostring :=
  rev (trimLeft p (rev s)).

Definition TrimSpace (s : gostring) : gostring :=
  trimRight isSpace (trimLeft isSpace s).

(** [strings.Split(s, "\r\n")]; [cur] is the piece being read, reversed. *)
Fixpoint splitCRLF (s : gostring) (cur : gostring) : list gostring :=
  match s with
  | 13 :: 10 :: rest => rev cur :: splitCRLF rest []
  | x :: rest => splitCRLF rest (x :: cur)
  | [] => [rev cur]
  end.

Definition Split_CRLF (s : gostring) : list gostring := splitCRLF s [].

(** ** The decklist parser *)

Definition ParseCardEntryLine (s : gostring) : option CardEntry :=
  let matches := FindAllStringSubmatch cardLineRegex 2 s in
  match matches with
  | [m] =>
      if negb (bool_decide (length m = 3%nat)) then None
      else
        let count := match Atoi (default [] (m !! 1%nat)) with
                     | Some n => n
                     | None => 1
                     end in
        Some {| Count := count; Name := TrimSpace (default [] (m !! 2%nat));
                PricePer := 0%float; NotFound := false |}
  | _ => None
  end.

Definition ParseCardEntryLines (s : gostring) : list CardEntry :=
  fold_left
    (fun entries line =>
       match ParseCardEntryLine line with
       | Some entry => entries ++ [entry]
       | None => entries
       end)
    (Split_CRLF s) [].

(** ** The [unicode] tables

    [unicode.IsLower], [IsUpper], [IsNumber], [IsLetter] and [ToLower] are
    tables of the Go library; the package is written against them. *)

Class Unicode := {
  IsLower : rune → bool;
  IsUpper : rune → bool;
  IsNumber : rune → bool;
  IsLetter : rune → bool;
  ToLower : rune → rune
}.

Definition asciiLower (r : rune) : bool := (97 <=? r) && (r <=? 122).
Definition asciiUpper (r : rune) : bool := (65 <=? r) && (r <=? 90).

(** What the development uses of the tables: their values on ASCII, and
    that lower-casing is stable. *)
Class UnicodeLaws (U : Unicode) : Prop := {
  IsLower_ascii : ∀ r, 0 <= r < 128 → IsLower r = asciiLower r;
  IsUpper_ascii : ∀ r, 0 <= r < 128 → IsUpper r = asciiUpper r;
  IsNumber_ascii : ∀ r, 0 <= r < 128 → IsNumber r = isDigit r;
  IsLetter_ascii : ∀ r, 0 <= r < 128 → IsLetter r = asciiLower r || asciiUpper r;
  ToLower_ascii : ∀ r, 0 <= r < 128 → ToLower r = if asciiUpper r then r + 32 else r;
  ToLower_upper : ∀ r, IsUpper r = true → IsLower (ToLower r) = true ∨ ToLower r = r;
  ToLower_idem : ∀ r, ToLower (ToLower r) = ToLower r;
  ToLower_alnum : ∀ r, IsLetter r || IsNumber r = true →
                       IsLetter (ToLower r) || IsNumber (ToLower r) = true
}.

(** The tables cut down to ASCII: no rune above 127 is a letter or a number. *)
Definition asciiTables : Unicode := {|
  IsLower r := asciiLower r;
  IsUpper r := asciiUpper r;
  IsNumber r := isDigit r;
  IsLetter r := asciiLower r || asciiUpper r;
  ToLower r := if asciiUpper r then r + 32 else r
|}.

(** ** The normalizer ([database.go]) and the price IDs ([prices.go]) *)

Section Normalizer.
Context {U : Unicode}.

Definition normalizeRune (r : rune) : rune :=
  if IsLower r || IsNumber r then r
  else if IsUpper r then ToLower r
  else 45.

Definition normalizeString (s : gostring) : gostring :=
  fold_left
    (fun buffer c => if c =? 36 then buffer else buffer ++ [normalizeRune c])
    s [].

(* creates an ID from a name by trimming all non-alphanumeric characters *)
Definition nameToId (name : gostring) : gostring :=
  fold_left
    (fun buffer c =>
       if IsLetter c || IsNumber c then buffer ++ [ToLower c] else buffer)
    name [].

(** [strings.ToLower]. *)
Definition strings_ToLower (s : gostring) : gostring := map ToLower s.

(** What one rune adds to the buffer, in [normalizeString] and in
    [nameToId]. *)
Definition normalizeStep (c : rune) : gostring :=
  if c =? 36 then [] else [normalizeRune c].

Definition idStep (c : rune) : gostring :=
  if IsLetter c || IsNumber c then [ToLower c] else [].
End Normalizer.

Definition isAscii (r : rune) : Prop := 0 <= r < 128.

(** ** String helpers of the scraper *)

Fixpoint HasPrefix (s prefix : gostring) : bool :=
  match prefix, s with
  | [], _ => true
  | p :: prefix', x :: s' => (x =? p) && HasPrefix s' prefix'
  | _ :: _, [] => false
  end.

Definition HasSuffix (s suffix : gostring) : bool :=
  HasPrefix (rev s) (rev suffix).

(** [strings.Index]: [None] is the result -1. *)
Fixpoint Index (s sub : gostring) : option nat :=
  if HasPrefix s sub then Some 0%nat
  else match s with
       | _ :: s' => S <$> Index s' sub
       | [] => None
       end.

(** [strings.Replace(s, old, new, -1)] for a one-rune [old]. *)
Definition ReplaceRune (s : gostring) (old : rune) (new : gostring) : gostring :=
  flat_map (fun c => if c =? old then new else [c]) s.

(** [strings.Trim(s, cutset)] for a one-rune cutset. *)
Definition TrimRune (s : gostring) (cut : rune) : gostring :=
  trimRight (fun c => c =? cut) (trimLeft (fun c => c =? cut) s).

(** ** The scraper's world: pages, the database, errors *)

Inductive error : Type :=
  | FetchError (url : gostring)
  | DbError (op : gostring).

(** A [td] element as the scraper reads it: its [bgcolor] attribute, the
    [href] of the first [a] inside it, and its text. *)
Record TdCell := mkTdCell {
  bgcolor : option gostring;
  anchorHref : option gostring;
  cellText : gostring
}.

(** A fetched document: the [href] of each [a] element, and the [td]
    elements, in document order. *)
Record Document := mkDocument {
  anchors : list (option gostring);
  cells : list TdCell
}.

Record ScraperStats := mkScraperStats {
  LastPriceUpdate : Z;
  LastPriceUpdateError : option error
}.

(** The two collections the scraper writes. *)
Record DbState := mkDbState {
  prices : list PriceDbEntry;
  scraperstats : list ScraperStats
}.

Inductive dbop := RemoveAllPrices | InsertPrices | RemoveAllStats | InsertStats.

(** What a run meets outside the program: the web ([None]: the fetch
    failed), [strconv.ParseFloat] ([None]: syntax or range error), the
    database operations that fail, and the clock. *)
Class World := {
  NewDocument : gostring → option Document;
  ParseFloat : gostring → option Money;
  dbFails : dbop → bool;
  Now : Z
}.

Definition dbop_name (op : dbop) : gostring :=
  match op with
  | RemoveAllPrices => runes "prices.RemoveAll"
  | InsertPrices => runes "prices.Insert"
  | RemoveAllStats => runes "scraperstats.RemoveAll"
  | InsertStats => runes "scraperstats.Insert"
  end.

Section Scraper.
Context {U : Unicode} {W : World}.

Definition UpdateAllPrices (db : DbState) (ps : list PriceDbEntry)
    : option error * DbState :=
  if dbFails RemoveAllPrices then (Some (DbError (dbop_name RemoveAllPrices)), db)
  else
    let db := {| prices := []; scraperstats := scraperstats db |} in
    if dbFails InsertPrices then (Some (DbError (dbop_name InsertPrices)), db)
    else (None, {| prices := ps; scraperstats := scraperstats db |}).

Definition SetScraperStats (db : DbState) (s : ScraperStats)
    : option error * DbState :=
  if dbFails RemoveAllStats then (Some (DbError (dbop_name RemoveAllStats)), db)
  else
    let db := {| prices := prices db; scraperstats := [] |} in
    if dbFails InsertStats then (Some (DbError (dbop_name InsertStats)), db)
    else (None, {| prices := prices db; scraperstats := [s] |}).

(** [Db.GetScraperStats]; [None] is the error return. [One] fails when the
    collection is empty, and when it cannot decode the record: the field
    [LastPriceUpdateError] has the interface type [error], into which only
    the nil error is read back. *)
Definition GetScraperStats (db : DbState) : option ScraperStats :=
  match head (scraperstats db) with
  | Some s =>
      match LastPriceUpdateError s with
      | None => Some s
      | Some _ => None
      end
  | None => None
  end.

Definition bgColors : list gostring := [runes "#D1DFFC"; runes "#E6F4FF"].

(** The callback of [doc.Find("td").Each] in [scrapePage]: [Returns None]
    for a cell that is skipped, [Panics] for [panic(err)]. *)
Definition scrapeCell (s : TdCell) : outcome (option PriceDbEntry) :=
  match bgcolor s with
  | None => Returns None
  | Some val =>
      let isCorrectColor := existsb (fun x => bool_decide (val = x)) bgColors in
      if negb isCorrectColor then Returns None
      else
        match anchorHref s with
        | None => Returns None
        | Some val =>
            match Index val (runes "cn=") with
            | None => Returns None
            | Some idx =>
                let val := drop (idx + 3) val in
                match Index val (runes "&") with
                | None => Returns None
                | Some idx =>
                    let cardName := take idx val in
                    let price := cellText s in
                    let price := TrimSpace price in
                    let price := TrimRune price 36 in
                    let price := ReplaceRune price 44 [] in
                    match ParseFloat price with
                    | None => Panics
                    | Some priceFloat =>
                        Returns (Some {| ID := nameToId cardName;
                                         PName := cardName;
                                         Price := priceFloat |})
                    end
                end
            end
        end
  end.

Fixpoint scrapeCells (cs : list TdCell) (entries : list PriceDbEntry)
    : outcome (list PriceDbEntry) :=
  match cs with
  | [] => Returns entries
  | s :: cs' =>
      match scrapeCell s with
      | Panics => Panics
      | Returns None => scrapeCells cs' entries
      | Returns (Some e) => scrapeCells cs' (entries ++ [e])
      end
  end.

(** [scrapePage]: [Returns (inl err)] is the error return. *)
Definition scrapePage (url : gostring) : outcome (error + list PriceDbEntry) :=
  let url := ReplaceRune url 32 [43] in
  match NewDocument url with
  | None => Returns (inl (FetchError url))
  | Some doc =>
      match scrapeCells (cells doc) [] with
      | Panics => Panics
      | Returns entries => Returns (inr entries)
      end
  end.

(** The body of the loop over the entries of a page in [scrapePrices]. *)
Definition keepLowest (lowestPrice : gmap gostring PriceDbEntry) (e : PriceDbEntry)
    : gmap gostring PriceDbEntry :=
  match lowestPrice !! ID e with
  | Some val =>
      if PrimFloat.ltb (Price e) (Price val) then <[ID e := e]> lowestPrice
      else lowestPrice
  | None => <[ID e := e]> lowestPrice
  end.

Definition reconcile (entries : list PriceDbEntry)
    (lowestPrice : gmap gostring PriceDbEntry) : gmap gostring PriceDbEntry :=
  fold_left keepLowest entries lowestPrice.

(** The callback of [doc.Find("a").Each] in [scrapePrices]. *)
Definition setLink (setLinks : list gostring) (a : option gostring) : list gostring :=
  let prefix := runes "/db/search_result.asp?set_name=" in
  match a with
  | Some val =>
      if HasPrefix (strings_ToLower val) prefix then
        let val := if HasSuffix val (runes "Magic 2010")
                   then val ++ runes " (M10)" else val in
        setLinks ++ [runes "http://magic.tcgplayer.com" ++ val]
      else setLinks
  | None => setLinks
  end.

(** The loop over [setLinks] in [scrapePrices]. *)
Fixpoint scrapeLinks (setLinks : list gostring)
    (lowestPrice : gmap gostring PriceDbEntry)
    : outcome (error + gmap gostring PriceDbEntry) :=
  match setLinks with
  | [] => Returns (inr lowestPrice)
  | link :: setLinks' =>
      match scrapePage link with
      | Panics => Panics
      | Returns (inl err) => Returns (inl err)
      | Returns (inr entries) =>
          scrapeLinks setLinks' (reconcile entries lowestPrice)
      end
  end.

(** The entries of the map, in the order the [range] over it yields. Go
    fixes no order for it; the order taken here is one of them, and the
    statements about the catalog below are about its entries, in any
    order. *)
Definition allEntries (lowestPrice : gmap gostring PriceDbEntry) : list PriceDbEntry :=
  (map_to_list lowestPrice).*2.

(** [Db.scrapePrices]: the outcome with the error returned, and the
    database as the call leaves it. *)
Definition scrapePrices (db : DbState) : outcome (option error) * DbState :=
  let url := runes "http://magic.tcgplayer.com/all_magic_sets.asp" in
  match NewDocument url with
  | None => (Returns (Some (FetchError url)), db)
  | Some doc =>
      let setLinks := fold_left setLink (anchors doc) [] in
      match scrapeLinks setLinks ∅ with
      | Panics => (Panics, db)
      | Returns (inl err) => (Returns (Some err), db)
      | Returns (inr lowestPrice) =>
          let '(err, db) := UpdateAllPrices db (allEntries lowestPrice) in
          (Returns err, db)
      end
  end.

(** [Db.scrapePricesPeriodic]. *)
Definition scrapePricesPeriodic (db : DbState) : outcome unit * DbState :=
  match scrapePrices db with
  | (Panics, db) => (Panics, db)
  | (Returns None, db) =>
      (Returns tt, (SetScraperStats db {| LastPriceUpdate := Now;
                                          LastPriceUpdateError := None |}).2)
  | (Returns (Some err), db) =>
      (Returns tt, (SetScraperStats db {| LastPriceUpdate := Now;
                                          LastPriceUpdateError := Some err |}).2)
  end.

(** The database takes the writes of [SetScraperStats]. *)
Definition statsWritable : Prop :=
  dbFails RemoveAllStats = false ∧ dbFails InsertStats = false.

Definition waitBetweenScrapes : Z := 24 * 3600 * 1000000000.

(** One turn of the loop of [Db.ScrapeForever], at the tick [now]. *)
Definition ScrapeForever_tick (now : Z) (db : DbState) : outcome unit * DbState :=
  match GetScraperStats db with
  | Some stats =>
      if LastPriceUpdate stats + waitBetweenScrapes <? now
      then scrapePricesPeriodic db
      else (Returns tt, db)
  | None => scrapePricesPeriodic db
  end.
End Scraper.

(** ** Snapshots in memory: slices of pointers to card entries

    [Decklist] and [Sideboard] are [[]*CardEntry]: a slice names a backing
    array of pointers, and each pointer names a card entry. The functions
    above read a snapshot through [snapshotOf]. *)

Definition loc := positive.

Record Heap := mkHeap {
  cardsH : gmap loc CardEntry;
  arraysH : gmap loc (list (option loc))
}.

Record slice := mkSlice {
  arr : loc;
  slen : nat
}.

Record SnapshotRef := mkSnapshotRef {
  RDate : Z;
  RDecklist : slice;
  RSideboard : slice;
  RCommander : CommanderEntry;
  RIsGrandfatherLegal : bool
}.

(** [sl[i]]; [None] is the panic of an index out of range. *)
Definition index (h : Heap) (sl : slice) (i : nat) : option (option loc) :=
  if bool_decide (i < slen sl)%nat then a ← arraysH h !! arr sl; a !! i else None.

(** [sl[i] = p]. *)
Definition store (h : Heap) (sl : slice) (i : nat) (p : option loc) : option Heap :=
  a ← arraysH h !! arr sl;
  if bool_decide (i < slen sl ∧ i < length a)%nat
  then Some {| cardsH := cardsH h; arraysH := <[arr sl := <[i := p]> a]> (arraysH h) |}
  else None.

(** [*p]; [None] is the panic of a nil dereference. *)
Definition deref (h : Heap) (p : option loc) : option CardEntry :=
  l ← p; cardsH h !! l.

(** [&card] for a new variable [card]. *)
Definition newCard (h : Heap) (card : CardEntry) : loc * Heap :=
  let l := fresh (dom (cardsH h)) in
  (l, {| cardsH := <[l := card]> (cardsH h); arraysH := arraysH h |}).

(** [make([]*CardEntry, n, n)]. *)
Definition make (h : Heap) (n : nat) : slice * Heap :=
  let a := fresh (dom (arraysH h)) in
  ({| arr := a; slen := n |},
   {| cardsH := cardsH h; arraysH := <[a := replicate n None]> (arraysH h) |}).

(** The card entries a slice holds, by value. *)
Definition readCards (h : Heap) (sl : slice) : option (list CardEntry) :=
  a ← arraysH h !! arr sl;
  if bool_decide (slen sl ≤ length a)%nat
  then mapM (deref h) (take (slen sl) a)
  else None.

Definition snapshotOf (h : Heap) (s : SnapshotRef) : option Snapshot :=
  decklist ← readCards h (RDecklist s);
  sideboard ← readCards h (RSideboard s);
  Some {| Date := RDate s; Decklist := decklist; Sideboard := sideboard;
          Commander := RCommander s; IsGrandfatherLegal := RIsGrandfatherLegal s |}.

(** [s.TotalPrice()] for a snapshot in memory. *)
Definition TotalPriceIn (h : Heap) (s : SnapshotRef) : option Money :=
  TotalPrice <$> snapshotOf h s.

(** The loops of [Snapshot.Clone]: [for i := ...; i < len(src); i++] with
    [n] turns left. *)
Fixpoint copyCards (h : Heap) (src dst : slice) (i n : nat) : option Heap :=
  match n with
  | O => Some h
  | S n' =>
      p ← index h src i;
      card ← deref h p;
      let '(l, h) := newCard h card in
      h ← store h dst i (Some l);
      copyCards h src dst (S i) n'
  end.

Definition Clone (h : Heap) (s : SnapshotRef) : option (SnapshotRef * Heap) :=
  let '(decklist, h) := make h (slen (RDecklist s)) in
  h ← copyCards h (RDecklist s) decklist 0 (slen (RDecklist s));
  let '(sideboard, h) := make h (slen (RSideboard s)) in
  h ← copyCards h (RSideboard s) sideboard 0 (slen (RSideboard s));
  Some ({| RDate := RDate s; RDecklist := decklist; RSideboard := sideboard;
           RCommander := RCommander s;
           RIsGrandfatherLegal := RIsGrandfatherLegal s |}, h).

(** Edits of a snapshot's card lists, as the package makes them on the
    staging area: an entry changed in place through its pointer
    ([c.Name = n], [c.PricePer = p], ...), an element of a list set to a
    new entry, a list replaced by a new one. *)
Inductive whichList := TheDecklist | TheSideboard.

Inductive edit : Type :=
  | EditCard (w : whichList) (i : nat) (f : CardEntry → CardEntry)
  | PutCard (w : whichList) (i : nat) (card : CardEntry)
  | SetList (w : whichList) (cards : list CardEntry).

Definition getList (w : whichList) (s : SnapshotRef) : slice :=
  match w with TheDecklist => RDecklist s | TheSideboard => RSideboard s end.

Definition setList (w : whichList) (sl : slice) (s : SnapshotRef) : SnapshotRef :=
  match w with
  | TheDecklist =>
      {| RDate := RDate s; RDecklist := sl; RSideboard := RSideboard s;
         RCommander := RCommander s; RIsGrandfatherLegal := RIsGrandfatherLegal s |}
  | TheSideboard =>
      {| RDate := RDate s; RDecklist := RDecklist s; RSideboard := sl;
         RCommander := RCommander s; RIsGrandfatherLegal := RIsGrandfatherLegal s |}
  end.

(** A new slice holding new entries with the given values. *)
Fixpoint newCards (h : Heap) (cards : list CardEntry) : list (option loc) * Heap :=
  match cards with
  | [] => ([], h)
  | card :: cards' =>
      let '(l, h) := newCard h card in
      let '(ps, h) := newCards h cards' in
      (Some l :: ps, h)
  end.

Definition newSlice (h : Heap) (cards : list CardEntry) : slice * Heap :=
  let '(ps, h) := newCards h cards in
  let a := fresh (dom (arraysH h)) in
  ({| arr := a; slen := length ps |},
   {| cardsH := cardsH h; arraysH := <[a := ps]> (arraysH h) |}).

(** [None] is a panic (index out of range, nil dereference). *)
Definition applyEdit (e : edit) (sh : SnapshotRef * Heap) : option (SnapshotRef * Heap) :=
  let '(s, h) := sh in
  match e with
  | EditCard w i f =>
      p ← index h (getList w s) i;
      l ← p;
      card ← cardsH h !! l;
      Some (s, {| cardsH := <[l := f card]> (cardsH h); arraysH := arraysH h |})
  | PutCard w i card =>
      let '(l, h) := newCard h card in
      h ← store h (getList w s) i (Some l);
      Some (s, h)
  | SetList w cards =>
      let '(sl, h) := newSlice h cards in
      Some (setList w sl s, h)
  end.

Fixpoint applyEdits (es : list edit) (sh : SnapshotRef * Heap) : option (SnapshotRef * Heap) :=
  match es with
  | [] => Some sh
  | e :: es' => sh ← applyEdit e sh; applyEdits es' sh
  end.

(** ** The current-price rule in the words of the specification

    Start from the most recent snapshot; walk backward through the strictly
    older ones while their cards are identical to the most recent one's;
    keep the lowest total price seen, replacing only on a strictly lower
    price. Snapshots carry their index in the history. *)

Fixpoint takeWhile {A} (p : A → bool) (l : list A) : list A :=
  match l with
  | x :: l' => if p x then x :: takeWhile p l' else []
  | [] => []
  end.

Definition cheaper (best x : nat * Snapshot) : nat * Snapshot :=
  if PrimFloat.ltb (TotalPrice x.2) (TotalPrice best.2) then x else best.

Definition spec_currentPriceIndex (snaps : list Snapshot) : option nat :=
  match rev (imap pair snaps) with
  | [] => None
  | mostRecent :: older =>
      let run := takeWhile (λ x, HasIdenticalCards x.2 mostRecent.2) older in
      Some (fold_left cheaper run mostRecent).1
  end.

(** Example histories: one card at the given price. *)
Definition oneCard (name : string) (price : Money) : Snapshot :=
  {| Date := 0;
     Decklist := [ {| Name := runes name; Count := 1; PricePer := price;
                      NotFound := false |} ];
     Sideboard := [];
     Commander := {| CName := []; CPrice := 0%float; IsPresent := false;
                     CNotFound := false |};
     IsGrandfatherLegal := false |}.

Definition deckOf (snaps : list Snapshot) : Deck :=
  {| DName := runes "deck"; CreationDate := 0; PriceLimit := 20%float;
     StagingArea := oneCard "Island" 0%float; Snapshots := snaps |}.

Definition history1 : list Snapshot :=
  [oneCard "cardsA" 12%float; oneCard "cardsB" 10%float; oneCard "cardsB" 8%float].

Definition history2 : list Snapshot :=
  [oneCard "cardsA" 12%float; oneCard "cardsB" 8%float; oneCard "cardsB" 10%float].

(** [k..m] is the scanned run of the history [snaps] whose most recent
    snapshot [lastSnap] is at index [m], and [r] is the best of the run:
    every snapshot of the run older than the most recent one has cards
    identical to its, no snapshot of the run is strictly cheaper than the
    one at [r], and no snapshot of the run more recent than [r] has the
    price of [r]. *)
Definition bestOfRun (snaps : list Snapshot) (lastSnap : Snapshot)
    (m k r : nat) : Prop :=
  (k ≤ r ≤ m)%nat
  ∧ (∀ j s, (k ≤ j < m)%nat → snaps !! j = Some s →
       HasIdenticalCards s lastSnap = true)
  ∧ (∀ j s sr, (k ≤ j ≤ m)%nat → snaps !! j = Some s → snaps !! r = Some sr →
       PrimFloat.ltb (TotalPrice s) (TotalPrice sr) = false)
  ∧ (∀ j s sr, (r < j ≤ m)%nat → snaps !! j = Some s → snaps !! r = Some sr →
       PrimFloat.eqb (TotalPrice s) (TotalPrice sr) = false).

(** The run stops at [k]: at the start of the history, or below a
    snapshot whose cards differ. *)
Definition runStopsAt (snaps : list Snapshot) (lastSnap : Snapshot) (k : nat) : Prop :=
  k = 0%nat
  ∨ ∃ k' s, k = S k' ∧ snaps !! k' = Some s ∧ HasIdenticalCards s lastSnap = false.

(** The catalog entry that the scraper makes of an observed name and price. *)
Definition observed {U : Unicode} (o : gostring * Money) : PriceDbEntry :=
  {| ID := nameToId o.1; PName := o.1; Price := o.2 |}.

(** [lowestPrice] is reconciled with the entries [es] seen so far. *)
Definition reconciled (lowestPrice : gmap gostring PriceDbEntry)
    (es : list PriceDbEntry) : Prop :=
  (∀ id e, lowestPrice !! id = Some e →
     ID e = id ∧ e ∈ es
     ∧ ∀ e', e' ∈ es → ID e' = id → PrimFloat.ltb (Price e') (Price e) = false)
  ∧ (∀ e, e ∈ es → is_Some (lowestPrice !! ID e)).

Definition listings : list (gostring * Money) :=
  [(runes "A", 5%float); (runes "a!", 3%float); (runes "b", 7%float)].

(** ** Example worlds for the scraper *)

(** [strconv.ParseFloat] on plain decimals, [digits] or [digits.digits] of
    at most 15 digits in all (there the quotient below is the nearest
    binary64 value); every other text is taken as an error here. *)
Definition parseDecimal (s : gostring) : option Money :=
  let int := takeWhile isDigit s in
  let rest := drop (length int) s in
  let frac := match rest with 46 :: f => Some f | [] => Some [] | _ => None end in
  match int, frac with
  | _ :: _, Some f =>
      if forallb isDigit f && (length (int ++ f) <=? 15)%nat then
        Some (PrimFloat.div (Money_of_int (digitsValue (int ++ f)))
                            (Money_of_int (10 ^ Z.of_nat (length f))))
      else None
  | _, _ => None
  end.

Definition indexUrl : gostring := runes "http://magic.tcgplayer.com/all_magic_sets.asp".
Definition alphaUrl : gostring :=
  runes "http://magic.tcgplayer.com/db/search_result.asp?set_name=Alpha".

Definition indexDoc : Document :=
  {| anchors := [Some (runes "/db/search_result.asp?set_name=Alpha"); None;
                 Some (runes "/about.asp")];
     cells := [] |}.

Definition saleCell (name price : string) : TdCell :=
  {| bgcolor := Some (runes "#D1DFFC");
     anchorHref := Some (runes "/db/magic_single_card.asp?cn=" ++ runes name
                           ++ runes "&sn=Alpha");
     cellText := runes price |}.

(** A listing page, the second cell's text being [price]. *)
Definition alphaDoc (price : string) : Document :=
  {| anchors := [];
     cells := [saleCell "Black Lotus" " $1,234.50 ";
               {| bgcolor := None; anchorHref := None; cellText := runes "Price" |};
               saleCell "Mox Pearl" price] |}.

(** The site answers every fetch; the listing shows [price] for Mox Pearl. *)
Definition siteShowing (price : string) : World :=
  {| NewDocument url :=
       if bool_decide (url = indexUrl) then Some indexDoc
       else if bool_decide (url = alphaUrl) then Some (alphaDoc price)
       else None;
     ParseFloat := parseDecimal;
     dbFails _ := false;
     Now := 1000 |}.

(** The fetch of the listing page fails. *)
Definition siteDown : World :=
  {| NewDocument url := if bool_decide (url = indexUrl) then Some indexDoc else None;
     ParseFloat := parseDecimal;
     dbFails _ := false;
     Now := 1000 |}.

Definition oldDb : DbState :=
  {| prices := [ {| ID := runes "shock"; PName := runes "Shock"; Price := 1%float |} ];
     scraperstats := [ {| LastPriceUpdate := 7; LastPriceUpdateError := None |} ] |}.

(** ** The card-line pattern, piece by piece *)

(** The continuation that ends a match. *)
Definition matched : matchk := λ s' c', Some (s', c').

(** [([0-9]+)[xX]?\s+], the optional head of the pattern. *)
Definition countPart : regex :=
  Seq (Group 1 (Plus isDigit)) (Seq (Opt (Class isXx)) (Plus isReSpace)).

(** [(\w.+)], the name. *)
Definition namePart : regex :=
  Group 2 (Seq (Class isWord) (Plus isAnyNotNL)).

(** No rune of the class [p] starts [s]. *)
Definition stopsAt (p : rune → bool) (s : gostring) : Prop :=
  match s with
  | [] => True
  | y :: _ => p y = false
  end.

(** ** The decklist parser in the words of the specification *)

(** A count, white space, and a name that is not empty, is trimmed and has
    no line break give the entry with that count and that name. *)
Definition parseLine_as_specified : Prop :=
  ∀ ds ws name : gostring,
    ds ≠ [] → Forall (λ d, isDigit d = true) ds →
    ws ≠ [] → Forall (λ d, isReSpace d = true) ws →
    name ≠ [] → TrimSpace name = name → 10 ∉ name → 13 ∉ name →
    ∃ e, ParseCardEntryLine (ds ++ ws ++ name) = Some e
         ∧ Count e = digitsValue ds ∧ Name e = name.

(** The lines of a blob: its pieces between line breaks, [\n] or [\r\n]. *)
Fixpoint splitLines (s : gostring) (cur : gostring) : list gostring :=
  match s with
  | 13 :: 10 :: rest => rev cur :: splitLines rest []
  | 10 :: rest => rev cur :: splitLines rest []
  | x :: rest => splitLines rest (x :: cur)
  | [] => [rev cur]
  end.

Definition parseLines_as_specified : Prop :=
  ∀ blob, ParseCardEntryLines blob = omap ParseCardEntryLine (splitLines blob []).

(** The entry the parser builds. *)
Definition parsed (count : Z) (name : gostring) : CardEntry :=
  {| Name := name; Count := count; PricePer := 0%float; NotFound := false |}.

Definition CR : rune := 13.
Definition LF : rune := 10.

(** The lines joined by [\r\n]. *)
Fixpoint joinCRLF (lines : list gostring) : gostring :=
  match lines with
  | [] => []
  | [l] => l
  | l :: lines' => l ++ CR :: LF :: joinCRLF lines'
  end.

(** ** Heaps that grow *)

(** Every card entry and every backing array of [h0] is in [h], unchanged. *)
Definition agree (h0 h : Heap) : Prop :=
  cardsH h0 ⊆ cardsH h ∧ arraysH h0 ⊆ arraysH h.

(** [h] extends [h0]: it agrees with [h0], and the arrays it has besides
    those of [h0] point to no card entry of [h0]. *)
Definition extends (h0 h : Heap) : Prop :=
  agree h0 h
  ∧ ∀ a elems i l,
      arraysH h0 !! a = None → arraysH h !! a = Some elems →
      elems !! i = Some (Some l) → cardsH h0 !! l = None.

(** A snapshot of [h] whose card lists were made after [h0]. *)
Definition madeAfter (h0 : Heap) (sh : SnapshotRef * Heap) : Prop :=
  extends h0 sh.2
  ∧ arraysH h0 !! arr (RDecklist sh.1) = None
  ∧ arraysH h0 !! arr (RSideboard sh.1) = None.

(** The slice [sl] of [h] holds the first [i] of the entries [cs]. *)
Definition holdsUpTo (h : Heap) (sl : slice) (cs : list CardEntry) (i : nat) : Prop :=
  ∃ elems, arraysH h !! arr sl = Some elems ∧ length elems = slen sl
    ∧ ∀ j c, (j < i)%nat → cs !! j = Some c →
        ∃ l, elems !! j = Some (Some l) ∧ cardsH h !! l = Some c.

(** ** An example heap: a snapshot with one Shock in the decklist *)

Definition shock : CardEntry :=
  {| Name := runes "Shock"; Count := 4; PricePer := 0.25%float; NotFound := false |}.

Definition heap1 : Heap :=
  {| cardsH := {[ 1%positive := shock ]};
     arraysH := {[ 1%positive := [Some 1%positive]; 2%positive := [] ]} |}.

Definition snap1 : SnapshotRef :=
  {| RDate := 0;
     RDecklist := {| arr := 1%positive; slen := 1 |};
     RSideboard := {| arr := 2%positive; slen := 0 |};
     RCommander := {| CName := []; CPrice := 0%float; IsPresent := false;
                      CNotFound := false |};
     RIsGrandfatherLegal := false |}.

(** [c.PricePer = 100]. *)
Definition reprice (c : CardEntry) : CardEntry :=
  {| Name := Name c; Count := Count c; PricePer := 100%float; NotFound := NotFound c |}.

(** ** The rest of the deck's history ([database.go], [renderer.go])

    Histories are taken by value here: a clone reads as its original
    ([Clone] above), and these functions only read the entries. *)

(** [Deck.IsSaved]: the staging area matches the most recent snapshot. *)
Definition IsSaved (d : Deck) : bool :=
  match length (Snapshots d) with
  | O => false
  | S m =>
      match Snapshots d !! m with
      | Some snap =>
          HasIdenticalCards (StagingArea d) snap
          && PrimFloat.eqb (TotalPrice (StagingArea d)) (TotalPrice snap)
      | None => false
      end
  end.

(** The loop of [Deck.SnapshotsReversed]: [ret[(len-1)-i] = d.Snapshots[i]],
    with [n] turns left. [ret] is a slice of pointers, nil at first. *)
Fixpoint reverseInto (snaps : list Snapshot) (ret : list (option Snapshot))
    (i n : nat) : list (option Snapshot) :=
  match n with
  | O => ret
  | S n' =>
      match snaps !! i with
      | Some s =>
          reverseInto snaps (<[((length snaps - 1) - i)%nat := Some s]> ret) (S i) n'
      | None => ret
      end
  end.

Definition SnapshotsReversed (d : Deck) : list (option Snapshot) :=
  let n := length (Snapshots d) in
  reverseInto (Snapshots d) (replicate n None) 0%nat n.

(** [Snapshot.Clone], by value. *)
Definition cloneOf (s : Snapshot) : Snapshot :=
  {| Date := Date s;
     Decklist := map (λ card, card) (Decklist s);
     Sideboard := map (λ card, card) (Sideboard s);
     Commander := Commander s;
     IsGrandfatherLegal := IsGrandfatherLegal s |}.

Definition withDate (now : Z) (s : Snapshot) : Snapshot :=
  {| Date := now; Decklist := Decklist s; Sideboard := Sideboard s;
     Commander := Commander s; IsGrandfatherLegal := IsGrandfatherLegal s |}.

Definition withSnapshots (snaps : list Snapshot) (d : Deck) : Deck :=
  {| DName := DName d; CreationDate := CreationDate d; PriceLimit := PriceLimit d;
     StagingArea := StagingArea d; Snapshots := snaps |}.

Definition withStagingArea (s : Snapshot) (d : Deck) : Deck :=
  {| DName := DName d; CreationDate := CreationDate d; PriceLimit := PriceLimit d;
     StagingArea := s; Snapshots := Snapshots d |}.

(** [performSaveSnapshot], on the deck: at the time [now]. *)
Definition saveSnapshot (now : Z) (d : Deck) : Deck :=
  let snap := cloneOf (StagingArea d) in
  let snap := withDate now snap in
  withSnapshots (Snapshots d ++ [snap]) d.

(** [performRevertChanges], on the deck: [None] is the error
    "Deck has no snapshots!". *)
Definition revertChanges (d : Deck) : option Deck :=
  match length (Snapshots d) with
  | O => None
  | S m =>
      match Snapshots d !! m with
      | Some snap => Some (withStagingArea (cloneOf snap) d)
      | None => None
      end
  end.

(** ** Looking prices up ([database.go], [prices.go]) *)

(** [Db.NameAndPrice]: the first entry of the catalog with the ID; [None]
    is the error return (no such entry). The query itself is taken to
    succeed. *)
Definition NameAndPrice (db : DbState) (id : gostring) : option (gostring * Money) :=
  match filter (λ e, ID e = id) (prices db) with
  | e :: _ => Some (PName e, Price e)
  | [] => None
  end.

Definition freeCards : list gostring :=
  [runes "Plains"; runes "Island"; runes "Swamp"; runes "Mountain"; runes "Forest"].

Section Pricing.
Context {U : Unicode}.

(** The loop over [freeCards] in [calculateNameAndPrice]. *)
Fixpoint freeCard (id : gostring) (cards : list gostring) : option gostring :=
  match cards with
  | [] => None
  | x :: cards' => if bool_decide (id = nameToId x) then Some x else freeCard id cards'
  end.

Definition calculateNameAndPrice (db : DbState) (origName : gostring)
    : gostring * Money * bool :=
  let id := nameToId origName in
  match freeCard id freeCards with
  | Some x => (x, Free, true)
  | None =>
      match NameAndPrice db id with
      | None => (origName, Free, false)
      | Some (n, p) => (n, p, true)
      end
  end.

(** [CardEntry.calculateNameAndPrice]: the entry after the call. *)
Definition CardEntry_calculateNameAndPrice (db : DbState) (c : CardEntry) : CardEntry :=
  let '(n, p, exists_) := calculateNameAndPrice db (Name c) in
  {| Name := n; Count := Count c; PricePer := p; NotFound := negb exists_ |}.

(** [Snapshot.CalculatePrices]: the snapshot after the call. *)
Definition CalculatePrices (db : DbState) (s : Snapshot) : Snapshot :=
  let commander :=
    if IsPresent (Commander s) then
      let '(n, p, exists_) := calculateNameAndPrice db (CName (Commander s)) in
      {| CName := n; CPrice := p; IsPresent := IsPresent (Commander s);
         CNotFound := negb exists_ |}
    else Commander s in
  {| Date := Date s;
     Decklist := map (CardEntry_calculateNameAndPrice db) (Decklist s);
     Sideboard := map (CardEntry_calculateNameAndPrice db) (Sideboard s);
     Commander := commander;
     IsGrandfatherLegal := IsGrandfatherLegal s |}.

(** The catalog as the scraper writes it: the ID of an entry is the ID of
    its name. *)
Definition catalogOfNames (ps : list PriceDbEntry) : Prop :=
  Forall (λ e, ID e = nameToId (PName e)) ps.
End Pricing.

(** The database after the run on the site showing $800.00 for Mox Pearl. *)
Definition dbAfterRun : DbState :=
  (@scrapePrices asciiTables (siteShowing "$800.00") oldDb).2.

(** ** Users and their decks ([database.go], [renderer.go])

    A pointer to a deck of [user.Decks] is its index in the list. *)

Record User := mkUser {
  UName : gostring;
  PasswordHash : list Z;
  SessionKey : list Z;
  Decks : list Deck
}.

Definition withDecks (decks : list Deck) (user : User) : User :=
  {| UName := UName user; PasswordHash := PasswordHash user;
     SessionKey := SessionKey user; Decks := decks |}.

(** The zero value [Snapshot{}]. *)
Definition zeroSnapshot : Snapshot :=
  {| Date := 0; Decklist := []; Sideboard := [];
     Commander := {| CName := []; CPrice := 0%float; IsPresent := false;
                     CNotFound := false |};
     IsGrandfatherLegal := false |}.

(** Go's [<] on strings. *)
Fixpoint stringLess (a b : gostring) : bool :=
  match a, b with
  | _, [] => false
  | [], _ :: _ => true
  | x :: a', y :: b' => (x <? y) || ((x =? y) && stringLess a' b')
  end.

(** [decks.Less(i, j)] of the sort in [User.AllDecks]; [Panics] is an index
    out of range. It reads [d[i].Name] on both sides. *)
Definition decks_Less (d : list Deck) (i j : nat) : outcome bool :=
  match d !! i with
  | Some di => Returns (stringLess (DName di) (DName di))
  | None => Panics
  end.

Section Users.
Context {U : Unicode}.

Definition Deck_NormalizedName (d : Deck) : gostring := normalizeString (DName d).
Definition User_NormalizedName (u : User) : gostring := normalizeString (UName u).

(** The loop of [User.FindDeck], the decks before [decks] being [i]. *)
Fixpoint findDeckFrom (decks : list Deck) (name : gostring) (i : nat) : option nat :=
  match decks with
  | [] => None
  | d :: decks' =>
      if bool_decide (Deck_NormalizedName d = normalizeString name) then Some i
      else findDeckFrom decks' name (S i)
  end.

(** [User.FindDeck]: the index of the deck found, [None] for nil. *)
Definition FindDeck (user : User) (name : gostring) : option nat :=
  findDeckFrom (Decks user) name 0.

(** [performAddDeck], on the user, at the time [now]: [inl] is the error. *)
Definition addDeck (now : Z) (user : User) (name price : gostring) : gostring + User :=
  if bool_decide (name = []) || bool_decide (price = [])
  then inl (runes "Username/password not included")
  else
    match Atoi price with
    | None => inl (runes "Price incorrectly formatted")
    | Some priceInt =>
        match FindDeck user name with
        | Some _ => inl (runes "Deck '" ++ name ++ runes "' already exists!")
        | None =>
            let deck := {| DName := name; CreationDate := now;
                           PriceLimit := Money_of_int priceInt;
                           StagingArea := zeroSnapshot; Snapshots := [] |} in
            inr (withDecks (Decks user ++ [deck]) user)
        end
    end.

Definition renamed (newName : gostring) (limit : Money) (d : Deck) : Deck :=
  {| DName := newName; CreationDate := CreationDate d; PriceLimit := limit;
     StagingArea := StagingArea d; Snapshots := Snapshots d |}.

(** [performModifyDeck], on the user. The names [d.Name] and [deck.Name]
    are read through the two pointers. *)
Definition modifyDeck (user : User) (origName newName price : gostring)
    : gostring + User :=
  if bool_decide (origName = []) || bool_decide (newName = []) || bool_decide (price = [])
  then inl (runes "Required fields not included")
  else
    match Atoi price with
    | None => inl (runes "Price incorrectly formatted")
    | Some priceInt =>
        match FindDeck user origName with
        | None => inl (runes "Deck '" ++ origName ++ runes "' doesn't exist!")
        | Some deck =>
            let clash :=
              match FindDeck user newName with
              | Some d =>
                  negb (bool_decide (DName <$> Decks user !! d
                                     = DName <$> Decks user !! deck))
              | None => false
              end in
            if clash then inl (runes "Deck '" ++ newName ++ runes "' already exists!")
            else inr (withDecks
                        (alter (renamed newName (Money_of_int priceInt)) deck (Decks user))
                        user)
        end
    end.



(** No two decks of the user have the same normalized name. *)
Definition distinctDecks (user : User) : Prop :=
  NoDup (Deck_NormalizedName <$> Decks user).
End Users.

(** A user with two decks, for the examples. *)
Definition deckNamed (name : string) : Deck :=
  {| DName := runes name; CreationDate := 0; PriceLimit := 20%float;
     StagingArea := zeroSnapshot; Snapshots := [] |}.

Definition user1 : User :=
  {| UName := runes "Ann"; PasswordHash := []; SessionKey := [];
     Decks := [deckNamed "Mono Red"; deckNamed "Elves!"] |}.

(** [user1] after "mono red" is renamed to "Burn" with the limit 25, after
    a deck "Goblins" with the limit 30 is added at the time 5, and after
    "ELVES " is deleted. *)
Definition user1Renamed : User :=
  withDecks [renamed (runes "Burn") 25%float (deckNamed "Mono Red"); deckNamed "Elves!"]
    user1.

Definition user1Added : User :=
  withDecks [deckNamed "Mono Red"; deckNamed "Elves!";
             {| DName := runes "Goblins"; CreationDate := 5; PriceLimit := 30%float;
                StagingArea := zeroSnapshot; Snapshots := [] |}] user1.


(** ** The filter page ([renderer.go], [getFilterResults]) *)

Record deckData := mkDeckData {
  DDeck : Deck;
  DUser : User
}.

Definition filterResultsPerPage : Z := 25.

(** Go's [int] arithmetic: the result taken in the 64-bit range. *)
Definition wrapInt (z : Z) : Z := (z + 2 ^ 63) mod 2 ^ 64 - 2 ^ 63.

(** The loop [for insertIdx < len(all) && d.Name > all[insertIdx].Deck.Name],
    [rest] being [all[insertIdx:]]. *)
Fixpoint insertIdxFrom (name : gostring) (rest : list deckData) (insertIdx : nat) : nat :=
  match rest with
  | [] => insertIdx
  | x :: rest' =>
      if stringLess (DName (DDeck x)) name
      then insertIdxFrom name rest' (S insertIdx)
      else insertIdx
  end.

(** The sorted insert of [getFilterResults]. *)
Definition sortedInsert (allDecks : list deckData) (newDeck : deckData) : list deckData :=
  let insertIdx := insertIdxFrom (DName (DDeck newDeck)) allDecks 0 in
  take insertIdx allDecks ++ ([newDeck] ++ drop insertIdx allDecks).

(** [result.AllDecks] after the decks that pass the filters, in the order
    in which the loops meet them. *)
Definition allDecksOf (passing : list deckData) : list deckData :=
  fold_left sortedInsert passing [].

(** [result.NumPages]. *)
Definition NumPages (allDecks : list deckData) : Z :=
  wrapInt (Z.of_nat (length allDecks) + (filterResultsPerPage - 1))
    `quot` filterResultsPerPage.

(** [result.CurrentPage], from the form value [page]. *)
Definition CurrentPage (page : gostring) : Z :=
  match Atoi page with
  | Some val => val
  | None => 0
  end.

(** [result.CurrentDecks] for the page [currentPage]. *)
Definition CurrentDecks (allDecks : list deckData) (currentPage : Z) : list deckData :=
  let len := Z.of_nat (length allDecks) in
  let startIdx := wrapInt (currentPage * filterResultsPerPage) in
  if (startIdx <? 0) || (startIdx >=? len) then []
  else
    let endIdx := wrapInt (startIdx + filterResultsPerPage) in
    let endIdx := if endIdx >=? len then len else endIdx in
    drop (Z.to_nat startIdx) (take (Z.to_nat endIdx) allDecks).

(** The decks are in the order of their names. *)
Definition sortedByName (allDecks : list deckData) : Prop :=
  ∀ i j a b, (i < j)%nat → allDecks !! i = Some a → allDecks !! j = Some b →
             stringLess (DName (DDeck b)) (DName (DDeck a)) = false.

(** Twenty-seven results: one full page and a page of two. *)
Definition manyDecks : list deckData :=
  replicate 27 (mkDeckData (deckNamed "Elves!") user1).

(** The page number that makes the results start at the index [s]: the
    product with [filterResultsPerPage] wraps around to [s]. *)
Definition pageStartingAt (s : Z) : Z := wrapInt (10330176681277348905 * s).

(** A card that a dump line can carry: a count that [%d] prints as digits
    and [Atoi] reads back, and a name of the shape the pattern takes whole
    (a word character, then at least one more character, none a newline)
    that [TrimSpace] leaves alone. *)
Definition dumpable (c : CardEntry) : Prop :=
  0 <= Count c <= maxInt
  ∧ TrimSpace (Name c) = Name c
  ∧ ∃ w t, Name c = w :: t ∧ isWord w = true ∧ t ≠ []
           ∧ Forall (λ y, isAnyNotNL y = true) t.

(** The card as the parser gives it: no price yet, not marked. *)
Definition reparsed (c : CardEntry) : CardEntry := parsed (Count c) (Name c).

Definition bolt4 : CardEntry := parsed 4 (runes "Lightning Bolt").
Definition shock2 : CardEntry := parsed 2 (runes "Shock").
Definition boltCR : CardEntry := parsed 1 (runes "Bolt" ++ [13] ++ runes "2 Shock").

(** ** The search terms of the filter page *)

(** [strings.Split(s, " ")]; [cur] is the piece being read, reversed. *)
Fixpoint splitSpace (s : gostring) (cur : gostring) : list gostring :=
  match s with
  | x :: rest => if x =? 32 then rev cur :: splitSpace rest [] else splitSpace rest (x :: cur)
  | [] => [rev cur]
  end.

Definition Split_space (s : gostring) : list gostring := splitSpace s [].

Section Search.
Context {U : Unicode}.

(** The text a deck is searched in; [price] is [d.PriceLimit.String()]. *)
Definition haystackOf (userName deckName price : gostring) : gostring :=
  normalizeString (userName ++ runes "-" ++ deckName ++ runes "-" ++ price).

(** The loop over the search terms, with its [break]. *)
Fixpoint matchesSearchFrom (haystack : gostring) (searchTerms : list gostring) : bool :=
  match searchTerms with
  | [] => false
  | term :: rest =>
      match Index haystack (normalizeString term) with
      | Some _ => true
      | None => matchesSearchFrom haystack rest
      end
  end.

Definition matchesSearch (search haystack : gostring) : bool :=
  matchesSearchFrom haystack (Split_space search).
End Search.

(** ** The users collection *)

Inductive userError : Type :=
  | UserAlreadyExistsError
  | UserNotFoundError
  | IterError.

(** What an iterator over the users collection hands over: the documents
    it delivers before [Next] returns false, and whether [Close] then
    reports an error. *)
Record UsersIter := mkUsersIter {
  delivered : list User;
  closeFails : bool
}.

(** The iterator of a collection that can be read. *)
Definition readable (users : list User) : UsersIter := mkUsersIter users false.

Section UserDb.
Context {U : Unicode}.

(** The loop of [Db.FindUser]. *)
Fixpoint findUserFrom (docs : list User) (name : gostring) : option User :=
  match docs with
  | [] => None
  | user :: docs' =>
      if bool_decide (normalizeString name = User_NormalizedName user) then Some user
      else findUserFrom docs' name
  end.

Definition FindUser (iter : UsersIter) (name : gostring) : User + userError :=
  match findUserFrom (delivered iter) name with
  | Some user => inl user
  | None => if closeFails iter then inr IterError else inr UserNotFoundError
  end.

(** [Db.AddUser]: the result and the collection afterwards. The result of
    [c.Insert] is dropped; [insertFails] says whether it failed. *)
Definition AddUser (users : list User) (iter : UsersIter) (insertFails : bool)
    (name : gostring) (passwordHash : list Z) : (User + userError) * list User :=
  match FindUser iter name with
  | inr UserNotFoundError =>
      let user := mkUser name passwordHash [] [] in
      (inl user, if insertFails then users else users ++ [user])
  | _ => (inr UserAlreadyExistsError, users)
  end.

(** No two users have the same normalized name. *)
Definition distinctUsers (users : list User) : Prop :=
  NoDup (User_NormalizedName <$> users).
End UserDb.

(** ** The snapshot page *)

(** The error a handler returns: one made by [errors.New], or the error
    of [Db.FindUser] handed on. *)
Inductive handlerError : Type :=
  | ErrorsNew (text : gostring)
  | FromFindUser (err : userError).

Section SnapshotPage.
Context {U : Unicode}.

(** [renderSnapshotPage] on the form values [user], [deck] and [idx]: the
    snapshot that the page shows and its legality. [Returns (inl _)] is
    the error return, [Panics] an index out of range. The template data
    read first plays no part in the result. *)
Definition renderSnapshotPage (iter : UsersIter) (username deckName snapIdx : gostring)
    : outcome (handlerError + Snapshot * bool) :=
  if bool_decide (deckName = []) || bool_decide (snapIdx = [])
  then Returns (inl (ErrorsNew (runes "Deck name / snapshot index not included")))
  else
    match FindUser iter username with
    | inr err => Returns (inl (FromFindUser err))
    | inl u =>
        match FindDeck u deckName with
        | None =>
            Returns (inl (ErrorsNew (runes "Deck '" ++ deckName ++ runes "' doesn't exist!")))
        | Some deck =>
            match Decks u !! deck with
            | None => Panics
            | Some d =>
                let snaps := SnapshotsReversed d in
                match Atoi snapIdx with
                | None => Returns (inl (ErrorsNew (runes "Invalid snapshot index")))
                | Some snapIdxInt =>
                    if snapIdxInt >=? Z.of_nat (length snaps)
                    then Returns (inl (ErrorsNew (runes "Invalid snapshot index")))
                    else if snapIdxInt <? 0 then Panics
                    else
                      match snaps !! Z.to_nat snapIdxInt with
                      | None => Panics
                      | Some snapshot =>
                          match IsSnapshotLegal d snapshot with
                          | Panics => Panics
                          | Returns isLegal =>
                              match snapshot with
                              | Some s => Returns (inr (s, isLegal))
                              | None => Panics
                              end
                          end
                      end
                end
            end
        end
    end.
End SnapshotPage.

(** A user whose deck "Mono Red" has one snapshot, saved at the time 7. *)
Definition user2 : User :=
  withDecks [saveSnapshot 7 (deckNamed "Mono Red"); deckNamed "Elves!"] user1.

(** ** A scrape run, page by page *)

(** The address that [scrapePage] fetches for a link. *)
Definition pageUrl (link : gostring) : gostring := ReplaceRune link 32 [43].

(** The links to the listing pages that [scrapePrices] takes from the
    index page. *)
Definition setLinksOf {U : Unicode} (doc : Document) : list gostring :=
  fold_left setLink (anchors doc) [].

(** The listing page of [link] is fetched, and its rows are read without a
    price that fails to parse: they give [entries]. *)
Definition pageReads {U : Unicode} {W : World} (link : gostring)
    (entries : list PriceDbEntry) : Prop :=
  ∃ d, NewDocument (pageUrl link) = Some d
       ∧ scrapeCells (cells d) [] = Returns entries.

(** The link of [indexDoc] to the listing page. *)
Definition alphaLink : gostring :=
  runes "http://magic.tcgplayer.com/db/search_result.asp?set_name=Alpha".

(** * Properties *)

(** ** Order of [float64] values *)

Ltac sf_cases :=
  repeat match goal with
  | |- context [PosDef.Pos.compare_cont Eq ?a ?b] =>
      change (PosDef.Pos.compare_cont Eq a b) with (Pos.compare a b)
  | H : context [PosDef.Pos.compare_cont Eq ?a ?b] |- _ =>
      change (PosDef.Pos.compare_cont Eq a b) with (Pos.compare a b) in H
  end;
  repeat match goal with
  | H : context [Z.compare ?a ?b] |- _ => destruct (Z.compare_spec a b)
  | |- context [Z.compare ?a ?b] => destruct (Z.compare_spec a b)
  | H : context [Pos.compare ?a ?b] |- _ => destruct (Pos.compare_spec a b)
  | |- context [Pos.compare ?a ?b] => destruct (Pos.compare_spec a b)
  end;
  simpl in *; subst; try congruence; try lia.

Ltac sf_destruct a b c :=
  destruct a as [[]|[]| |[] ? ?], b as [[]|[]| |[] ? ?], c as [[]|[]| |[] ? ?];
  simpl; try congruence.

Lemma SFcompare_lt_trans (a b c : spec_float) :
  SFcompare a b = Some Lt → SFcompare b c = Some Lt → SFcompare a c = Some Lt.
Proof. sf_destruct a b c; intros H1 H2; sf_cases. Qed.

Lemma SFcompare_eq_lt (a b c : spec_float) :
  SFcompare a b = Some Eq → SFcompare b c = Some Lt → SFcompare a c = Some Lt.
Proof. sf_destruct a b c; intros H1 H2; sf_cases. Qed.

Lemma SFcompare_lt_irrefl (a : spec_float) : SFcompare a a ≠ Some Lt.
Proof. destruct a as [[]|[]| |[] ? ?]; simpl; try congruence; sf_cases. Qed.

Lemma SFltb_Lt (a b : spec_float) : SFltb a b = true ↔ SFcompare a b = Some Lt.
Proof. unfold SFltb. destruct (SFcompare a b) as [[]|]; split; congruence. Qed.

Lemma Money_lt_irrefl (a : Money) : PrimFloat.ltb a a = false.
Proof.
  rewrite FloatAxioms.ltb_spec. apply not_true_is_false.
  rewrite SFltb_Lt. apply SFcompare_lt_irrefl.
Qed.

Lemma Money_lt_trans (a b c : Money) :
  PrimFloat.ltb a b = true → PrimFloat.ltb b c = true → PrimFloat.ltb a c = true.
Proof.
  rewrite !FloatAxioms.ltb_spec, !SFltb_Lt. apply SFcompare_lt_trans.
Qed.

Lemma Money_eq_lt (a b c : Money) :
  PrimFloat.eqb a b = true → PrimFloat.ltb b c = true → PrimFloat.ltb a c = true.
Proof.
  rewrite !FloatAxioms.ltb_spec, FloatAxioms.eqb_spec, !SFltb_Lt.
  unfold SFeqb. intros H. apply SFcompare_eq_lt.
  destruct (SFcompare (Prim2SF a) (Prim2SF b)) as [[]|]; congruence.
Qed.

Lemma SFcompare_total (a b : spec_float) :
  SFcompare a a ≠ None → SFcompare b b ≠ None → SFcompare b a ≠ Some Lt →
  SFcompare a b = Some Lt ∨ SFcompare a b = Some Eq.
Proof.
  destruct a as [[]|[]| |[] ? ?], b as [[]|[]| |[] ? ?]; simpl; auto;
    try congruence; intros _ _ H; sf_cases; auto.
Qed.

(** Among prices that are numbers (not NaN), [<] and [<=] are a total order. *)
Lemma Money_not_lt_le (a b : Money) :
  PrimFloat.eqb a a = true → PrimFloat.eqb b b = true →
  PrimFloat.ltb b a = false → PrimFloat.leb a b = true.
Proof.
  rewrite !FloatAxioms.eqb_spec, FloatAxioms.ltb_spec, FloatAxioms.leb_spec.
  unfold SFeqb, SFleb. intros Ha Hb Hlt.
  destruct (SFcompare_total (Prim2SF a) (Prim2SF b)) as [->| ->]; try reflexivity.
  - destruct (SFcompare (Prim2SF a) (Prim2SF a)); congruence.
  - destruct (SFcompare (Prim2SF b) (Prim2SF b)); congruence.
  - intros Hc. apply SFltb_Lt in Hc. congruence.
Qed.

(** ** Legality of a snapshot *)

Lemma add_cards_app (ret : Money) (l1 l2 : list CardEntry) :
  add_cards (add_cards ret l1) l2 = add_cards ret (l1 ++ l2).
Proof. unfold add_cards. now rewrite fold_left_app. Qed.

(** C1. For every deck [d] and snapshot [s]: [IsSnapshotLegal] returns
    false when the commander is present and not found, or when an entry of
    the decklist or of the sideboard is not found; otherwise it returns true
    exactly when the snapshot is grandfathered or its total price is at most
    the deck's price limit. The total price is the sum, in order, of
    [PricePer * Count] over the decklist and the sideboard, plus the
    commander's price when the commander is present. *)
Theorem IsSnapshotLegal_spec (d : Deck) (s : Snapshot) :
  (IsPresent (Commander s) = true ∧ CNotFound (Commander s) = true
     ∨ (∃ c, c ∈ Decklist s ++ Sideboard s ∧ NotFound c = true)
   → IsSnapshotLegal d (Some s) = Returns false)
  ∧ (¬ (IsPresent (Commander s) = true ∧ CNotFound (Commander s) = true
        ∨ (∃ c, c ∈ Decklist s ++ Sideboard s ∧ NotFound c = true))
     → (∃ b, IsSnapshotLegal d (Some s) = Returns b)
       ∧ (IsSnapshotLegal d (Some s) = Returns true
          ↔ IsGrandfatherLegal s = true
            ∨ PrimFloat.leb (TotalPrice s) (PriceLimit d) = true))
  ∧ TotalPrice s =
      (let cards :=
         fold_left (λ ret c, PrimFloat.add ret
                               (PrimFloat.mul (PricePer c) (Money_of_int (Count c))))
           (Decklist s ++ Sideboard s) Free in
       if IsPresent (Commander s)
       then PrimFloat.add cards (CPrice (Commander s)) else cards).
Proof.
  assert (Hex : ∀ l, existsb NotFound l = true ↔ ∃ c, c ∈ l ∧ NotFound c = true).
  { intros l. rewrite existsb_exists. setoid_rewrite list_elem_of_In. reflexivity. }
  split; [|split].
  - intros [[Hp Hn]|(c & Hc & Hn)]; simpl.
    + now rewrite Hp, Hn.
    + destruct (IsPresent (Commander s) && CNotFound (Commander s)); [reflexivity|].
      apply elem_of_app in Hc as [Hc|Hc].
      * replace (existsb NotFound (Decklist s)) with true; [reflexivity|].
        symmetry. apply Hex. eauto.
      * destruct (existsb NotFound (Decklist s)); [reflexivity|].
        replace (existsb NotFound (Sideboard s)) with true; [reflexivity|].
        symmetry. apply Hex. eauto.
  - intros Hno. simpl.
    destruct (IsPresent (Commander s) && CNotFound (Commander s)) eqn:Hc.
    { exfalso. apply Hno. left. now apply andb_true_iff. }
    destruct (existsb NotFound (Decklist s)) eqn:Hd.
    { exfalso. apply Hno. right. apply Hex in Hd as (c & ? & ?).
      exists c. split; [apply elem_of_app|]; auto. }
    destruct (existsb NotFound (Sideboard s)) eqn:Hs.
    { exfalso. apply Hno. right. apply Hex in Hs as (c & ? & ?).
      exists c. split; [apply elem_of_app|]; auto. }
    split; [eauto|].
    rewrite <- orb_true_iff. split; [now inversion 1|now intros ->].
  - unfold TotalPrice. rewrite add_cards_app. reflexivity.
Qed.

(** C3. A deck with no snapshot: [CurrentPriceSnapshot] is nil, and
    [IsLegal] passes it to [IsSnapshotLegal], which reads [s.Commander]
    before its test [s != nil]: the call panics, whatever the staging area. *)
Theorem IsLegal_no_snapshots_panics
    (name : gostring) (created : Z) (limit : Money) (staging : Snapshot) :
  let d := {| DName := name; CreationDate := created; PriceLimit := limit;
              StagingArea := staging; Snapshots := [] |} in
  CurrentPriceSnapshot d = None ∧ IsLegal d = Panics ∧ IsLegal d ≠ Returns false.
Proof. simpl. repeat split. discriminate. Qed.

(** ** The current-price snapshot *)

Section CurrentPrice.
Variables (snaps : list Snapshot) (lastSnap : Snapshot) (m : nat).
Hypothesis Hlast : snaps !! m = Some lastSnap.

Lemma olderSnapshots_fold (n best : nat) (sb : Snapshot) :
  (n ≤ m)%nat → snaps !! best = Some sb →
  olderSnapshots snaps lastSnap n best =
    (fold_left cheaper
       (takeWhile (λ x, HasIdenticalCards x.2 lastSnap)
          (rev (imap pair (take n snaps))))
       (best, sb)).1.
Proof.
  revert best sb. induction n as [|i IH]; intros best sb Hn Hb.
  - reflexivity.
  - assert (Hi : (i < length snaps)%nat).
    { apply lookup_lt_Some in Hlast. lia. }
    destruct (lookup_lt_is_Some_2 snaps i Hi) as [si Hsi].
    rewrite (take_S_r _ _ _ Hsi), imap_app, rev_app_distr. simpl.
    rewrite length_take_le by lia. rewrite Nat.add_0_r.
    rewrite Hsi, Hb. simpl.
    destruct (HasIdenticalCards si lastSnap); simpl; [|reflexivity].
    unfold cheaper at 2. simpl.
    destruct (PrimFloat.ltb (TotalPrice si) (TotalPrice sb)).
    + apply IH; [lia|assumption].
    + apply IH; [lia|assumption].
Qed.

Lemma olderSnapshots_best (n best : nat) :
  (n ≤ m)%nat → bestOfRun snaps lastSnap m n best →
  ∃ k, (k ≤ n)%nat
       ∧ bestOfRun snaps lastSnap m k (olderSnapshots snaps lastSnap n best)
       ∧ runStopsAt snaps lastSnap k.
Proof.
  revert best. induction n as [|i IH]; intros best Hn Hinv.
  - exists 0%nat. split; [lia|]. split; [assumption|now left].
  - destruct Hinv as (Hr & Hid & Hmin & Htie).
    assert (Hlen : (m < length snaps)%nat) by (eapply lookup_lt_Some; eauto).
    destruct (lookup_lt_is_Some_2 snaps i) as [si Hsi]; [lia|].
    destruct (lookup_lt_is_Some_2 snaps best) as [sb Hsb]; [lia|].
    simpl. rewrite Hsi, Hsb.
    destruct (HasIdenticalCards si lastSnap) eqn:Hsame; simpl.
    2:{ exists (S i). split; [lia|]. split; [repeat split; auto; lia|].
        right. eauto. }
    destruct (PrimFloat.ltb (TotalPrice si) (TotalPrice sb)) eqn:Hlt.
    + destruct (IH i) as (k & Hk & Hbest & Hstop); [lia| |eauto with lia].
      split; [lia|]. split; [|split].
      * intros j s Hj Hs. destruct (decide (j = i)) as [->|].
        -- congruence.
        -- apply (Hid j); [lia|assumption].
      * intros j s sr Hj Hs Hsr. assert (sr = si) as -> by congruence.
        destruct (decide (j = i)) as [->|].
        -- assert (s = si) as -> by congruence. apply Money_lt_irrefl.
        -- apply not_true_is_false. intros Hc.
           pose proof (Money_lt_trans _ _ _ Hc Hlt) as Hc'.
           rewrite (Hmin j s sb) in Hc'; [discriminate|lia|assumption..].
      * intros j s sr Hj Hs Hsr. assert (sr = si) as -> by congruence.
        apply not_true_is_false. intros Hc.
        pose proof (Money_eq_lt _ _ _ Hc Hlt) as Hc'.
        rewrite (Hmin j s sb) in Hc'; [discriminate|lia|assumption..].
    + destruct (IH best) as (k & Hk & Hbest & Hstop); [lia| |eauto with lia].
      split; [lia|]. split; [|split].
      * intros j s Hj Hs. destruct (decide (j = i)) as [->|].
        -- congruence.
        -- apply (Hid j); [lia|assumption].
      * intros j s sr Hj Hs Hsr. destruct (decide (j = i)) as [->|].
        -- congruence.
        -- apply (Hmin j); [lia|assumption..].
      * intros j s sr Hj Hs Hsr. apply (Htie j); [lia|assumption..].
Qed.

Lemma bestOfRun_start : bestOfRun snaps lastSnap m m m.
Proof.
  split; [lia|]. split; [intros; lia|]. split.
  - intros j s sr Hj Hs Hsr. assert (j = m) as -> by lia.
    assert (s = sr) as -> by congruence. apply Money_lt_irrefl.
  - intros; lia.
Qed.
End CurrentPrice.

Lemma lookup_last_length {A} (l : list A) (m : nat) :
  length l = S m → ∃ x, l !! m = Some x ∧ last l = Some x ∧ l = take m l ++ [x].
Proof.
  intros Hlen. destruct (lookup_lt_is_Some_2 l m) as [x Hx]; [lia|].
  exists x. split; [assumption|].
  assert (Hl : l = take m l ++ [x]).
  { rewrite <- (take_drop m l) at 1. f_equal.
    rewrite (drop_S _ _ _ Hx). rewrite drop_ge by lia. reflexivity. }
  split; [|assumption]. rewrite Hl. apply last_snoc.
Qed.

Lemma CurrentPriceIndex_spec (d : Deck) :
  CurrentPriceIndex d = spec_currentPriceIndex (Snapshots d).
Proof.
  unfold CurrentPriceIndex, spec_currentPriceIndex.
  destruct (length (Snapshots d)) as [|m] eqn:Hlen.
  - apply nil_length_inv in Hlen. now rewrite Hlen.
  - destruct (lookup_last_length _ _ Hlen) as (x & Hx & _ & Hsplit).
    rewrite Hx. rewrite Hsplit at 2.
    rewrite imap_app, rev_app_distr. simpl.
    rewrite length_take_le by lia. rewrite Nat.add_0_r.
    f_equal. apply (olderSnapshots_fold _ _ m Hx); [lia|assumption].
Qed.

(** C2. [CurrentPriceSnapshot] is the rule of the specification: from the
    most recent snapshot backward through the strictly older ones, stopping
    at the first whose cards are not identical to the most recent one's,
    keeping the lowest total price and replacing only on a strictly lower
    one. So the result lies in the scanned run, no snapshot of the run is
    strictly cheaper (the prices being numbers, its price is at most that
    of every snapshot of the run), and no more recent snapshot of the run
    has the same price. With no snapshot the result is none. On the two example
    histories it is the $8 snapshot. *)
Theorem CurrentPriceSnapshot_spec :
  (∀ d, CurrentPriceIndex d = spec_currentPriceIndex (Snapshots d))
  ∧ (∀ d, Snapshots d = [] → CurrentPriceSnapshot d = None)
  ∧ (∀ d, Snapshots d ≠ [] →
       ∃ r best lastSnap k,
         CurrentPriceIndex d = Some r
         ∧ CurrentPriceSnapshot d = Some best
         ∧ Snapshots d !! r = Some best
         ∧ last (Snapshots d) = Some lastSnap
         ∧ bestOfRun (Snapshots d) lastSnap (length (Snapshots d) - 1) k r
         ∧ runStopsAt (Snapshots d) lastSnap k
         ∧ ((∀ s, s ∈ Snapshots d →
               PrimFloat.eqb (TotalPrice s) (TotalPrice s) = true) →
            ∀ j s, (k ≤ j ≤ length (Snapshots d) - 1)%nat →
                   Snapshots d !! j = Some s →
                   PrimFloat.leb (TotalPrice best) (TotalPrice s) = true))
  ∧ CurrentPriceIndex (deckOf history1) = Some 2%nat
  ∧ CurrentPriceSnapshot (deckOf history1) = Some (oneCard "cardsB" 8%float)
  ∧ CurrentPriceIndex (deckOf history2) = Some 1%nat
  ∧ CurrentPriceSnapshot (deckOf history2) = Some (oneCard "cardsB" 8%float).
Proof.
  split; [exact CurrentPriceIndex_spec|].
  split.
  { intros d Hd. unfold CurrentPriceSnapshot, CurrentPriceIndex. now rewrite Hd. }
  split.
  { intros d Hd. unfold CurrentPriceSnapshot, CurrentPriceIndex.
    destruct (length (Snapshots d)) as [|m] eqn:Hlen.
    { apply nil_length_inv in Hlen. contradiction. }
    destruct (lookup_last_length _ _ Hlen) as (x & Hx & Hlastx & _).
    rewrite Hx. simpl.
    destruct (olderSnapshots_best (Snapshots d) x m Hx m m) as (k & Hk & Hbest & Hstop);
      [lia|now apply bestOfRun_start|].
    set (r := olderSnapshots (Snapshots d) x m m) in *.
    destruct (lookup_lt_is_Some_2 (Snapshots d) r) as [best Hb].
    { destruct Hbest as [? _]. lia. }
    exists r, best, x, k. rewrite Hb, Nat.sub_0_r.
    do 6 (split; [first [reflexivity|assumption]|]).
    intros Hnum j s Hj Hs. destruct Hbest as (_ & _ & Hmin & _).
    apply Money_not_lt_le.
    - apply Hnum. eapply list_elem_of_lookup_2; eassumption.
    - apply Hnum. eapply list_elem_of_lookup_2; eassumption.
    - apply (Hmin j); assumption. }
  repeat split; vm_compute; reflexivity.
Qed.


(** ** The normalizer *)

Lemma fold_left_buffer {A B} (step : list B → A → list B) (f : A → list B)
    (s : list A) (buffer : list B) :
  (∀ b c, step b c = b ++ f c) →
  fold_left step s buffer = buffer ++ flat_map f s.
Proof.
  intros Hstep. revert buffer. induction s as [|c s IH]; intros buffer; simpl.
  - now rewrite app_nil_r.
  - rewrite IH, Hstep. now rewrite <- app_assoc.
Qed.

Lemma flat_map_idem {A} (f : A → list A) (s : list A) :
  (∀ c, flat_map f (f c) = f c) → flat_map f (flat_map f s) = flat_map f s.
Proof.
  intros Hf. induction s as [|c s IH]; simpl; [reflexivity|].
  now rewrite flat_map_app, Hf, IH.
Qed.

Lemma flat_map_ext_Forall {A B} (P : A → Prop) (f g : A → list B) (s : list A) :
  (∀ c, P c → f c = g c) → Forall P s → flat_map f s = flat_map g s.
Proof.
  intros Hfg. induction 1 as [|c s Hc _ IH]; simpl; [reflexivity|].
  now rewrite Hfg, IH.
Qed.

Section NormalizerFacts.
Context {U : Unicode}.

Lemma normalizeString_flat_map (s : gostring) :
  normalizeString s = flat_map normalizeStep s.
Proof.
  unfold normalizeString. rewrite (fold_left_buffer _ normalizeStep); [reflexivity|].
  intros b c. unfold normalizeStep. destruct (c =? 36); [now rewrite app_nil_r|reflexivity].
Qed.

Lemma nameToId_flat_map (s : gostring) : nameToId s = flat_map idStep s.
Proof.
  unfold nameToId. rewrite (fold_left_buffer _ idStep); [reflexivity|].
  intros b c. unfold idStep.
  destruct (IsLetter c || IsNumber c); [reflexivity|now rewrite app_nil_r].
Qed.

Context {L : UnicodeLaws U}.

Lemma normalizeRune_fixed (c : rune) :
  c ≠ 36 → normalizeRune c ≠ 36 ∧ normalizeRune (normalizeRune c) = normalizeRune c.
Proof.
  intros Hc. unfold normalizeRune.
  destruct (IsLower c || IsNumber c) eqn:Hln.
  - split; [assumption|]. now rewrite Hln.
  - destruct (IsUpper c) eqn:Hup.
    + destruct (ToLower_upper c Hup) as [Hlow|Hsame].
      * split.
        -- intros Heq. rewrite Heq in Hlow.
           rewrite IsLower_ascii in Hlow by lia. discriminate.
        -- rewrite Hlow. reflexivity.
      * rewrite Hsame. split; [assumption|]. now rewrite Hln, Hup.
    + split; [lia|].
      rewrite IsLower_ascii, IsNumber_ascii, IsUpper_ascii by lia. reflexivity.
Qed.

Lemma normalizeStep_idem (c : rune) :
  flat_map normalizeStep (normalizeStep c) = normalizeStep c.
Proof.
  unfold normalizeStep at 2 3. destruct (c =? 36) eqn:Hc; [reflexivity|].
  apply Z.eqb_neq, normalizeRune_fixed in Hc as [Hne Hfix].
  simpl. unfold normalizeStep. apply Z.eqb_neq in Hne. now rewrite Hne, Hfix.
Qed.

Lemma idStep_idem (c : rune) : flat_map idStep (idStep c) = idStep c.
Proof.
  unfold idStep at 2 3. destruct (IsLetter c || IsNumber c) eqn:Hc; [|reflexivity].
  simpl. unfold idStep. now rewrite (ToLower_alnum c Hc), ToLower_idem.
Qed.

Lemma normalizeString_idempotent (x : gostring) :
  normalizeString (normalizeString x) = normalizeString x.
Proof.
  rewrite !normalizeString_flat_map. apply flat_map_idem, normalizeStep_idem.
Qed.

Lemma nameToId_idempotent (x : gostring) : nameToId (nameToId x) = nameToId x.
Proof. rewrite !nameToId_flat_map. apply flat_map_idem, idStep_idem. Qed.

End NormalizerFacts.

Section AsciiFacts.
Context {U : Unicode} {L : UnicodeLaws U}.

Lemma normalizeStep_ascii (c : rune) :
  isAscii c → normalizeStep c = @normalizeStep asciiTables c.
Proof.
  intros Hc. unfold normalizeStep, normalizeRune.
  rewrite IsLower_ascii, IsNumber_ascii, IsUpper_ascii, ToLower_ascii by assumption.
  reflexivity.
Qed.

Lemma idStep_ascii (c : rune) : isAscii c → idStep c = @idStep asciiTables c.
Proof.
  intros Hc. unfold idStep.
  rewrite IsLetter_ascii, IsNumber_ascii, ToLower_ascii by assumption.
  reflexivity.
Qed.

Lemma normalizeString_ascii (x : gostring) :
  Forall isAscii x → normalizeString x = @normalizeString asciiTables x.
Proof.
  intros Hx. rewrite !normalizeString_flat_map.
  now apply (flat_map_ext_Forall isAscii), Hx; apply normalizeStep_ascii.
Qed.

Lemma nameToId_ascii (x : gostring) :
  Forall isAscii x → nameToId x = @nameToId asciiTables x.
Proof.
  intros Hx. rewrite !nameToId_flat_map.
  now apply (flat_map_ext_Forall isAscii), Hx; apply idStep_ascii.
Qed.
End AsciiFacts.

Lemma runes_ascii (s : string) :
  forallb (λ r, (0 <=? r) && (r <? 128)) (runes s) = true → Forall isAscii (runes s).
Proof.
  intros H. apply Forall_forall. intros r Hr.
  rewrite forallb_forall in H. apply list_elem_of_In, H in Hr. unfold isAscii. lia.
Qed.

Lemma asciiUpper_lower (r : rune) :
  asciiUpper r = true → asciiLower (r + 32) = true ∧ asciiUpper (r + 32) = false.
Proof.
  unfold asciiUpper, asciiLower.
  intros [H1%Z.leb_le H2%Z.leb_le]%andb_true_iff. split.
  - apply andb_true_iff. split; apply Z.leb_le; lia.
  - apply andb_false_iff. right. apply Z.leb_gt. lia.
Qed.

Lemma asciiTables_laws : UnicodeLaws asciiTables.
Proof.
  split; simpl; try reflexivity.
  - intros r Hup. rewrite Hup. left. now apply asciiUpper_lower.
  - intros r. destruct (asciiUpper r) eqn:Hup; [|now rewrite Hup].
    now destruct (asciiUpper_lower r Hup) as [_ ->].
  - intros r. destruct (asciiUpper r) eqn:Hup; [|now rewrite Hup].
    destruct (asciiUpper_lower r Hup) as [-> _]. reflexivity.
Qed.

Lemma flat_map_map_Forall {A B} (P : A → Prop) (f : A → list B) (g : A → A)
    (x : list A) :
  (∀ c, P c → f (g c) = f c) → Forall P x → flat_map f (map g x) = flat_map f x.
Proof.
  intros Hfg. induction 1 as [|c x Hc _ IH]; [reflexivity|].
  cbn [map flat_map]. now rewrite IH, Hfg.
Qed.

Lemma strings_ToLower_normalize_ascii (x : gostring) :
  Forall isAscii x →
  @normalizeString asciiTables (@strings_ToLower asciiTables x)
  = @normalizeString asciiTables x.
Proof.
  intros Hx. rewrite !normalizeString_flat_map. unfold strings_ToLower.
  apply (flat_map_map_Forall isAscii); [|assumption].
  intros c Hc. unfold normalizeStep, normalizeRune; simpl.
  destruct (asciiUpper c) eqn:Hup; [|now rewrite Hup].
  destruct (asciiUpper_lower c Hup) as [Hl Hu]. rewrite Hl. simpl.
  unfold asciiUpper, asciiLower, isDigit in *.
  destruct (Z.eqb_spec (c + 32) 36), (Z.eqb_spec c 36),
    (Z.leb_spec 97 c), (Z.leb_spec 48 c), (Z.leb_spec c 57);
    simpl in *; try reflexivity; try lia; discriminate.
Qed.

Lemma strings_ToLower_nameToId_ascii (x : gostring) :
  Forall isAscii x →
  @nameToId asciiTables (@strings_ToLower asciiTables x) = @nameToId asciiTables x.
Proof.
  intros Hx. rewrite !nameToId_flat_map. unfold strings_ToLower.
  apply (flat_map_map_Forall isAscii); [|assumption].
  intros c Hc. unfold idStep; simpl.
  destruct (asciiUpper c) eqn:Hup; [|now rewrite Hup].
  destruct (asciiUpper_lower c Hup) as [Hl Hu]. rewrite Hl, Hu. simpl.
  now rewrite orb_true_r.
Qed.

Lemma strings_ToLower_ascii {U : Unicode} {L : UnicodeLaws U} (x : gostring) :
  Forall isAscii x →
  strings_ToLower x = @strings_ToLower asciiTables x
  ∧ Forall isAscii (strings_ToLower x).
Proof.
  induction 1 as [|c x Hc _ [IH1 IH2]]; simpl; [split; [reflexivity|constructor]|].
  unfold strings_ToLower in *. simpl. rewrite IH1, (ToLower_ascii c Hc).
  split; [reflexivity|]. constructor; [|now rewrite <- IH1].
  unfold isAscii, asciiUpper in *.
  destruct (Z.leb_spec 65 c), (Z.leb_spec c 90); simpl; lia.
Qed.

(** C8. Both flavors of the normalizer are idempotent; they ignore the case
    of ASCII letters, so "Island" and "ISLAND" normalize alike; and the
    price-ID flavor drops punctuation and spaces, so "Lightning Bolt" and
    "lightning-bolt" get the same ID. *)
Theorem normalize_idempotent_case_insensitive {U : Unicode} {L : UnicodeLaws U} :
  (∀ x, normalizeString (normalizeString x) = normalizeString x)
  ∧ (∀ x, nameToId (nameToId x) = nameToId x)
  ∧ (∀ x, Forall isAscii x →
       normalizeString (strings_ToLower x) = normalizeString x
       ∧ nameToId (strings_ToLower x) = nameToId x)
  ∧ normalizeString (runes "Island") = normalizeString (runes "ISLAND")
  ∧ normalizeString (runes "Island") = runes "island"
  ∧ nameToId (runes "Island") = nameToId (runes "ISLAND")
  ∧ nameToId (runes "Lightning Bolt") = nameToId (runes "lightning-bolt")
  ∧ nameToId (runes "Lightning Bolt") = runes "lightningbolt".
Proof.
  split; [exact normalizeString_idempotent|].
  split; [exact nameToId_idempotent|].
  split.
  { intros x Hx. destruct (strings_ToLower_ascii x Hx) as [Heq Hlow].
    rewrite (normalizeString_ascii _ Hlow), (nameToId_ascii _ Hlow),
      (normalizeString_ascii _ Hx), (nameToId_ascii _ Hx), Heq.
    split; [now apply strings_ToLower_normalize_ascii
           |now apply strings_ToLower_nameToId_ascii]. }
  rewrite (normalizeString_ascii (U:=U) (runes "Island")),
    (normalizeString_ascii (U:=U) (runes "ISLAND")),
    (nameToId_ascii (U:=U) (runes "Island")),
    (nameToId_ascii (U:=U) (runes "ISLAND")),
    (nameToId_ascii (U:=U) (runes "Lightning Bolt")),
    (nameToId_ascii (U:=U) (runes "lightning-bolt"))
    by (apply runes_ascii; reflexivity).
  repeat split; vm_compute; reflexivity.
Qed.

(** The statement above, at the tables cut down to ASCII. *)
Lemma normalize_idempotent_ascii :
  (∀ x, @normalizeString asciiTables (@normalizeString asciiTables x)
        = @normalizeString asciiTables x)
  ∧ @nameToId asciiTables (runes "Lightning Bolt") = runes "lightningbolt".
Proof.
  pose proof (@normalize_idempotent_case_insensitive asciiTables asciiTables_laws)
    as (H1 & _ & _ & _ & _ & _ & _ & H8).
  exact (conj H1 H8).
Defined.

(** ** Reconciliation of the observed prices *)

Lemma reconcile_snoc (es : list PriceDbEntry) (e : PriceDbEntry)
    (m : gmap gostring PriceDbEntry) :
  reconcile (es ++ [e]) m = keepLowest (reconcile es m) e.
Proof. unfold reconcile. now rewrite fold_left_app. Qed.

Ltac in_snoc :=
  apply elem_of_app;
  first [left; assumption | right; apply list_elem_of_singleton; reflexivity].

Lemma keepLowest_reconciled (m : gmap gostring PriceDbEntry)
    (es : list PriceDbEntry) (e : PriceDbEntry) :
  reconciled m es → reconciled (keepLowest m e) (es ++ [e]).
Proof.
  intros [Hmin Hall]. unfold keepLowest.
  destruct (m !! ID e) as [val|] eqn:Hval.
  - destruct (Hmin _ _ Hval) as (Hid & Hin & Hlow).
    destruct (PrimFloat.ltb (Price e) (Price val)) eqn:Hlt.
    + split.
      * intros id x Hx. destruct (decide (ID e = id)) as [<-|Hne].
        -- rewrite lookup_insert_eq in Hx. injection Hx as <-.
           split; [reflexivity|]. split; [in_snoc|].
           intros e' [He'|He']%elem_of_app Hsame.
           ++ apply not_true_is_false. intros Hc.
              pose proof (Money_lt_trans _ _ _ Hc Hlt) as Hc'.
              rewrite Hlow in Hc'; [discriminate|assumption..].
           ++ apply list_elem_of_singleton in He' as ->. apply Money_lt_irrefl.
        -- rewrite lookup_insert_ne in Hx by assumption.
           destruct (Hmin _ _ Hx) as (Hid' & Hin' & Hlow').
           split; [assumption|]. split; [in_snoc|].
           intros e' [He'|He']%elem_of_app Hsame; [now apply Hlow'|].
           apply list_elem_of_singleton in He' as ->. contradiction.
      * intros x [Hx|Hx]%elem_of_app.
        -- destruct (decide (ID e = ID x)) as [Heq|Hne].
           ++ rewrite <- Heq, lookup_insert_eq. eauto.
           ++ rewrite lookup_insert_ne by assumption. now apply Hall.
        -- apply list_elem_of_singleton in Hx as ->. rewrite lookup_insert_eq. eauto.
    + split.
      * intros id x Hx. destruct (Hmin _ _ Hx) as (Hid' & Hin' & Hlow').
        split; [assumption|]. split; [in_snoc|].
        intros e' [He'|He']%elem_of_app Hsame; [now apply Hlow'|].
        apply list_elem_of_singleton in He' as ->.
        assert (x = val) as -> by congruence. assumption.
      * intros x [Hx|Hx]%elem_of_app; [now apply Hall|].
        apply list_elem_of_singleton in Hx as ->. rewrite Hval. eauto.
  - split.
    + intros id x Hx. destruct (decide (ID e = id)) as [<-|Hne].
      * rewrite lookup_insert_eq in Hx. injection Hx as <-.
        split; [reflexivity|]. split; [in_snoc|].
        intros e' [He'|He']%elem_of_app Hsame.
        -- apply Hall in He' as [y Hy]. congruence.
        -- apply list_elem_of_singleton in He' as ->. apply Money_lt_irrefl.
      * rewrite lookup_insert_ne in Hx by assumption.
        destruct (Hmin _ _ Hx) as (Hid' & Hin' & Hlow').
        split; [assumption|]. split; [in_snoc|].
        intros e' [He'|He']%elem_of_app Hsame; [now apply Hlow'|].
        apply list_elem_of_singleton in He' as ->. contradiction.
    + intros x [Hx|Hx]%elem_of_app.
      * destruct (decide (ID e = ID x)) as [Heq|Hne].
        -- rewrite <- Heq, lookup_insert_eq. eauto.
        -- rewrite lookup_insert_ne by assumption. now apply Hall.
      * apply list_elem_of_singleton in Hx as ->. rewrite lookup_insert_eq. eauto.
Qed.

Lemma reconcile_reconciled (es : list PriceDbEntry) : reconciled (reconcile es ∅) es.
Proof.
  induction es as [|e es IH] using rev_ind.
  - split; [|intros e He; inversion He].
    intros id e He. cbn in He. rewrite lookup_empty in He. discriminate.
  - rewrite reconcile_snoc. now apply keepLowest_reconciled.
Qed.

Lemma allEntries_elem (m : gmap gostring PriceDbEntry) (e : PriceDbEntry) :
  e ∈ allEntries m ↔ ∃ id, m !! id = Some e.
Proof.
  unfold allEntries. rewrite list_elem_of_fmap. split.
  - intros ([id x] & -> & Hx%elem_of_map_to_list). eauto.
  - intros [id Hx]. exists (id, e). now rewrite elem_of_map_to_list.
Qed.

Lemma allEntries_IDs (m : gmap gostring PriceDbEntry) (es : list PriceDbEntry) :
  reconciled m es → ID <$> allEntries m = (map_to_list m).*1.
Proof.
  intros [Hmin _]. unfold allEntries. rewrite <- list_fmap_compose.
  apply list_fmap_ext. intros i [id e] Hi%list_elem_of_lookup_2%elem_of_map_to_list.
  simpl. now destruct (Hmin _ _ Hi).
Qed.

Lemma scrapeLinks_reconcile {U : Unicode} {W : World} (setLinks : list gostring)
    (m m' : gmap gostring PriceDbEntry) :
  scrapeLinks setLinks m = Returns (inr m') →
  ∃ pages, Forall2 (λ link es, scrapePage link = Returns (inr es)) setLinks pages
           ∧ m' = reconcile (concat pages) m.
Proof.
  revert m. induction setLinks as [|link setLinks IH]; intros m; simpl.
  - intros [= <-]. exists []. split; [constructor|reflexivity].
  - destruct (scrapePage link) as [[err|es]|] eqn:Hpage; try discriminate.
    intros (pages & Hpages & ->)%IH. exists (es :: pages).
    split; [now constructor|]. simpl. unfold reconcile. now rewrite fold_left_app.
Qed.

(** C5. For every sequence of observed names and prices, the reconciled
    catalog has exactly one entry for each ID observed (the price-lookup
    normalization of the name) and none for any other; each entry is one of
    the observations, so its name is the name observed with its price; and
    no observation of the same ID is strictly cheaper, so that, the prices
    being numbers, the entry's price is at most every price observed for
    its ID. A run reconciles the
    entries of all its pages, in order. The listings [(A,5); (a!,3); (b,7)]
    give exactly [a: "a!" at 3] and [b: "b" at 7]. *)
Theorem reconcile_lowest_price :
  (∀ (U : Unicode) (obs : list (gostring * Money)),
     let entries := observed <$> obs in
     let catalog := allEntries (reconcile entries ∅) in
     NoDup (ID <$> catalog)
     ∧ (∀ id, id ∈ (ID <$> catalog) ↔ id ∈ (ID <$> entries))
     ∧ (∀ e, e ∈ catalog →
          e ∈ entries
          ∧ (∀ e', e' ∈ entries → ID e' = ID e →
                   PrimFloat.ltb (Price e') (Price e) = false)
          ∧ ((∀ e', e' ∈ entries → PrimFloat.eqb (Price e') (Price e') = true) →
             ∀ e', e' ∈ entries → ID e' = ID e →
                   PrimFloat.leb (Price e) (Price e') = true)))
  ∧ (∀ (U : Unicode) (W : World) setLinks lowestPrice,
       scrapeLinks setLinks ∅ = Returns (inr lowestPrice) →
       ∃ pages,
         Forall2 (λ link es, scrapePage link = Returns (inr es)) setLinks pages
         ∧ lowestPrice = reconcile (concat pages) ∅)
  ∧ reconcile (@observed asciiTables <$> listings) ∅
    = {[ runes "a" := {| ID := runes "a"; PName := runes "a!"; Price := 3%float |};
         runes "b" := {| ID := runes "b"; PName := runes "b"; Price := 7%float |} ]}.
Proof.
  split; [|split].
  - intros U obs entries catalog.
    pose proof (reconcile_reconciled entries) as Hrec.
    pose proof Hrec as [Hmin Hall].
    split; [|split].
    + unfold catalog. rewrite (allEntries_IDs _ _ Hrec). apply NoDup_fst_map_to_list.
    + intros id. unfold catalog. rewrite !list_elem_of_fmap. split.
      * intros (e & -> & [k He]%allEntries_elem).
        destruct (Hmin _ _ He) as (_ & Hin & _). eauto.
      * intros (e & -> & [x Hx]%Hall). exists x.
        destruct (Hmin _ _ Hx) as (Hid & _ & _).
        split; [now rewrite Hid|]. apply allEntries_elem. eauto.
    + intros e [id He]%allEntries_elem.
      destruct (Hmin _ _ He) as (Hid & Hin & Hlow).
      split; [assumption|]. split.
      * intros e' He' Hsame. apply Hlow; congruence.
      * intros Hnum e' He' Hsame.
        apply Money_not_lt_le; auto. apply Hlow; congruence.
  - intros U W setLinks lowestPrice. apply scrapeLinks_reconcile.
  - vm_compute. reflexivity.
Qed.

(** ** A scrape run *)

Section ScrapeRun.
Context {U : Unicode} {W : World}.

Lemma SetScraperStats_ok (db : DbState) (s : ScraperStats) :
  statsWritable →
  SetScraperStats db s = (None, {| prices := prices db; scraperstats := [s] |}).
Proof. intros [H1 H2]. unfold SetScraperStats. now rewrite H1, H2. Qed.

Lemma scrapePrices_cases (db : DbState) :
  (NewDocument indexUrl = None
   ∧ scrapePrices db = (Returns (Some (FetchError indexUrl)), db))
  ∨ ∃ doc, NewDocument indexUrl = Some doc
    ∧ let setLinks := fold_left setLink (anchors doc) [] in
      (scrapeLinks setLinks ∅ = Panics ∧ scrapePrices db = (Panics, db))
      ∨ (∃ err, scrapeLinks setLinks ∅ = Returns (inl err)
                ∧ scrapePrices db = (Returns (Some err), db))
      ∨ (∃ lowestPrice, scrapeLinks setLinks ∅ = Returns (inr lowestPrice)
           ∧ scrapePrices db
             = (Returns (UpdateAllPrices db (allEntries lowestPrice)).1,
                (UpdateAllPrices db (allEntries lowestPrice)).2)).
Proof.
  unfold scrapePrices. change (runes "http://magic.tcgplayer.com/all_magic_sets.asp")
    with indexUrl.
  destruct (NewDocument indexUrl) as [doc|]; [right|left; auto].
  exists doc. split; [reflexivity|]. simpl.
  destruct (scrapeLinks _ ∅) as [[err|lowestPrice]|]; eauto.
  right; right. exists lowestPrice. split; [reflexivity|].
  now destruct (UpdateAllPrices _ _).
Qed.

Lemma UpdateAllPrices_ok (db : DbState) (ps : list PriceDbEntry) :
  (UpdateAllPrices db ps).1 = None →
  (UpdateAllPrices db ps).2 = {| prices := ps; scraperstats := scraperstats db |}.
Proof.
  unfold UpdateAllPrices.
  destruct (dbFails RemoveAllPrices); [discriminate|].
  destruct (dbFails InsertPrices); [discriminate|reflexivity].
Qed.

Lemma scrapeCells_panics (cs : list TdCell) (entries : list PriceDbEntry) :
  scrapeCells cs entries = Panics ↔ ∃ s, s ∈ cs ∧ scrapeCell s = Panics.
Proof.
  revert entries. induction cs as [|s cs IH]; intros entries; simpl.
  - split; [discriminate|]. intros (s & Hs & _). inversion Hs.
  - destruct (scrapeCell s) as [[e|]|] eqn:Hcell.
    + rewrite IH. split; intros (x & Hx & Hp); [exists x; split; [now right|easy]|].
      apply elem_of_cons in Hx as [->|Hx]; [congruence|eauto].
    + rewrite IH. split; intros (x & Hx & Hp); [exists x; split; [now right|easy]|].
      apply elem_of_cons in Hx as [->|Hx]; [congruence|eauto].
    + split; [|reflexivity]. intros _. exists s. split; [now left|assumption].
Qed.

Lemma scrapeCell_panics (s : TdCell) :
  scrapeCell s = Panics →
  ParseFloat (ReplaceRune (TrimRune (TrimSpace (cellText s)) 36) 44 []) = None.
Proof.
  unfold scrapeCell.
  destruct (bgcolor s); [|discriminate].
  destruct (negb _); [discriminate|].
  destruct (anchorHref s); [|discriminate].
  destruct (Index _ _); [|discriminate].
  destruct (Index _ _); [|discriminate].
  now destruct (ParseFloat _).
Qed.

Lemma scrapeLinks_panics (setLinks : list gostring) (m : gmap gostring PriceDbEntry) :
  scrapeLinks setLinks m = Panics →
  ∃ link, link ∈ setLinks ∧ scrapePage link = Panics.
Proof.
  revert m. induction setLinks as [|link setLinks IH]; intros m; simpl; [discriminate|].
  destruct (scrapePage link) as [[e|es]|] eqn:Hpage; try discriminate.
  - intros (l & Hl & Hp)%IH. exists l. split; [now right|assumption].
  - intros _. exists link. split; [now left|assumption].
Qed.

Lemma scrapePage_panics (url : gostring) :
  scrapePage url = Panics →
  ∃ price, ParseFloat price = None.
Proof.
  unfold scrapePage. destruct (NewDocument _) as [doc|]; [|discriminate].
  destruct (scrapeCells (cells doc) []) eqn:Hcells; [discriminate|].
  intros _. apply scrapeCells_panics in Hcells as (s & _ & Hs%scrapeCell_panics).
  eauto.
Qed.
Lemma UpdateAllPrices_error (db : DbState) (ps : list PriceDbEntry) (url : gostring) :
  (UpdateAllPrices db ps).1 ≠ Some (FetchError url).
Proof.
  unfold UpdateAllPrices.
  destruct (dbFails RemoveAllPrices); [discriminate|].
  destruct (dbFails InsertPrices); discriminate.
Qed.

Lemma scrapePrices_success (db db' : DbState) :
  scrapePrices db = (Returns None, db') →
  ∃ doc lowestPrice,
    NewDocument indexUrl = Some doc
    ∧ scrapeLinks (fold_left setLink (anchors doc) []) ∅ = Returns (inr lowestPrice)
    ∧ db' = {| prices := allEntries lowestPrice; scraperstats := scraperstats db |}.
Proof.
  intros Hrun.
  destruct (scrapePrices_cases db) as [[_ Hcase]|(doc & Hdoc & Hcase)];
    [congruence|].
  destruct Hcase as [[_ Hcase]|[(err & _ & Hcase)|(lowestPrice & Hlinks & Hcase)]];
    try congruence.
  rewrite Hcase in Hrun. injection Hrun as Herr <-.
  exists doc, lowestPrice. split; [assumption|]. split; [assumption|].
  now apply UpdateAllPrices_ok.
Qed.

Lemma scrapePrices_fetch_error (db : DbState) (url : gostring) (db' : DbState) :
  scrapePrices db = (Returns (Some (FetchError url)), db') → db' = db.
Proof.
  intros Hrun.
  destruct (scrapePrices_cases db) as [[_ Hcase]|(doc & Hdoc & Hcase)];
    [congruence|].
  destruct Hcase as [[_ Hcase]|[(err & _ & Hcase)|(lowestPrice & Hlinks & Hcase)]];
    try congruence.
  rewrite Hcase in Hrun. injection Hrun as Herr _.
  now apply UpdateAllPrices_error in Herr.
Qed.

Lemma scrapePrices_panics (db db' : DbState) :
  scrapePrices db = (Panics, db') → db' = db ∧ ∃ price, ParseFloat price = None.
Proof.
  intros Hrun.
  destruct (scrapePrices_cases db) as [[_ Hcase]|(doc & Hdoc & Hcase)];
    [congruence|].
  destruct Hcase as [[Hl Hcase]|[(err & _ & Hcase)|(lowestPrice & Hlinks & Hcase)]];
    try congruence.
  split; [congruence|].
  apply scrapeLinks_panics in Hl as (link & _ & Hp).
  now apply scrapePage_panics in Hp.
Qed.
End ScrapeRun.

Section ScrapeRunPages.
Context {U : Unicode} {W : World}.

Lemma scrapePage_reads (link : gostring) (entries : list PriceDbEntry) :
  scrapePage link = Returns (inr entries) ↔ pageReads link entries.
Proof.
  unfold scrapePage, pageReads. fold (pageUrl link).
  destruct (NewDocument (pageUrl link)) as [d|].
  - destruct (scrapeCells (cells d) []) as [es|] eqn:Hcells.
    + split; [intros [= <-]; eauto|]. intros (d' & [= <-] & Hes). congruence.
    + split; [discriminate|]. intros (d' & [= <-] & Hes). congruence.
  - split; [discriminate|]. intros (d' & Hd & _). discriminate.
Qed.

Lemma scrapePage_down (link : gostring) :
  NewDocument (pageUrl link) = None →
  scrapePage link = Returns (inl (FetchError (pageUrl link))).
Proof. unfold scrapePage. fold (pageUrl link). now intros ->. Qed.

Lemma scrapePage_inl (link : gostring) (err : error) :
  scrapePage link = Returns (inl err) →
  err = FetchError (pageUrl link) ∧ NewDocument (pageUrl link) = None.
Proof.
  unfold scrapePage. fold (pageUrl link).
  destruct (NewDocument (pageUrl link)) as [d|]; [|now intros [= <-]].
  now destruct (scrapeCells (cells d) []).
Qed.

Lemma scrapePage_bad (link : gostring) (d : Document) (cell : TdCell) :
  NewDocument (pageUrl link) = Some d → cell ∈ cells d → scrapeCell cell = Panics →
  scrapePage link = Panics.
Proof.
  intros Hd Hcell Hp. unfold scrapePage. fold (pageUrl link). rewrite Hd.
  now rewrite (proj2 (scrapeCells_panics (cells d) [])) by eauto.
Qed.

Lemma scrapeLinks_app (pre : list gostring) (pages : list (list PriceDbEntry))
    (rest : list gostring) (m : gmap gostring PriceDbEntry) :
  Forall2 pageReads pre pages →
  scrapeLinks (pre ++ rest) m = scrapeLinks rest (reconcile (concat pages) m).
Proof.
  intros Hpre. revert m. induction Hpre as [|link es pre pages Hlink _ IH]; intros m.
  - reflexivity.
  - cbn [app scrapeLinks concat]. rewrite (proj2 (scrapePage_reads link es) Hlink).
    rewrite IH. unfold reconcile. now rewrite fold_left_app.
Qed.

Lemma scrapeLinks_all (links : list gostring) (pages : list (list PriceDbEntry))
    (m : gmap gostring PriceDbEntry) :
  Forall2 pageReads links pages →
  scrapeLinks links m = Returns (inr (reconcile (concat pages) m)).
Proof.
  intros Hall. rewrite <- (app_nil_r links). now rewrite (scrapeLinks_app _ pages).
Qed.

Lemma scrapeLinks_pages (links : list gostring) (m m' : gmap gostring PriceDbEntry) :
  scrapeLinks links m = Returns (inr m') →
  ∃ pages, Forall2 pageReads links pages ∧ m' = reconcile (concat pages) m.
Proof.
  intros (pages & Hpages & ->)%scrapeLinks_reconcile. exists pages.
  split; [|reflexivity]. eapply Forall2_impl; [exact Hpages|].
  intros link es. apply scrapePage_reads.
Qed.

Lemma scrapeLinks_inl (links : list gostring) (m : gmap gostring PriceDbEntry)
    (err : error) :
  scrapeLinks links m = Returns (inl err) →
  ∃ link, link ∈ links ∧ err = FetchError (pageUrl link)
          ∧ NewDocument (pageUrl link) = None.
Proof.
  revert m. induction links as [|link links IH]; intros m; cbn [scrapeLinks];
    [discriminate|].
  destruct (scrapePage link) as [[e|es]|] eqn:Hpage; try discriminate.
  - intros [= <-]. apply scrapePage_inl in Hpage as [-> Hdown].
    exists link. split; [left|auto].
  - intros (l & Hl & Herr)%IH. exists l. split; [now right|assumption].
Qed.

Lemma scrapePrices_index (db : DbState) (doc : Document) :
  NewDocument indexUrl = Some doc →
  scrapePrices db
  = match scrapeLinks (setLinksOf doc) ∅ with
    | Panics => (Panics, db)
    | Returns (inl err) => (Returns (Some err), db)
    | Returns (inr lowestPrice) =>
        ((Returns (UpdateAllPrices db (allEntries lowestPrice)).1),
         (UpdateAllPrices db (allEntries lowestPrice)).2)
    end.
Proof.
  intros Hdoc. unfold scrapePrices, setLinksOf.
  change (runes "http://magic.tcgplayer.com/all_magic_sets.asp") with indexUrl.
  rewrite Hdoc. destruct (scrapeLinks _ ∅) as [[err|lowestPrice]|]; try reflexivity.
  now destruct (UpdateAllPrices _ _).
Qed.

Lemma scrapePricesPeriodic_error (db : DbState) (err : error) :
  statsWritable → scrapePrices db = (Returns (Some err), db) →
  scrapePricesPeriodic db
  = (Returns tt,
     {| prices := prices db;
        scraperstats := [ {| LastPriceUpdate := Now;
                             LastPriceUpdateError := Some err |} ] |}).
Proof.
  intros Hstats Hrun. unfold scrapePricesPeriodic. rewrite Hrun.
  now rewrite SetScraperStats_ok.
Qed.
End ScrapeRunPages.

(** C4, as the code has it. The database taking the writes of the stats
    record. A run succeeds when the index page and every listing page are
    fetched, no price on them fails to parse and the database takes the
    new catalog; a run that succeeds has fetched and read them all, and
    leaves as the catalog exactly the reconciled entries of these pages
    (in some order), whatever it held before, and the stats record
    [(now, no error)]. A run in which the fetch of the index page fails, or
    the fetch of a listing page after listing pages that were fetched and
    read, leaves the catalog as it was and the stats record
    [(now, the failure)], and returns to the scheduler; and a run returns a
    fetch failure only so. A run in which [ParseFloat] fails on the price of
    a sale row of a listing page, the pages before it fetched and read,
    panics: the catalog and the stats record stay as they were. *)
Theorem scrape_run_outcomes (U : Unicode) (W : World) (db : DbState) :
  statsWritable →
  (∀ db', scrapePrices db = (Returns None, db') →
     (∃ doc pages,
        NewDocument indexUrl = Some doc
        ∧ Forall2 pageReads (setLinksOf doc) pages
        ∧ prices db' ≡ₚ allEntries (reconcile (concat pages) ∅)
        ∧ scraperstats db' = scraperstats db)
     ∧ scrapePricesPeriodic db
       = (Returns tt,
          {| prices := prices db';
             scraperstats := [ {| LastPriceUpdate := Now;
                                  LastPriceUpdateError := None |} ] |}))
  ∧ (∀ doc pages,
       NewDocument indexUrl = Some doc →
       Forall2 pageReads (setLinksOf doc) pages →
       dbFails RemoveAllPrices = false → dbFails InsertPrices = false →
       ∃ db', scrapePrices db = (Returns None, db')
              ∧ prices db' ≡ₚ allEntries (reconcile (concat pages) ∅)
              ∧ scraperstats db' = scraperstats db)
  ∧ (NewDocument indexUrl = None →
     scrapePrices db = (Returns (Some (FetchError indexUrl)), db)
     ∧ scrapePricesPeriodic db
       = (Returns tt,
          {| prices := prices db;
             scraperstats := [ {| LastPriceUpdate := Now;
                                  LastPriceUpdateError
                                    := Some (FetchError indexUrl) |} ] |}))
  ∧ (∀ doc pre pages link post,
       NewDocument indexUrl = Some doc →
       setLinksOf doc = pre ++ link :: post →
       Forall2 pageReads pre pages →
       NewDocument (pageUrl link) = None →
       scrapePrices db = (Returns (Some (FetchError (pageUrl link))), db)
       ∧ scrapePricesPeriodic db
         = (Returns tt,
            {| prices := prices db;
               scraperstats := [ {| LastPriceUpdate := Now;
                                    LastPriceUpdateError
                                      := Some (FetchError (pageUrl link)) |} ] |}))
  ∧ (∀ url db', scrapePrices db = (Returns (Some (FetchError url)), db') →
       db' = db
       ∧ NewDocument url = None
       ∧ (url = indexUrl
          ∨ ∃ doc link, NewDocument indexUrl = Some doc ∧ link ∈ setLinksOf doc
                        ∧ url = pageUrl link)
       ∧ scrapePricesPeriodic db
         = (Returns tt,
            {| prices := prices db;
               scraperstats := [ {| LastPriceUpdate := Now;
                                    LastPriceUpdateError := Some (FetchError url) |} ] |}))
  ∧ (∀ doc pre pages link post d cell,
       NewDocument indexUrl = Some doc →
       setLinksOf doc = pre ++ link :: post →
       Forall2 pageReads pre pages →
       NewDocument (pageUrl link) = Some d → cell ∈ cells d →
       scrapeCell cell = Panics →
       scrapePrices db = (Panics, db) ∧ scrapePricesPeriodic db = (Panics, db))
  ∧ (∀ db', scrapePrices db = (Panics, db') →
       db' = db
       ∧ scrapePricesPeriodic db = (Panics, db)
       ∧ ∃ price, ParseFloat price = None).
Proof.
  intros Hstats.
  split.
  { intros db' Hrun. split.
    - destruct (scrapePrices_success _ _ Hrun) as (doc & lowestPrice & Hdoc & Hl & ->).
      apply scrapeLinks_pages in Hl as (pages & Hpages & ->).
      exists doc, pages. auto.
    - unfold scrapePricesPeriodic. rewrite Hrun. now rewrite SetScraperStats_ok. }
  split.
  { intros doc pages Hdoc Hpages Hremove Hinsert.
    rewrite (scrapePrices_index db doc Hdoc), (scrapeLinks_all _ pages) by assumption.
    unfold UpdateAllPrices. rewrite Hremove, Hinsert. cbn [fst snd].
    eexists. split; [reflexivity|]. auto. }
  split.
  { intros Hdoc.
    assert (Hrun : scrapePrices db = (Returns (Some (FetchError indexUrl)), db)).
    { destruct (scrapePrices_cases db) as [[_ Hrun]|(doc & Hdoc' & _)];
        [assumption|congruence]. }
    split; [assumption|]. now apply scrapePricesPeriodic_error. }
  split.
  { intros doc pre pages link post Hdoc Hlinks Hpre Hdown.
    assert (Hrun : scrapePrices db = (Returns (Some (FetchError (pageUrl link))), db)).
    { rewrite (scrapePrices_index db doc Hdoc), Hlinks.
      rewrite (scrapeLinks_app pre pages) by assumption.
      cbn [scrapeLinks]. now rewrite (scrapePage_down link Hdown). }
    split; [assumption|]. now apply scrapePricesPeriodic_error. }
  split.
  { intros url db' Hrun. pose proof (scrapePrices_fetch_error _ _ _ Hrun) as ->.
    split; [reflexivity|].
    assert (Hwhich : NewDocument url = None
              ∧ (url = indexUrl
                 ∨ ∃ doc link, NewDocument indexUrl = Some doc
                               ∧ link ∈ setLinksOf doc ∧ url = pageUrl link)).
    { destruct (NewDocument indexUrl) as [doc|] eqn:Hdoc.
      - rewrite (scrapePrices_index db doc Hdoc) in Hrun.
        destruct (scrapeLinks (setLinksOf doc) ∅) as [[err|lowestPrice]|] eqn:Hl;
          try discriminate.
        + injection Hrun as ->.
          apply scrapeLinks_inl in Hl as (link & Hin & [= ->] & Hdown).
          split; [assumption|]. right. eauto.
        + injection Hrun as Herr _. now apply UpdateAllPrices_error in Herr.
      - destruct (scrapePrices_cases db) as [[_ Hcase]|(doc & Hdoc' & _)];
          [|congruence].
        rewrite Hcase in Hrun. injection Hrun as <-. auto. }
    destruct Hwhich as [Hdown Hwhich]. split; [assumption|]. split; [assumption|].
    now apply scrapePricesPeriodic_error. }
  split.
  { intros doc pre pages link post d cell Hdoc Hlinks Hpre Hd Hcell Hp.
    assert (Hrun : scrapePrices db = (Panics, db)).
    { rewrite (scrapePrices_index db doc Hdoc), Hlinks.
      rewrite (scrapeLinks_app pre pages) by assumption.
      cbn [scrapeLinks]. now rewrite (scrapePage_bad link d cell). }
    split; [assumption|]. unfold scrapePricesPeriodic. now rewrite Hrun. }
  intros db' Hrun. destruct (scrapePrices_panics _ _ Hrun) as [-> Hparse].
  split; [reflexivity|]. split; [|assumption].
  unfold scrapePricesPeriodic. now rewrite Hrun.
Qed.

(** The site showing $800.00 for Mox Pearl: the run succeeds, the old
    catalog (Shock) is gone, the new one holds Mox Pearl and Black Lotus,
    and the stats record is new. The listing page down: the catalog is as
    it was, and the stats record holds the failure. *)
Lemma scrape_run_success_example :
  (@scrapePricesPeriodic asciiTables (siteShowing "$800.00") oldDb).1 = Returns tt
  ∧ prices (@scrapePricesPeriodic asciiTables (siteShowing "$800.00") oldDb).2
    ≡ₚ [ {| ID := runes "moxpearl"; PName := runes "Mox Pearl"; Price := 800%float |};
         {| ID := runes "blacklotus"; PName := runes "Black Lotus";
            Price := 1234.5%float |} ]
  ∧ scraperstats (@scrapePricesPeriodic asciiTables (siteShowing "$800.00") oldDb).2
    = [ {| LastPriceUpdate := 1000; LastPriceUpdateError := None |} ]
  ∧ @scrapePricesPeriodic asciiTables siteDown oldDb
    = (Returns tt,
       {| prices := prices oldDb;
          scraperstats := [ {| LastPriceUpdate := 1000;
                               LastPriceUpdateError := Some (FetchError alphaUrl) |} ] |}).
Proof.
  assert (Hstats : @statsWritable (siteShowing "$800.00")) by (split; reflexivity).
  pose proof (scrape_run_outcomes asciiTables (siteShowing "$800.00") oldDb Hstats)
    as (Hshape & Hok & _).
  destruct (Hok indexDoc
              [[ {| ID := runes "blacklotus"; PName := runes "Black Lotus";
                    Price := 1234.5%float |};
                 {| ID := runes "moxpearl"; PName := runes "Mox Pearl";
                    Price := 800%float |} ]])
    as (db' & Hrun & Hperm & _); [reflexivity| |reflexivity..|].
  { assert (Hlinks : @setLinksOf asciiTables indexDoc = [alphaLink])
      by (vm_compute; reflexivity).
    rewrite Hlinks. repeat constructor.
    exists (alphaDoc "$800.00"). split; vm_compute; reflexivity. }
  destruct (Hshape db' Hrun) as [_ Hperiodic]. rewrite Hperiodic. cbn [fst snd prices scraperstats].
  split; [reflexivity|]. split.
  { rewrite Hperm.
    assert (Hcat : @allEntries
              (@reconcile
                 (concat
                    [[ {| ID := runes "blacklotus"; PName := runes "Black Lotus";
                          Price := 1234.5%float |};
                       {| ID := runes "moxpearl"; PName := runes "Mox Pearl";
                          Price := 800%float |} ]]) ∅)
            = [ {| ID := runes "blacklotus"; PName := runes "Black Lotus";
                   Price := 1234.5%float |};
                {| ID := runes "moxpearl"; PName := runes "Mox Pearl";
                   Price := 800%float |} ]) by (vm_compute; reflexivity).
    rewrite Hcat. apply Permutation_swap. }
  split; [reflexivity|].
  assert (Hstats' : @statsWritable siteDown) by (split; reflexivity).
  pose proof (scrape_run_outcomes asciiTables siteDown oldDb Hstats')
    as (_ & _ & _ & Hdown & _).
  destruct (Hdown indexDoc [] [] alphaLink []) as [_ Hperiodic'];
    [reflexivity|vm_compute; reflexivity|constructor|vm_compute; reflexivity|].
  exact Hperiodic'.
Defined.

(** C4 as stated fails on a parse failure. The site shows "N/A" as a price:
    [ParseFloat] fails on it, the run panics instead of returning with the
    failure recorded, the stats record keeps its old time, and the panic
    leaves the scheduler's loop. *)
Lemma parse_failure_not_recorded :
  (∃ s, s ∈ cells (alphaDoc "N/A")
        ∧ @scrapeCell asciiTables (siteShowing "N/A") s = Panics)
  ∧ @scrapePricesPeriodic asciiTables (siteShowing "N/A") oldDb = (Panics, oldDb)
  ∧ scraperstats oldDb = [ {| LastPriceUpdate := 7; LastPriceUpdateError := None |} ]
  ∧ ¬ (∃ db' err,
         @scrapePricesPeriodic asciiTables (siteShowing "N/A") oldDb = (Returns tt, db')
         ∧ scraperstats db'
           = [ {| LastPriceUpdate := @Now (siteShowing "N/A");
                  LastPriceUpdateError := Some err |} ])
  ∧ @ScrapeForever_tick asciiTables (siteShowing "N/A")
      (8 + waitBetweenScrapes) oldDb = (Panics, oldDb).
Proof.
  split.
  { exists (saleCell "Mox Pearl" "N/A"). split; [|vm_compute; reflexivity].
    unfold alphaDoc. simpl. set_solver. }
  split; [vm_compute; reflexivity|].
  split; [reflexivity|].
  split; [|vm_compute; reflexivity].
  intros (db' & err & Hrun & _).
  assert (Hp : @scrapePricesPeriodic asciiTables (siteShowing "N/A") oldDb
               = (Panics, oldDb)) by (vm_compute; reflexivity).
  rewrite Hp in Hrun. discriminate.
Qed.

(** ** Matching the card-line pattern *)

Lemma take_prefix {A} (pre rest : list A) :
  take (length (pre ++ rest) - length rest) (pre ++ rest) = pre.
Proof.
  rewrite length_app. replace (length pre + length rest - length rest)%nat
    with (length pre) by lia.
  now rewrite take_app_length.
Qed.


Lemma star_greedy (p : rune → bool) (pre rest : gostring) (c : captures)
    (k : matchk) (res : gostring * captures) :
  Forall (λ x, p x = true) pre → stopsAt p rest → k rest c = Some res →
  star p (pre ++ rest) c k = Some res.
Proof.
  intros Hpre Hstop Hk. induction Hpre as [|x pre Hx _ IH]; simpl.
  - destruct rest as [|y rest]; simpl in *; [assumption|]. now rewrite Hstop.
  - now rewrite Hx, IH.
Qed.


Lemma namePart_greedy (w : rune) (t rest : gostring) (c : captures) (k : matchk)
    (res : gostring * captures) :
  isWord w = true → t ≠ [] → Forall (λ x, isAnyNotNL x = true) t →
  stopsAt isAnyNotNL rest →
  k rest (<[2%nat := w :: t]> c) = Some res →
  rmatch namePart (w :: t ++ rest) c k = Some res.
Proof.
  intros Hw Ht Hall Hstop Hk. simpl. rewrite Hw.
  destruct t as [|y t]; [contradiction|]. inversion Hall as [|? ? Hy Hall']; subst.
  simpl. rewrite Hy. apply star_greedy; [assumption..|].
  match goal with
  | |- k rest (<[_ := ?x]> c) = _ => replace x with (w :: y :: t); [assumption|]
  end.
  symmetry. apply (take_prefix (w :: y :: t) rest).
Qed.

Lemma namePart_needs_word (s : gostring) (c : captures) (k : matchk) :
  stopsAt isWord s → rmatch namePart s c k = None.
Proof.
  simpl. destruct s as [|w s]; [reflexivity|]. simpl. now intros ->.
Qed.


Lemma countPart_needs_digit (s : gostring) (c : captures) (k : matchk) :
  stopsAt isDigit s → rmatch countPart s c k = None.
Proof.
  simpl. destruct s as [|d s]; [reflexivity|]. simpl. now intros ->.
Qed.

Lemma isReSpace_not_digit (y : rune) : isReSpace y = true → isDigit y = false.
Proof.
  unfold isReSpace, isDigit. intros H.
  repeat (apply orb_true_iff in H as [H|H]); apply Z.eqb_eq in H as ->; reflexivity.
Qed.

Lemma isReSpace_not_Xx (y : rune) : isReSpace y = true → isXx y = false.
Proof.
  unfold isReSpace, isXx. intros H.
  repeat (apply orb_true_iff in H as [H|H]); apply Z.eqb_eq in H as ->; reflexivity.
Qed.

Lemma isDigit_isWord (y : rune) : isDigit y = true → isWord y = true.
Proof. unfold isWord. now intros ->. Qed.

Lemma isWord_not_ReSpace (y : rune) : isWord y = true → isReSpace y = false.
Proof.
  unfold isWord, isReSpace, isDigit. intros H.
  destruct (Z.eqb_spec y 9), (Z.eqb_spec y 10), (Z.eqb_spec y 12),
    (Z.eqb_spec y 13), (Z.eqb_spec y 32); subst; try discriminate; reflexivity.
Qed.

Lemma countPart_greedy (ds x ws rest : gostring) (c : captures) (k : matchk)
    (res : gostring * captures) :
  ds ≠ [] → Forall (λ d, isDigit d = true) ds →
  x = [] ∨ x = [120] ∨ x = [88] →
  ws ≠ [] → Forall (λ d, isReSpace d = true) ws →
  stopsAt isReSpace rest →
  k rest (<[1%nat := ds]> c) = Some res →
  rmatch countPart (ds ++ x ++ ws ++ rest) c k = Some res.
Proof.
  intros Hne Hds Hx Hwne Hws Hstop Hk.
  destruct ds as [|d ds]; [contradiction|]. inversion Hds as [|? ? Hd Hds']; subst.
  destruct ws as [|y ws]; [contradiction|]. inversion Hws as [|? ? Hy Hws']; subst.
  assert (Hspaces : ∀ c', k rest c' = Some res →
            star isReSpace (ws ++ rest) c' k = Some res).
  { intros c' Hk'. now apply star_greedy. }
  simpl. rewrite Hd. apply star_greedy; [assumption| |].
  - destruct Hx as [->|[->| ->]]; simpl; [now apply isReSpace_not_digit|reflexivity..].
  - match goal with
    | |- context [<[_ := ?t]> c] => replace t with (d :: ds)
    end.
    2:{ symmetry. apply (take_prefix (d :: ds)). }
    destruct Hx as [->|[->| ->]]; simpl.
    + rewrite (isReSpace_not_Xx y Hy), Hy. now apply Hspaces.
    + rewrite Hy, Hspaces; [reflexivity|assumption].
    + rewrite Hy, Hspaces; [reflexivity|assumption].
Qed.

Lemma cardLineRegex_eq (s : gostring) :
  matchHere cardLineRegex s =
    match rmatch countPart s ∅ (λ s' c', rmatch namePart s' c' matched) with
    | Some res => Some res
    | None => rmatch namePart s ∅ matched
    end.
Proof. reflexivity. Qed.


(** A line that is a count, an optional x, white space and a name. *)
Lemma matchHere_count (ds x ws : gostring) (w : rune) (t : gostring) :
  ds ≠ [] → Forall (λ d, isDigit d = true) ds →
  x = [] ∨ x = [120] ∨ x = [88] →
  ws ≠ [] → Forall (λ d, isReSpace d = true) ws →
  isWord w = true → t ≠ [] → Forall (λ x, isAnyNotNL x = true) t →
  matchHere cardLineRegex (ds ++ x ++ ws ++ w :: t)
  = Some ([], <[2%nat := w :: t]> (<[1%nat := ds]> ∅)).
Proof.
  intros Hne Hds Hx Hwne Hws Hw Ht Hall. rewrite cardLineRegex_eq.
  rewrite (countPart_greedy ds x ws (w :: t) ∅ _
             ([], <[2%nat := w :: t]> (<[1%nat := ds]> ∅))); auto.
  - simpl. now apply isWord_not_ReSpace.
  - rewrite <- (app_nil_r t) at 1. now apply namePart_greedy.
Qed.

(** A line that is a name, not starting with a digit. *)
Lemma matchHere_name (w : rune) (t : gostring) :
  isWord w = true → isDigit w = false → t ≠ [] →
  Forall (λ x, isAnyNotNL x = true) t →
  matchHere cardLineRegex (w :: t) = Some ([], <[2%nat := w :: t]> ∅).
Proof.
  intros Hw Hd Ht Hall. rewrite cardLineRegex_eq.
  rewrite countPart_needs_digit by exact Hd.
  rewrite <- (app_nil_r t) at 1. now apply namePart_greedy.
Qed.

Lemma matchHere_needs_word (s : gostring) :
  stopsAt isWord s → matchHere cardLineRegex s = None.
Proof.
  intros Hs. rewrite cardLineRegex_eq.
  rewrite countPart_needs_digit, namePart_needs_word; [reflexivity|assumption|].
  destruct s as [|y s]; simpl in *; [trivial|].
  destruct (isDigit y) eqn:Hd; [|reflexivity].
  apply isDigit_isWord in Hd. congruence.
Qed.

(** ** The leftmost match and all matches *)

Lemma search_eq (r : regex) (s : gostring) :
  search r s =
    match matchHere r s with
    | Some (rest, c) => Some (s, rest, c)
    | None => match s with _ :: s' => search r s' | [] => None end
    end.
Proof. destruct s; reflexivity. Qed.


Lemma search_skip (junk s : gostring) :
  Forall (λ x, isWord x = false) junk →
  search cardLineRegex (junk ++ s) = search cardLineRegex s.
Proof.
  induction 1 as [|x junk Hx _ IH]; [reflexivity|].
  simpl app. rewrite search_eq, matchHere_needs_word by exact Hx. exact IH.
Qed.

Lemma search_none (s : gostring) :
  Forall (λ x, isWord x = false) s → search cardLineRegex s = None.
Proof.
  intros Hs. rewrite <- (app_nil_r s), (search_skip s [] Hs).
  rewrite search_eq. now rewrite matchHere_needs_word.
Qed.

(** A line with one match that runs to its end. *)
Lemma FindAll_one (junk from : gostring) (c : captures) :
  Forall (λ x, isWord x = false) junk → from ≠ [] →
  matchHere cardLineRegex from = Some ([], c) →
  FindAllStringSubmatch cardLineRegex 2 (junk ++ from)
  = [[from; default [] (c !! 1%nat); default [] (c !! 2%nat)]].
Proof.
  intros Hjunk Hne Hm. unfold FindAllStringSubmatch. simpl findAll.
  rewrite search_skip, search_eq, Hm by assumption.
  rewrite bool_decide_eq_false_2 by (destruct from; [contradiction|discriminate]).
  unfold submatches. simpl. rewrite Nat.sub_0_r, firstn_all.
  f_equal. destruct (length (junk ++ from)) eqn:Hlen.
  - apply nil_length_inv, app_eq_nil in Hlen as [_ ->]. contradiction.
  - reflexivity.
Qed.

Lemma FindAll_none (s : gostring) :
  Forall (λ x, isWord x = false) s → FindAllStringSubmatch cardLineRegex 2 s = [].
Proof.
  intros Hs. unfold FindAllStringSubmatch. simpl. now rewrite search_none.
Qed.

(** ** [Atoi] on the digits of a count *)

Lemma digitsValue_nonneg (ds : gostring) (acc : Z) :
  Forall (λ d, isDigit d = true) ds → 0 <= acc →
  0 <= fold_left (λ acc d, 10 * acc + (d - 48)) ds acc.
Proof.
  intros Hds. revert acc. induction Hds as [|d ds Hd _ IH]; intros acc Hacc; simpl.
  - assumption.
  - apply IH. unfold isDigit in Hd. lia.
Qed.

Lemma Atoi_digits (ds : gostring) :
  ds ≠ [] → Forall (λ d, isDigit d = true) ds →
  Atoi ds = if digitsValue ds <=? maxInt then Some (digitsValue ds) else None.
Proof.
  intros Hne Hds. pose proof (digitsValue_nonneg ds 0 Hds (Z.le_refl 0)) as Hpos.
  destruct ds as [|d ds]; [contradiction|].
  assert (Hall : forallb isDigit (d :: ds) = true).
  { apply forallb_forall. intros y Hy. apply list_elem_of_In in Hy.
    rewrite Forall_forall in Hds. now apply Hds. }
  inversion Hds as [|? ? Hd _]; subst.
  unfold Atoi.
  assert (Hsign : splitSign (d :: ds) = (false, d :: ds)).
  { unfold isDigit in Hd. unfold splitSign.
    destruct d as [|p|p]; try reflexivity.
    do 6 (destruct p as [p|p|]; try reflexivity); discriminate. }
  rewrite Hsign, Hall. fold (digitsValue (d :: ds)) in Hpos.
  replace (minInt <=? digitsValue (d :: ds)) with true; [reflexivity|].
  symmetry. apply Z.leb_le. unfold minInt. lia.
Qed.

(** ** The decklist parser *)

Lemma submatches_2 (from rest : gostring) (c : captures) :
  submatches 2 from rest c
  = [take (length from - length rest) from;
     default [] (c !! 1%nat); default [] (c !! 2%nat)].
Proof. reflexivity. Qed.

Lemma ParseCardEntryLine_one (s whole g1 g2 : gostring) :
  FindAllStringSubmatch cardLineRegex 2 s = [[whole; g1; g2]] →
  ParseCardEntryLine s
  = Some (parsed (match Atoi g1 with Some n => n | None => 1 end) (TrimSpace g2)).
Proof. unfold ParseCardEntryLine. now intros ->. Qed.

(** A line [junk count x whitespace name]: [junk] has no word rune, [x] is
    nothing, [x] or [X], and the name starts with a word rune, has two runes
    or more and no line feed. *)
Lemma ParseCardEntryLine_count (junk ds x ws : gostring) (w : rune) (t : gostring) :
  Forall (λ y, isWord y = false) junk →
  ds ≠ [] → Forall (λ d, isDigit d = true) ds →
  x = [] ∨ x = [120] ∨ x = [88] →
  ws ≠ [] → Forall (λ d, isReSpace d = true) ws →
  isWord w = true → t ≠ [] → Forall (λ y, isAnyNotNL y = true) t →
  ParseCardEntryLine (junk ++ ds ++ x ++ ws ++ w :: t)
  = Some (parsed (if digitsValue ds <=? maxInt then digitsValue ds else 1)
                 (TrimSpace (w :: t))).
Proof.
  intros Hjunk Hne Hds Hx Hwne Hws Hw Ht Hnl.
  rewrite (ParseCardEntryLine_one _ (ds ++ x ++ ws ++ w :: t) ds (w :: t)).
  - rewrite (Atoi_digits ds Hne Hds).
    now destruct (digitsValue ds <=? maxInt).
  - rewrite (FindAll_one junk _ (<[2%nat := w :: t]> (<[1%nat := ds]> ∅)) Hjunk).
    + now rewrite lookup_insert_ne, !lookup_insert_eq by lia.
    + destruct ds; [contradiction|discriminate].
    + now apply matchHere_count.
Qed.

Lemma ParseCardEntryLine_name (junk : gostring) (w : rune) (t : gostring) :
  Forall (λ y, isWord y = false) junk →
  isWord w = true → isDigit w = false → t ≠ [] →
  Forall (λ y, isAnyNotNL y = true) t →
  ParseCardEntryLine (junk ++ w :: t) = Some (parsed 1 (TrimSpace (w :: t))).
Proof.
  intros Hjunk Hw Hd Ht Hnl.
  rewrite (ParseCardEntryLine_one _ (w :: t) [] (w :: t)); [reflexivity|].
  rewrite (FindAll_one junk _ (<[2%nat := w :: t]> ∅) Hjunk).
  - now rewrite lookup_insert_ne, lookup_insert_eq, lookup_empty by lia.
  - discriminate.
  - now apply matchHere_name.
Qed.

Lemma ParseCardEntryLine_no_word (line : gostring) :
  Forall (λ y, isWord y = false) line → ParseCardEntryLine line = None.
Proof.
  intros Hline. unfold ParseCardEntryLine. now rewrite FindAll_none.
Qed.

Lemma ParseCardEntryLines_omap (blob : gostring) :
  ParseCardEntryLines blob = omap ParseCardEntryLine (Split_CRLF blob).
Proof.
  unfold ParseCardEntryLines.
  assert (H : ∀ lines entries,
    fold_left (λ entries line, match ParseCardEntryLine line with
                               | Some entry => entries ++ [entry]
                               | None => entries
                               end) lines entries
    = entries ++ omap ParseCardEntryLine lines).
  { induction lines as [|l lines IH]; intros entries; simpl.
    - now rewrite app_nil_r.
    - rewrite IH. destruct (ParseCardEntryLine l); [|reflexivity].
      now rewrite <- app_assoc. }
  apply H.
Qed.

Lemma splitCRLF_other (x : rune) (s cur : gostring) :
  x ≠ CR → splitCRLF (x :: s) cur = splitCRLF s (x :: cur).
Proof.
  unfold CR. intros Hx. destruct x as [|p|p]; try reflexivity.
  do 4 (destruct p as [p|p|]; try reflexivity). contradiction.
Qed.

Lemma splitCRLF_line (l s cur : gostring) :
  CR ∉ l → splitCRLF (l ++ s) cur = splitCRLF s (rev l ++ cur).
Proof.
  revert cur. induction l as [|x l IH]; intros cur Hl; [reflexivity|].
  apply not_elem_of_cons in Hl as [Hx Hl].
  simpl app. rewrite splitCRLF_other by congruence.
  rewrite IH by assumption. simpl. now rewrite <- app_assoc.
Qed.

Lemma Split_CRLF_join (lines : list gostring) :
  lines ≠ [] → Forall (λ l, CR ∉ l) lines → Split_CRLF (joinCRLF lines) = lines.
Proof.
  unfold Split_CRLF. intros Hne Hlines.
  induction Hlines as [|l lines Hl Hlines IH]; [contradiction|].
  destruct lines as [|l2 lines].
  - simpl. rewrite <- (app_nil_r l) at 1. rewrite splitCRLF_line by assumption.
    simpl. now rewrite app_nil_r, rev_involutive.
  - change (joinCRLF (l :: l2 :: lines))
      with (l ++ CR :: LF :: joinCRLF (l2 :: lines)).
    rewrite splitCRLF_line by assumption.
    change (splitCRLF (CR :: LF :: joinCRLF (l2 :: lines)) (rev l ++ []))
      with (rev (rev l ++ []) :: splitCRLF (joinCRLF (l2 :: lines)) []).
    rewrite app_nil_r, rev_involutive, IH; [reflexivity|discriminate].
Qed.









(** C7 as stated fails. "4 a" is a count, white space and a name, and the
    parser gives count 1 and the name "4 a" (the pattern wants two runes or
    more in a name); "+2 Mace" after a count is taken with its count into
    the name; and a blob whose lines end in a bare line feed is one line
    for [strings.Split(s, "\r\n")], in which the pattern matches twice, so
    nothing is parsed. *)
Lemma parser_not_as_specified :
  ParseCardEntryLine (runes "4 a") = Some (parsed 1 (runes "4 a"))
  ∧ ParseCardEntryLine (runes "a") = None
  ∧ ParseCardEntryLine (runes "4 +2 Mace") = Some (parsed 1 (runes "4 +2 Mace"))
  ∧ ParseCardEntryLines (runes "4 Bolt" ++ [LF] ++ runes "2 Shock") = []
  ∧ ¬ parseLine_as_specified
  ∧ ¬ parseLines_as_specified.
Proof.
  assert (H : ParseCardEntryLine (runes "4 a") = Some (parsed 1 (runes "4 a")))
    by (vm_compute; reflexivity).
  assert (Hlf : ParseCardEntryLines (runes "4 Bolt" ++ [LF] ++ runes "2 Shock") = [])
    by (vm_compute; reflexivity).
  split; [exact H|].
  split; [vm_compute; reflexivity|].
  split; [vm_compute; reflexivity|].
  split; [exact Hlf|].
  split.
  - intros Hspec.
    destruct (Hspec (runes "4") (runes " ") (runes "a")) as (e & He & Hcount & _);
      try discriminate; try reflexivity.
    + repeat constructor.
    + repeat constructor.
    + intros Hin. apply list_elem_of_In in Hin. simpl in Hin. intuition discriminate.
    + intros Hin. apply list_elem_of_In in Hin. simpl in Hin. intuition discriminate.
    + change (runes "4" ++ runes " " ++ runes "a") with (runes "4 a") in He.
      rewrite H in He. injection He as <-. discriminate.
  - intros Hspec.
    specialize (Hspec (runes "4 Bolt" ++ [LF] ++ runes "2 Shock")).
    rewrite Hlf in Hspec. vm_compute in Hspec. discriminate.
Qed.

(** C7, as the code has it. In a line, after runes that are not word runes
    ([0-9A-Za-z_]), a count in digits, white space, and a name that starts
    with a word rune, has two runes or more and no line feed give the entry
    with that count (1 when it is beyond the largest [int]) and the trimmed
    name; such a name that does not start with a digit, with no count before
    it, gives the count 1; a line with no word rune, the empty line among
    them, gives no entry. [ParseCardEntryLines] cuts the blob at every
    [\r\n], parses each piece, keeps the order and drops the pieces that
    give no entry. *)
Theorem parser_lines_spec :
  (∀ junk ds ws w t,
     Forall (λ y, isWord y = false) junk →
     ds ≠ [] → Forall (λ d, isDigit d = true) ds →
     ws ≠ [] → Forall (λ d, isReSpace d = true) ws →
     isWord w = true → t ≠ [] → Forall (λ y, isAnyNotNL y = true) t →
     ParseCardEntryLine (junk ++ ds ++ ws ++ w :: t)
     = Some (parsed (if digitsValue ds <=? maxInt then digitsValue ds else 1)
                    (TrimSpace (w :: t))))
  ∧ (∀ junk w t,
       Forall (λ y, isWord y = false) junk →
       isWord w = true → isDigit w = false → t ≠ [] →
       Forall (λ y, isAnyNotNL y = true) t →
       ParseCardEntryLine (junk ++ w :: t) = Some (parsed 1 (TrimSpace (w :: t))))
  ∧ (∀ line, Forall (λ y, isWord y = false) line → ParseCardEntryLine line = None)
  ∧ (∀ blob, ParseCardEntryLines blob = omap ParseCardEntryLine (Split_CRLF blob))
  ∧ (∀ lines, lines ≠ [] → Forall (λ l, CR ∉ l) lines →
       Split_CRLF (joinCRLF lines) = lines)
  ∧ ParseCardEntryLine (runes "4 Lightning Bolt")
    = Some (parsed 4 (runes "Lightning Bolt"))
  ∧ ParseCardEntryLine (runes "Lightning Bolt")
    = Some (parsed 1 (runes "Lightning Bolt"))
  ∧ ParseCardEntryLine (runes "") = None
  ∧ ParseCardEntryLines
      (joinCRLF [runes "4 Lightning Bolt"; runes ""; runes "  Island "; runes "2 Shock"])
    = [parsed 4 (runes "Lightning Bolt"); parsed 1 (runes "Island");
       parsed 2 (runes "Shock")].
Proof.
  split.
  { intros junk ds ws w t Hjunk Hne Hds Hwne Hws Hw Ht Hnl.
    apply (ParseCardEntryLine_count junk ds [] ws w t); auto. }
  split; [exact ParseCardEntryLine_name|].
  split; [exact ParseCardEntryLine_no_word|].
  split; [exact ParseCardEntryLines_omap|].
  split; [exact Split_CRLF_join|].
  split; [vm_compute; reflexivity|].
  split; [vm_compute; reflexivity|].
  split; vm_compute; reflexivity.
Qed.

(** C10. Right after the count the parser takes a literal [x] or [X]: a
    line [count x whitespace name] gives the count and the name, as the
    line without the [x] does. "4x Lightning Bolt" and "4X Lightning Bolt"
    give count 4 and the name "Lightning Bolt". *)
Theorem parser_accepts_x_after_count :
  (∀ (junk ds : gostring) (x : rune) (ws : gostring) (w : rune) (t : gostring),
     Forall (λ y, isWord y = false) junk →
     ds ≠ [] → Forall (λ d, isDigit d = true) ds →
     x = 120 ∨ x = 88 →
     ws ≠ [] → Forall (λ d, isReSpace d = true) ws →
     isWord w = true → t ≠ [] → Forall (λ y, isAnyNotNL y = true) t →
     ParseCardEntryLine (junk ++ ds ++ [x] ++ ws ++ w :: t)
     = Some (parsed (if digitsValue ds <=? maxInt then digitsValue ds else 1)
                    (TrimSpace (w :: t)))
     ∧ ParseCardEntryLine (junk ++ ds ++ [x] ++ ws ++ w :: t)
       = ParseCardEntryLine (junk ++ ds ++ ws ++ w :: t))
  ∧ ParseCardEntryLine (runes "4x Lightning Bolt")
    = Some (parsed 4 (runes "Lightning Bolt"))
  ∧ ParseCardEntryLine (runes "4X Lightning Bolt")
    = Some (parsed 4 (runes "Lightning Bolt")).
Proof.
  split; [|split; vm_compute; reflexivity].
  intros junk ds x ws w t Hjunk Hne Hds Hx Hwne Hws Hw Ht Hnl.
  assert (Hwith : ParseCardEntryLine (junk ++ ds ++ [x] ++ ws ++ w :: t)
            = Some (parsed (if digitsValue ds <=? maxInt then digitsValue ds else 1)
                           (TrimSpace (w :: t)))).
  { apply (ParseCardEntryLine_count junk ds [x] ws w t); auto.
    destruct Hx as [-> | ->]; auto. }
  split; [exact Hwith|]. rewrite Hwith. symmetry.
  apply (ParseCardEntryLine_count junk ds [] ws w t); auto.
Qed.

(** ** Cloning a snapshot *)

Lemma agree_refl (h : Heap) : agree h h.
Proof. split; reflexivity. Qed.

Lemma agree_trans (h0 h1 h2 : Heap) : agree h0 h1 → agree h1 h2 → agree h0 h2.
Proof. intros [? ?] [? ?]. split; etrans; eassumption. Qed.

Lemma extends_refl (h : Heap) : extends h h.
Proof.
  split; [apply agree_refl|]. intros a elems i l Hnone Hsome. congruence.
Qed.

Lemma extends_trans (h0 h1 h2 : Heap) : extends h0 h1 → extends h1 h2 → extends h0 h2.
Proof.
  intros [Hag1 Hnew1] [Hag2 Hnew2]. split; [eapply agree_trans; eassumption|].
  intros a elems i l Hnone Hsome Hl.
  destruct (arraysH h1 !! a) as [elems1|] eqn:Ha1.
  - assert (elems1 = elems) as ->.
    { destruct Hag2 as [_ Harr]. pose proof (lookup_weaken _ _ _ _ Ha1 Harr). congruence. }
    eapply Hnew1; eassumption.
  - pose proof (Hnew2 _ _ _ _ Ha1 Hsome Hl) as Hl1.
    destruct (cardsH h0 !! l) as [c|] eqn:Hc; [|reflexivity].
    destruct Hag1 as [Hcards _]. pose proof (lookup_weaken _ _ _ _ Hc Hcards). congruence.
Qed.

Lemma deref_agree (h0 h : Heap) (p : option loc) (c : CardEntry) :
  agree h0 h → deref h0 p = Some c → deref h p = Some c.
Proof.
  intros [Hcards _]. destruct p as [l|]; [|discriminate]. simpl.
  intros Hl. eapply lookup_weaken; eassumption.
Qed.

(** What [readCards] reads, entry by entry. *)
Lemma readCards_lookup (h : Heap) (sl : slice) (cs : list CardEntry) :
  readCards h sl = Some cs ↔
  ∃ elems, arraysH h !! arr sl = Some elems
    ∧ (slen sl ≤ length elems)%nat ∧ length cs = slen sl
    ∧ ∀ j p c, (j < slen sl)%nat → elems !! j = Some p → cs !! j = Some c →
               deref h p = Some c.
Proof.
  unfold readCards. split.
  - destruct (arraysH h !! arr sl) as [elems|]; [simpl|discriminate].
    case_bool_decide as Hlen; [|discriminate].
    intros Hall%mapM_Some_1. exists elems. split; [reflexivity|]. split; [assumption|].
    apply Forall2_same_length_lookup in Hall as [Hsame Hall].
    rewrite length_take_le in Hsame by assumption. split; [lia|].
    intros j p c Hj Hp Hc. apply (Hall j); [|assumption].
    now rewrite lookup_take_lt.
  - intros (elems & -> & Hlen & Hcs & Hall). simpl.
    rewrite bool_decide_eq_true_2 by assumption.
    apply mapM_Some_2, Forall2_same_length_lookup.
    split; [rewrite length_take_le by assumption; lia|].
    intros j p c Hp Hc.
    assert (Hj : (j < slen sl)%nat).
    { apply lookup_lt_Some in Hc. lia. }
    rewrite lookup_take_lt in Hp by assumption. eapply Hall; eassumption.
Qed.

Lemma readCards_agree (h0 h : Heap) (sl : slice) (cs : list CardEntry) :
  agree h0 h → readCards h0 sl = Some cs → readCards h sl = Some cs.
Proof.
  intros Hag. rewrite !readCards_lookup.
  intros (elems & Harr & Hlen & Hcs & Hall). exists elems.
  split; [destruct Hag as [_ Ha]; eapply lookup_weaken; eassumption|].
  split; [assumption|]. split; [assumption|].
  intros j p c Hj Hp Hc. eapply deref_agree; eauto.
Qed.

Lemma snapshotOf_agree (h0 h : Heap) (s : SnapshotRef) (v : Snapshot) :
  agree h0 h → snapshotOf h0 s = Some v → snapshotOf h s = Some v.
Proof.
  intros Hag. unfold snapshotOf.
  destruct (readCards h0 (RDecklist s)) as [d|] eqn:Hd; [simpl|discriminate].
  destruct (readCards h0 (RSideboard s)) as [sb|] eqn:Hs; [simpl|discriminate].
  now rewrite (readCards_agree _ _ _ _ Hag Hd), (readCards_agree _ _ _ _ Hag Hs).
Qed.

Lemma fresh_card (h : Heap) : cardsH h !! fresh (dom (cardsH h)) = None.
Proof. apply not_elem_of_dom, is_fresh. Qed.

Lemma fresh_array (h : Heap) : arraysH h !! fresh (dom (arraysH h)) = None.
Proof. apply not_elem_of_dom, is_fresh. Qed.

Lemma lookup_outside {A} (m0 m : gmap loc A) (l : loc) :
  m0 ⊆ m → m !! l = None → m0 !! l = None.
Proof.
  intros Hsub Hl. destruct (m0 !! l) eqn:H0; [|reflexivity].
  pose proof (lookup_weaken _ _ _ _ H0 Hsub). congruence.
Qed.

(** Writing a card entry that [h0] does not have. *)
Lemma write_card_extends (h0 h : Heap) (l : loc) (c : CardEntry) :
  extends h0 h → cardsH h0 !! l = None →
  extends h0 {| cardsH := <[l := c]> (cardsH h); arraysH := arraysH h |}.
Proof.
  intros [[Hcards Harr] Hnew] Hl. split; [split|]; simpl.
  - apply map_subseteq_spec. intros l' c' Hc'.
    destruct (decide (l = l')) as [<-|Hne]; [congruence|].
    rewrite lookup_insert_ne by assumption. eapply lookup_weaken; eassumption.
  - assumption.
  - assumption.
Qed.

(** Writing an array that [h0] does not have, with pointers to entries
    that [h0] does not have. *)
Lemma write_array_extends (h0 h : Heap) (a : loc) (elems : list (option loc)) :
  extends h0 h → arraysH h0 !! a = None →
  (∀ i l, elems !! i = Some (Some l) → cardsH h0 !! l = None) →
  extends h0 {| cardsH := cardsH h; arraysH := <[a := elems]> (arraysH h) |}.
Proof.
  intros [[Hcards Harr] Hnew] Ha Helems. split; [split|]; simpl.
  - assumption.
  - apply map_subseteq_spec. intros a' e' He'.
    destruct (decide (a = a')) as [<-|Hne]; [congruence|].
    rewrite lookup_insert_ne by assumption. eapply lookup_weaken; eassumption.
  - intros a' e' i l Hnone Hsome Hl.
    destruct (decide (a = a')) as [<-|Hne].
    + rewrite lookup_insert_eq in Hsome. injection Hsome as <-. eauto.
    + rewrite lookup_insert_ne in Hsome by assumption. eauto.
Qed.

Lemma newCard_extends (h0 h : Heap) (c : CardEntry) :
  extends h0 h →
  extends h0 (newCard h c).2
  ∧ cardsH h0 !! (newCard h c).1 = None
  ∧ cardsH (newCard h c).2 !! (newCard h c).1 = Some c
  ∧ agree h (newCard h c).2.
Proof.
  intros Hext. unfold newCard. simpl.
  assert (Hl0 : cardsH h0 !! fresh (dom (cardsH h)) = None).
  { destruct Hext as [[Hcards _] _]. eapply lookup_outside; [eassumption|apply fresh_card]. }
  split; [now apply write_card_extends|]. split; [assumption|].
  split; [apply lookup_insert_eq|].
  split; simpl; [apply insert_subseteq, fresh_card|reflexivity].
Qed.

Lemma store_extends (h0 h h' : Heap) (sl : slice) (i : nat) (l : loc) :
  extends h0 h → arraysH h0 !! arr sl = None → cardsH h0 !! l = None →
  store h sl i (Some l) = Some h' →
  extends h0 h'
  ∧ cardsH h' = cardsH h
  ∧ ∃ elems, arraysH h !! arr sl = Some elems ∧ (i < slen sl)%nat ∧ (i < length elems)%nat
             ∧ arraysH h' = <[arr sl := <[i := Some l]> elems]> (arraysH h).
Proof.
  intros Hext Ha Hl. unfold store.
  destruct (arraysH h !! arr sl) as [elems|] eqn:Helems; [simpl|discriminate].
  case_bool_decide as Hi; [|discriminate]. intros [= <-]. simpl.
  split; [|split; [reflexivity|exists elems; intuition]].
  apply write_array_extends; try assumption.
  intros j l' Hj. destruct (decide (i = j)) as [<-|Hne].
  - rewrite list_lookup_insert_eq in Hj by lia. congruence.
  - rewrite list_lookup_insert_ne in Hj by assumption.
    destruct Hext as [_ Hnew]. eapply Hnew; eassumption.
Qed.

Lemma holdsUpTo_readCards (h : Heap) (sl : slice) (cs : list CardEntry) :
  length cs = slen sl → holdsUpTo h sl cs (slen sl) → readCards h sl = Some cs.
Proof.
  intros Hcs (elems & Harr & Hlen & Hall). apply readCards_lookup.
  exists elems. split; [assumption|]. split; [lia|]. split; [assumption|].
  intros j p c Hj Hp Hc. destruct (Hall j c Hj Hc) as (l & Hl & Hcard).
  assert (p = Some l) as -> by congruence. exact Hcard.
Qed.

(** The loop of [Clone] runs to its end and fills [dst] with new entries
    that have the values of [src]. *)
Lemma copyCards_ok (h0 : Heap) (src dst : slice) (cs : list CardEntry) :
  readCards h0 src = Some cs → arraysH h0 !! arr dst = None → slen dst = slen src →
  ∀ n i h, (i + n = slen src)%nat → extends h0 h → holdsUpTo h dst cs i →
    ∃ h', copyCards h src dst i n = Some h' ∧ extends h0 h'
          ∧ holdsUpTo h' dst cs (slen src).
Proof.
  intros (esrc & Hsrc & Hsrclen & Hcslen & Hread)%readCards_lookup Hdst Hslen.
  induction n as [|n IH]; intros i h Hin Hext Hholds.
  - exists h. replace (slen src) with i by lia. auto.
  - assert (Hi : (i < slen src)%nat) by lia.
    destruct (lookup_lt_is_Some_2 esrc i) as [p Hp]; [lia|].
    destruct (lookup_lt_is_Some_2 cs i) as [c Hc]; [lia|].
    pose proof (Hread i p c Hi Hp Hc) as Hderef0.
    pose proof Hext as [Hag _].
    assert (Hindex : index h src i = Some p).
    { unfold index. rewrite bool_decide_eq_true_2 by assumption.
      destruct Hag as [_ Harr]. rewrite (lookup_weaken _ _ _ _ Hsrc Harr). exact Hp. }
    pose proof (deref_agree _ _ _ _ Hag Hderef0) as Hderef.
    destruct (newCard_extends h0 h c Hext) as (Hext1 & Hl0 & Hl1 & Hag1).
    destruct Hholds as (edst & Harr & Hlen & Hfilled).
    cbn [copyCards]. rewrite Hindex. cbn [mbind option_bind]. rewrite Hderef.
    cbn [mbind option_bind].
    destruct (newCard h c) as [l h1] eqn:Hnew. cbn [fst snd] in *.
    assert (Harr1 : arraysH h1 !! arr dst = Some edst).
    { destruct Hag1 as [_ Ha]. eapply lookup_weaken; eassumption. }
    destruct (store h1 dst i (Some l)) as [h2|] eqn:Hstore.
    2:{ unfold store in Hstore. rewrite Harr1 in Hstore. simpl in Hstore.
        rewrite bool_decide_eq_true_2 in Hstore by lia. discriminate. }
    cbn [mbind option_bind].
    destruct (store_extends h0 h1 h2 dst i l Hext1 Hdst Hl0 Hstore)
      as (Hext2 & Hcards2 & elems & Helems & _ & _ & Harr2).
    assert (elems = edst) as -> by congruence.
    apply IH; [lia|assumption|].
    exists (<[i := Some l]> edst). rewrite Harr2, lookup_insert_eq, length_insert.
    split; [reflexivity|]. split; [assumption|].
    intros j c' Hj Hc'. destruct (decide (j = i)) as [->|Hne].
    + exists l. rewrite list_lookup_insert_eq by lia. rewrite Hcards2.
      split; [reflexivity|congruence].
    + destruct (Hfilled j c') as (l' & Hl' & Hcard'); [lia|assumption|].
      exists l'. rewrite list_lookup_insert_ne by congruence. rewrite Hcards2.
      split; [assumption|]. destruct Hag1 as [Hc1 _]. eapply lookup_weaken; eassumption.
Qed.

(** [make] and the loop: a new slice with the values of [src]. *)
Lemma make_copy_ok (h : Heap) (src : slice) (cs : list CardEntry) :
  readCards h src = Some cs →
  ∃ h', copyCards (make h (slen src)).2 src (make h (slen src)).1 0 (slen src) = Some h'
        ∧ extends h h'
        ∧ arraysH h !! arr (make h (slen src)).1 = None
        ∧ readCards h' (make h (slen src)).1 = Some cs.
Proof.
  intros Hread. unfold make. cbn [fst snd].
  set (a := fresh (dom (arraysH h))).
  set (dst := {| arr := a; slen := slen src |}).
  assert (Ha : arraysH h !! arr dst = None) by apply fresh_array.
  destruct (copyCards_ok h src dst cs Hread Ha eq_refl (slen src) 0%nat
              {| cardsH := cardsH h; arraysH := <[a := replicate (slen src) None]> (arraysH h) |})
    as (h' & Hcopy & Hext & Hholds).
  - lia.
  - apply write_array_extends; [apply extends_refl|exact Ha|].
    intros i l [Hl _]%lookup_replicate. discriminate.
  - exists (replicate (slen src) None). simpl. rewrite lookup_insert_eq.
    split; [reflexivity|]. split; [apply length_replicate|]. intros j c Hj. lia.
  - exists h'. split; [assumption|]. split; [assumption|]. split; [assumption|].
    apply holdsUpTo_readCards; [|assumption].
    apply readCards_lookup in Hread as (_ & _ & _ & Hlen & _). exact Hlen.
Qed.

(** [Clone] of a snapshot that can be read returns; the clone has the
    values of the original, in card lists made anew. *)
Lemma Clone_ok (h : Heap) (s : SnapshotRef) (v : Snapshot) :
  snapshotOf h s = Some v →
  ∃ s' h', Clone h s = Some (s', h')
           ∧ snapshotOf h' s' = Some v
           ∧ madeAfter h (s', h').
Proof.
  unfold snapshotOf.
  destruct (readCards h (RDecklist s)) as [d|] eqn:Hd; [simpl|discriminate].
  destruct (readCards h (RSideboard s)) as [sb|] eqn:Hs; [simpl|discriminate].
  intros [= <-].
  destruct (make_copy_ok h (RDecklist s) d Hd) as (h1 & Hcopy1 & Hext1 & Hnew1 & Hread1).
  pose proof Hext1 as [Hag1 _].
  pose proof (readCards_agree _ _ _ _ Hag1 Hs) as Hs1.
  destruct (make_copy_ok h1 (RSideboard s) sb Hs1) as (h2 & Hcopy2 & Hext2 & Hnew2 & Hread2).
  pose proof Hext2 as [Hag2 _].
  unfold Clone.
  destruct (make h (slen (RDecklist s))) as [decklist h0'] eqn:Hmake1.
  cbn [fst snd] in *. rewrite Hcopy1. cbn [mbind option_bind].
  destruct (make h1 (slen (RSideboard s))) as [sideboard h1'] eqn:Hmake2.
  cbn [fst snd] in *. rewrite Hcopy2. cbn [mbind option_bind].
  eexists _, h2. split; [reflexivity|]. split.
  - unfold snapshotOf. cbn [RDecklist RSideboard RDate RCommander RIsGrandfatherLegal].
    rewrite (readCards_agree _ _ _ _ Hag2 Hread1), Hread2. reflexivity.
  - split; [|split]; cbn [fst snd RDecklist RSideboard].
    + eapply extends_trans; eassumption.
    + assumption.
    + destruct Hag1 as [_ Harr]. eapply lookup_outside; eassumption.
Qed.

Lemma newCards_extends (h0 : Heap) (cards : list CardEntry) (h : Heap) :
  extends h0 h →
  extends h0 (newCards h cards).2
  ∧ ∀ i l, (newCards h cards).1 !! i = Some (Some l) → cardsH h0 !! l = None.
Proof.
  revert h. induction cards as [|card cards IH]; intros h Hext; cbn [newCards].
  - split; [assumption|]. intros i l Hl. cbn [fst] in Hl.
    rewrite lookup_nil in Hl. discriminate.
  - destruct (newCard_extends h0 h card Hext) as (Hext1 & Hl0 & _ & _).
    destruct (newCard h card) as [l h1]. cbn [fst snd] in *.
    destruct (IH h1 Hext1) as [Hext2 Hps].
    destruct (newCards h1 cards) as [ps h2]. cbn [fst snd] in *.
    split; [assumption|]. intros [|i] l'; simpl.
    + now intros [= <-].
    + apply Hps.
Qed.

Lemma madeAfter_getList (h0 : Heap) (w : whichList) (s : SnapshotRef) (h : Heap) :
  madeAfter h0 (s, h) → arraysH h0 !! arr (getList w s) = None.
Proof. intros (_ & Hd & Hs). now destruct w. Qed.

(** An edit of a snapshot made after [h0] leaves it made after [h0]. *)
Lemma applyEdit_madeAfter (h0 : Heap) (e : edit) (sh sh' : SnapshotRef * Heap) :
  madeAfter h0 sh → applyEdit e sh = Some sh' → madeAfter h0 sh'.
Proof.
  destruct sh as [s h]. intros Hmade.
  pose proof Hmade as (Hext & Hd & Hs). cbn [fst snd] in *.
  destruct e as [w i f|w i card|w cards]; cbn [applyEdit].
  - pose proof (madeAfter_getList h0 w s h Hmade) as Hw.
    unfold index. case_bool_decide as Hi; [|discriminate].
    destruct (arraysH h !! arr (getList w s)) as [elems|] eqn:He; [|discriminate].
    cbn [mbind option_bind].
    destruct (elems !! i) as [[l|]|] eqn:Hl; try discriminate. cbn [mbind option_bind].
    destruct (cardsH h !! l) as [card|]; [|discriminate]. cbn [mbind option_bind].
    intros [= <-]. split; [|split]; cbn [fst snd]; try assumption.
    apply write_card_extends; [assumption|].
    destruct Hext as [_ Hnew]. eapply Hnew; eassumption.
  - pose proof (madeAfter_getList h0 w s h Hmade) as Hw.
    destruct (newCard_extends h0 h card Hext) as (Hext1 & Hl0 & _ & _).
    destruct (newCard h card) as [l h1]. cbn [fst snd] in *.
    destruct (store h1 (getList w s) i (Some l)) as [h2|] eqn:Hstore; [|discriminate].
    cbn [mbind option_bind]. intros [= <-].
    destruct (store_extends h0 h1 h2 _ i l Hext1 Hw Hl0 Hstore) as (Hext2 & _).
    split; [|split]; cbn [fst snd]; assumption.
  - unfold newSlice.
    destruct (newCards_extends h0 cards h Hext) as [Hext1 Hps].
    destruct (newCards h cards) as [ps h1]. cbn [fst snd] in *.
    intros [= <-].
    assert (Ha : arraysH h0 !! fresh (dom (arraysH h1)) = None).
    { destruct Hext1 as [[_ Harr] _]. eapply lookup_outside; [eassumption|apply fresh_array]. }
    split; [|split]; cbn [fst snd].
    + now apply write_array_extends.
    + destruct w; simpl; assumption.
    + destruct w; simpl; assumption.
Qed.

Lemma applyEdits_madeAfter (h0 : Heap) (es : list edit) (sh sh' : SnapshotRef * Heap) :
  madeAfter h0 sh → applyEdits es sh = Some sh' → madeAfter h0 sh'.
Proof.
  revert sh. induction es as [|e es IH]; intros sh Hmade; simpl.
  - now intros [= <-].
  - destruct (applyEdit e sh) as [sh1|] eqn:He; [|discriminate]. simpl.
    apply IH. eapply applyEdit_madeAfter; eassumption.
Qed.

(** C9. A snapshot that can be read has a clone; the clone has the same
    cards; and after any edits of the clone's decklist and sideboard
    (entries changed in place, elements replaced, lists replaced), the
    original reads as before: the same card entries and the same total
    price. *)
Theorem Clone_then_edit_leaves_original (h : Heap) (s : SnapshotRef) (v : Snapshot) :
  snapshotOf h s = Some v →
  ∃ s' h',
    Clone h s = Some (s', h')
    ∧ snapshotOf h' s' = Some v
    ∧ ∀ es s'' h'',
        applyEdits es (s', h') = Some (s'', h'') →
        snapshotOf h'' s = Some v
        ∧ readCards h'' (RDecklist s) = readCards h (RDecklist s)
        ∧ readCards h'' (RSideboard s) = readCards h (RSideboard s)
        ∧ TotalPriceIn h'' s = TotalPriceIn h s.
Proof.
  intros Hv. destruct (Clone_ok h s v Hv) as (s' & h' & Hclone & Hv' & Hmade).
  exists s', h'. split; [assumption|]. split; [assumption|].
  intros es s'' h'' Hedits.
  pose proof (applyEdits_madeAfter h es _ _ Hmade Hedits) as ([Hag _] & _ & _).
  cbn [snd] in Hag.
  pose proof (snapshotOf_agree _ _ _ _ Hag Hv) as Hv''.
  split; [assumption|].
  assert (Htotal : TotalPriceIn h'' s = TotalPriceIn h s)
    by (unfold TotalPriceIn; now rewrite Hv'', Hv).
  unfold snapshotOf in Hv.
  destruct (readCards h (RDecklist s)) as [d|] eqn:Hd; [|discriminate].
  destruct (readCards h (RSideboard s)) as [sb|] eqn:Hs; [|discriminate].
  split; [now apply (readCards_agree h h'')|].
  split; [now apply (readCards_agree h h'')|].
  exact Htotal.
Qed.

(** On the example heap: the clone's Shock is repriced to 100 each, the
    original's total stays 1. *)
Lemma Clone_then_edit_example :
  ∃ s' h',
    Clone heap1 snap1 = Some (s', h')
    ∧ TotalPriceIn h' s' = Some 1%float
    ∧ ∃ s'' h'',
        applyEdits [EditCard TheDecklist 0 reprice] (s', h') = Some (s'', h'')
        ∧ TotalPriceIn h'' s'' = Some 400%float
        ∧ TotalPriceIn h'' snap1 = Some 1%float.
Proof.
  destruct (Clone_then_edit_leaves_original heap1 snap1
              {| Date := 0; Decklist := [shock]; Sideboard := [];
                 Commander := RCommander snap1; IsGrandfatherLegal := false |})
    as (s' & h' & Hclone & Hv' & Hedits).
  { vm_compute. reflexivity. }
  exists s', h'. split; [exact Hclone|].
  split; [unfold TotalPriceIn; rewrite Hv'; vm_compute; reflexivity|].
  assert (Hc : Clone heap1 snap1 = Some (s', h')) by exact Hclone.
  vm_compute in Hc. injection Hc as <- <-.
  eexists _, _. split; [vm_compute; reflexivity|].
  split; vm_compute; reflexivity.
Defined.

(** Without the clone the same edit, made through the snapshot itself,
    changes its total: the card entries are shared through their pointers. *)
Lemma edit_without_clone_example :
  ∃ s' h', applyEdits [EditCard TheDecklist 0 reprice] (snap1, heap1) = Some (s', h')
           ∧ TotalPriceIn heap1 snap1 = Some 1%float
           ∧ TotalPriceIn h' snap1 = Some 400%float.
Proof. eexists _, _. repeat split; vm_compute; reflexivity. Qed.

(** ** Identical cards *)

Lemma dump_cards_flat_map (cards : list CardEntry) :
  dump_cards cards = flat_map dump_line cards.
Proof. unfold dump_cards. now rewrite (fold_left_buffer _ dump_line). Qed.

Lemma dump_cards_names (cs1 cs2 : list CardEntry) :
  map (λ c, (Count c, Name c)) cs1 = map (λ c, (Count c, Name c)) cs2 →
  dump_cards cs1 = dump_cards cs2.
Proof.
  rewrite !dump_cards_flat_map. revert cs2.
  induction cs1 as [|c1 cs1 IH]; intros [|c2 cs2]; simpl; try discriminate;
    [reflexivity|].
  intros [= Hcount Hname Hrest]. unfold dump_line at 1 3.
  now rewrite Hcount, Hname, (IH cs2 Hrest).
Qed.

(** X1. [HasIdenticalCards] is an equivalence on snapshots, and it looks at
    nothing but the counts and names of the two lists and the presence and
    name of the commander: snapshots that differ only in date, prices,
    not-found marks or the grandfather flag have identical cards. *)
Theorem HasIdenticalCards_equivalence :
  (∀ s, HasIdenticalCards s s = true)
  ∧ (∀ s t, HasIdenticalCards s t = HasIdenticalCards t s)
  ∧ (∀ s t u, HasIdenticalCards s t = true → HasIdenticalCards t u = true →
              HasIdenticalCards s u = true)
  ∧ (∀ s t,
       map (λ c, (Count c, Name c)) (Decklist s)
         = map (λ c, (Count c, Name c)) (Decklist t) →
       map (λ c, (Count c, Name c)) (Sideboard s)
         = map (λ c, (Count c, Name c)) (Sideboard t) →
       IsPresent (Commander s) = IsPresent (Commander t) →
       CName (Commander s) = CName (Commander t) →
       HasIdenticalCards s t = true).
Proof.
  assert (Hiff : ∀ s t, HasIdenticalCards s t = true ↔
            DecklistDump s = DecklistDump t ∧ SideboardDump s = SideboardDump t
            ∧ IsPresent (Commander s) = IsPresent (Commander t)
            ∧ CName (Commander s) = CName (Commander t)).
  { intros s t. unfold HasIdenticalCards.
    rewrite !andb_true_iff, !bool_decide_eq_true, Bool.eqb_true_iff. tauto. }
  split; [|split; [|split]].
  - intros s. apply Hiff. auto.
  - intros s t. destruct (HasIdenticalCards s t) eqn:Hst.
    + symmetry. apply Hiff. apply Hiff in Hst. intuition congruence.
    + destruct (HasIdenticalCards t s) eqn:Hts; [|reflexivity].
      apply Hiff in Hts. rewrite <- Hst. apply Hiff. intuition congruence.
  - intros s t u Hst%Hiff Htu%Hiff. apply Hiff. intuition congruence.
  - intros s t Hd Hs Hp Hn. apply Hiff. unfold DecklistDump, SideboardDump.
    rewrite (dump_cards_names _ _ Hd), (dump_cards_names _ _ Hs). auto.
Qed.

(** ** The history, most recent first *)

Lemma reverseInto_rev (snaps : list Snapshot) (n i : nat) (done : list (option Snapshot)) :
  (i + n = length snaps)%nat →
  done = Some <$> rev (take i snaps) →
  reverseInto snaps (replicate n None ++ done) i n = Some <$> rev snaps.
Proof.
  revert i done. induction n as [|n IH]; intros i done Hlen ->.
  - simpl. rewrite Nat.add_0_r in Hlen. subst i. now rewrite firstn_all.
  - destruct (lookup_lt_is_Some_2 snaps i) as [s Hs]; [lia|].
    cbn [reverseInto]. rewrite Hs.
    replace (length snaps - 1 - i)%nat with n by lia.
    assert (Hins : <[n := Some s]> (replicate (S n) None ++ (Some <$> rev (take i snaps)))
                   = replicate n None ++ (Some <$> rev (take (S i) snaps))).
    { rewrite replicate_S_end, <- app_assoc.
      rewrite insert_app_r_alt by (rewrite length_replicate; lia).
      rewrite length_replicate, Nat.sub_diag. simpl.
      rewrite (take_S_r _ _ _ Hs), rev_app_distr. reflexivity. }
    rewrite Hins. apply IH; [lia|reflexivity].
Qed.

Lemma SnapshotsReversed_eq (d : Deck) :
  SnapshotsReversed d = Some <$> rev (Snapshots d).
Proof.
  unfold SnapshotsReversed.
  rewrite <- (app_nil_r (replicate _ _)). now apply reverseInto_rev.
Qed.

Lemma SnapshotsReversed_length (d : Deck) :
  length (SnapshotsReversed d) = length (Snapshots d).
Proof. now rewrite SnapshotsReversed_eq, length_fmap, length_rev. Qed.

Lemma SnapshotsReversed_lookup (d : Deck) (i : nat) :
  (i < length (Snapshots d))%nat →
  SnapshotsReversed d !! i = Some (Snapshots d !! (length (Snapshots d) - 1 - i)%nat).
Proof.
  intros Hi. rewrite SnapshotsReversed_eq, list_lookup_fmap, rev_alt.
  change (rev_append (Snapshots d) []) with (reverse (Snapshots d)).
  rewrite reverse_lookup by lia.
  destruct (lookup_lt_is_Some_2 (Snapshots d) (length (Snapshots d) - S i)) as [s Hs];
    [lia|].
  rewrite Hs. simpl. f_equal. rewrite <- Hs. f_equal. lia.
Qed.

(** X2. [SnapshotsReversed] is the history in reverse order: its element
    [i] is the snapshot [len-1-i], none of its elements is nil and it has
    the length of the history. *)
Theorem SnapshotsReversed_rev (d : Deck) :
  SnapshotsReversed d = Some <$> rev (Snapshots d)
  ∧ length (SnapshotsReversed d) = length (Snapshots d)
  ∧ (∀ x, x ∈ SnapshotsReversed d → x ≠ None)
  ∧ ∀ i, (i < length (Snapshots d))%nat →
         SnapshotsReversed d !! i
         = Some (Snapshots d !! (length (Snapshots d) - 1 - i)%nat).
Proof.
  split; [apply SnapshotsReversed_eq|].
  split; [apply SnapshotsReversed_length|].
  split; [|apply SnapshotsReversed_lookup].
  intros x. rewrite SnapshotsReversed_eq. intros (s & -> & _)%list_elem_of_fmap.
  discriminate.
Qed.

Lemma IsSnapshotLegal_returns (d : Deck) (s : Snapshot) :
  ∃ b, IsSnapshotLegal d (Some s) = Returns b.
Proof.
  simpl. destruct (_ && _); [eauto|].
  destruct (existsb _ _); [eauto|]. destruct (existsb _ _); eauto.
Qed.

(** ** Saving and reverting *)

Lemma cloneOf_same (s : Snapshot) : cloneOf s = s.
Proof. destruct s. unfold cloneOf. simpl. now rewrite !map_id. Qed.

Lemma TotalPrice_withDate (now : Z) (s : Snapshot) :
  TotalPrice (withDate now s) = TotalPrice s.
Proof. reflexivity. Qed.

Lemma HasIdenticalCards_withDate (now : Z) (s t : Snapshot) :
  HasIdenticalCards s (withDate now t) = HasIdenticalCards s t.
Proof. reflexivity. Qed.

Lemma HasIdenticalCards_refl (s : Snapshot) : HasIdenticalCards s s = true.
Proof.
  unfold HasIdenticalCards. rewrite !bool_decide_eq_true_2 by reflexivity.
  now rewrite Bool.eqb_reflx.
Qed.

Lemma lookup_snoc_last {A} (l : list A) (x : A) : (l ++ [x]) !! length l = Some x.
Proof. rewrite lookup_app_r by lia. now rewrite Nat.sub_diag. Qed.

(** X4. A deck with no snapshot is not saved. Right after a save the deck
    is saved, unless the total price of the staging area is not a number
    ([IsSaved] compares the totals with [==], and NaN is not equal to
    itself). Reverting right after a save gives back the staging area, with
    the date of the save. *)
Theorem IsSaved_after_save (now : Z) (d : Deck) :
  (Snapshots d = [] → IsSaved d = false)
  ∧ IsSaved (saveSnapshot now d)
    = PrimFloat.eqb (TotalPrice (StagingArea d)) (TotalPrice (StagingArea d))
  ∧ (∃ d', revertChanges (saveSnapshot now d) = Some d'
           ∧ StagingArea d' = withDate now (StagingArea d)
           ∧ Snapshots d' = Snapshots d ++ [withDate now (StagingArea d)]
           ∧ IsSaved d' = IsSaved (saveSnapshot now d))
  ∧ (Snapshots d = [] → revertChanges d = None).
Proof.
  assert (Hsaved : IsSaved (saveSnapshot now d)
            = PrimFloat.eqb (TotalPrice (StagingArea d)) (TotalPrice (StagingArea d))).
  { unfold IsSaved, saveSnapshot. cbn [Snapshots StagingArea withSnapshots].
    rewrite cloneOf_same, length_app, Nat.add_comm. cbn [length Nat.add].
    rewrite lookup_snoc_last, HasIdenticalCards_withDate, HasIdenticalCards_refl.
    reflexivity. }
  split; [now unfold IsSaved; intros ->|]. split; [exact Hsaved|]. split.
  - rewrite Hsaved.
    unfold revertChanges, saveSnapshot. cbn [Snapshots StagingArea withSnapshots].
    rewrite !cloneOf_same, length_app, Nat.add_comm. cbn [length Nat.add].
    rewrite lookup_snoc_last. eexists. split; [reflexivity|].
    cbn [StagingArea Snapshots withStagingArea withSnapshots].
    rewrite cloneOf_same. split; [reflexivity|]. split; [reflexivity|].
    unfold IsSaved.
    cbn [StagingArea Snapshots withStagingArea withSnapshots].
    rewrite length_app, Nat.add_comm. cbn [length Nat.add].
    rewrite lookup_snoc_last, HasIdenticalCards_refl. reflexivity.
  - unfold revertChanges. now intros ->.
Qed.

(** ** The current price after a save *)

Lemma CurrentPriceIndex_bound (d : Deck) (r : nat) :
  CurrentPriceIndex d = Some r → (r < length (Snapshots d))%nat.
Proof.
  unfold CurrentPriceIndex.
  destruct (length (Snapshots d)) as [|m] eqn:Hlen; [discriminate|].
  destruct (Snapshots d !! m) as [lastSnap|] eqn:Hlast; [|discriminate].
  intros [= <-].
  destruct (olderSnapshots_best (Snapshots d) lastSnap m Hlast m m)
    as (k & _ & ((_ & Hr) & _) & _); [lia|now apply bestOfRun_start|lia].
Qed.

Lemma CurrentPriceSnapshot_some (d : Deck) :
  Snapshots d ≠ [] → ∃ s, CurrentPriceSnapshot d = Some s ∧ s ∈ Snapshots d.
Proof.
  intros Hne. unfold CurrentPriceSnapshot.
  destruct (CurrentPriceIndex d) as [r|] eqn:Hr.
  - pose proof (CurrentPriceIndex_bound d r Hr) as Hlt.
    destruct (lookup_lt_is_Some_2 (Snapshots d) r Hlt) as [s Hs].
    exists s. simpl. split; [assumption|]. eapply list_elem_of_lookup_2; eassumption.
  - exfalso. unfold CurrentPriceIndex in Hr.
    destruct (length (Snapshots d)) as [|m] eqn:Hlen.
    + apply nil_length_inv in Hlen. contradiction.
    + destruct (lookup_lt_is_Some_2 (Snapshots d) m) as [x Hx]; [lia|].
      rewrite Hx in Hr. discriminate.
Qed.

Lemma IsSnapshotLegal_withDate (d : Deck) (now : Z) (s : Snapshot) :
  IsSnapshotLegal d (Some (withDate now s)) = IsSnapshotLegal d (Some s).
Proof. reflexivity. Qed.

(** X5. After a save the deck has a current-price snapshot, so [IsLegal]
    returns. When the deck had no snapshot, or the cards of the staging
    area differ from those of the snapshot saved last, the current-price
    snapshot is the one just saved, and the deck is legal exactly when the
    staging area was. *)
Theorem IsLegal_after_save (now : Z) (d : Deck) :
  (∃ s b, CurrentPriceSnapshot (saveSnapshot now d) = Some s
          ∧ IsLegal (saveSnapshot now d) = Returns b)
  ∧ ((∀ lastSnap, last (Snapshots d) = Some lastSnap →
                  HasIdenticalCards lastSnap (StagingArea d) = false) →
     CurrentPriceIndex (saveSnapshot now d) = Some (length (Snapshots d))
     ∧ CurrentPriceSnapshot (saveSnapshot now d) = Some (withDate now (StagingArea d))
     ∧ IsLegal (saveSnapshot now d) = IsStagingAreaLegal d).
Proof.
  split.
  - destruct (CurrentPriceSnapshot_some (saveSnapshot now d)) as (s & Hs & _).
    { unfold saveSnapshot. cbn [Snapshots withSnapshots].
      intros [_ Habs]%app_eq_nil. discriminate. }
    destruct (IsSnapshotLegal_returns (saveSnapshot now d) s) as [b Hb].
    exists s, b. split; [assumption|]. unfold IsLegal. now rewrite Hs.
  - intros Hdiff.
    assert (Hidx : CurrentPriceIndex (saveSnapshot now d) = Some (length (Snapshots d))).
    { rewrite CurrentPriceIndex_spec. unfold spec_currentPriceIndex, saveSnapshot.
      cbn [Snapshots StagingArea withSnapshots]. rewrite cloneOf_same.
      rewrite imap_app, rev_app_distr. cbn [imap rev app]. rewrite Nat.add_0_r.
      destruct (Snapshots d) as [|x l] eqn:Hsnaps using rev_ind.
      - reflexivity.
      - rewrite imap_app, rev_app_distr. cbn [imap rev app takeWhile].
        cbn [snd]. rewrite HasIdenticalCards_withDate.
        rewrite Hdiff by (rewrite <- Hsnaps; rewrite Hsnaps; apply last_snoc).
        reflexivity. }
    split; [exact Hidx|].
    assert (Hsnap : CurrentPriceSnapshot (saveSnapshot now d)
                    = Some (withDate now (StagingArea d))).
    { unfold CurrentPriceSnapshot. rewrite Hidx. simpl.
      rewrite cloneOf_same. apply lookup_snoc_last. }
    split; [exact Hsnap|].
    unfold IsLegal, IsStagingAreaLegal. rewrite Hsnap. reflexivity.
Qed.

(** ** Legality and the price limit *)

Lemma SFleb_cases (a b : spec_float) :
  SFleb a b = true ↔ SFcompare a b = Some Lt ∨ SFcompare a b = Some Eq.
Proof.
  unfold SFleb. destruct (SFcompare a b) as [[]|]; split;
    intros H; try discriminate; auto; destruct H; discriminate.
Qed.

Lemma SFleb_trans (a b c : spec_float) :
  SFleb a b = true → SFleb b c = true → SFleb a c = true.
Proof.
  rewrite !SFleb_cases.
  destruct a as [[]|[]| |[] ? ?], b as [[]|[]| |[] ? ?], c as [[]|[]| |[] ? ?];
    simpl; intros [H1|H1] [H2|H2]; try discriminate; auto; sf_cases; auto.
Qed.

Lemma Money_le_trans (a b c : Money) :
  PrimFloat.leb a b = true → PrimFloat.leb b c = true → PrimFloat.leb a c = true.
Proof. rewrite !FloatAxioms.leb_spec. apply SFleb_trans. Qed.

(** X6. Raising the price limit keeps a snapshot legal: a snapshot that is
    legal under a limit is legal under every limit that is at least that
    one. *)
Theorem IsSnapshotLegal_limit_monotone (d d' : Deck) (s : Snapshot) :
  IsSnapshotLegal d (Some s) = Returns true →
  PrimFloat.leb (PriceLimit d) (PriceLimit d') = true →
  IsSnapshotLegal d' (Some s) = Returns true.
Proof.
  simpl. intros Hlegal Hlimit.
  destruct (IsPresent (Commander s) && CNotFound (Commander s)); [discriminate|].
  destruct (existsb NotFound (Decklist s)); [discriminate|].
  destruct (existsb NotFound (Sideboard s)); [discriminate|].
  injection Hlegal as Hlegal. f_equal.
  apply orb_true_iff in Hlegal as [->|Hprice]; [reflexivity|].
  rewrite (Money_le_trans _ _ _ Hprice Hlimit). apply orb_true_r.
Qed.

Lemma IsSnapshotLegal_limit_example :
  IsSnapshotLegal (deckOf []) (Some (oneCard "cardsB" 8%float)) = Returns true.
Proof.
  apply (IsSnapshotLegal_limit_monotone
           {| DName := []; CreationDate := 0; PriceLimit := 10%float;
              StagingArea := oneCard "Island" 0%float; Snapshots := [] |}).
  - vm_compute. reflexivity.
  - vm_compute. reflexivity.
Defined.

(** ** The scheduler *)



(** ** The catalog after a run *)

Section CatalogFacts.
Context {U : Unicode} {W : World}.

Lemma scrapeCell_entry (s : TdCell) (e : PriceDbEntry) :
  scrapeCell s = Returns (Some e) → ID e = nameToId (PName e).
Proof.
  unfold scrapeCell.
  destruct (bgcolor s); [|discriminate].
  destruct (negb _); [discriminate|].
  destruct (anchorHref s); [|discriminate].
  destruct (Index _ _); [|discriminate].
  destruct (Index _ _); [|discriminate].
  destruct (ParseFloat _); [|discriminate].
  now intros [= <-].
Qed.

Lemma scrapeCells_entries (cs : list TdCell) (acc es : list PriceDbEntry) :
  scrapeCells cs acc = Returns es → catalogOfNames acc → catalogOfNames es.
Proof.
  revert acc. induction cs as [|s cs IH]; intros acc; simpl.
  - now intros [= <-].
  - destruct (scrapeCell s) as [[e|]|] eqn:Hcell; [| |discriminate].
    + intros Hrest Hacc. apply (IH _ Hrest). apply Forall_app. split; [assumption|].
      constructor; [|constructor]. now apply scrapeCell_entry in Hcell.
    + apply IH.
Qed.

Lemma scrapePage_entries (url : gostring) (es : list PriceDbEntry) :
  scrapePage url = Returns (inr es) → catalogOfNames es.
Proof.
  unfold scrapePage. destruct (NewDocument _) as [doc|]; [|discriminate].
  destruct (scrapeCells (cells doc) []) as [es'|] eqn:Hcells; [|discriminate].
  intros [= <-]. apply (scrapeCells_entries _ _ _ Hcells). constructor.
Qed.

Lemma NameAndPrice_unique (db : DbState) (e : PriceDbEntry) :
  NoDup (ID <$> prices db) → e ∈ prices db →
  NameAndPrice db (ID e) = Some (PName e, Price e).
Proof.
  unfold NameAndPrice. induction (prices db) as [|x ps IH]; intros Hnd He.
  - inversion He.
  - rewrite fmap_cons in Hnd. apply NoDup_cons in Hnd as [Hx Hnd].
    rewrite filter_cons. destruct (decide (ID x = ID e)) as [Heq|Hne].
    + apply elem_of_cons in He as [->|He]; [reflexivity|].
      exfalso. apply Hx. rewrite Heq. apply list_elem_of_fmap. eauto.
    + apply elem_of_cons in He as [->|He]; [contradiction|]. now apply IH.
Qed.

Lemma NameAndPrice_none (db : DbState) (id : gostring) :
  id ∉ (ID <$> prices db) → NameAndPrice db id = None.
Proof.
  unfold NameAndPrice. induction (prices db) as [|x ps IH]; intros Hid; [reflexivity|].
  rewrite fmap_cons in Hid. apply not_elem_of_cons in Hid as [Hx Hid].
  rewrite filter_cons. destruct (decide (ID x = id)); [congruence|]. now apply IH.
Qed.

(** X8. After a run that succeeds the catalog has one entry for each ID,
    the ID of every entry is the ID of its name, and every entry was read
    off one of the pages of the run. *)
Theorem catalog_after_run (db db' : DbState) :
  scrapePrices db = (Returns None, db') →
  NoDup (ID <$> prices db')
  ∧ catalogOfNames (prices db')
  ∧ ∃ doc pages,
      NewDocument indexUrl = Some doc
      ∧ Forall2 (λ link es, scrapePage link = Returns (inr es))
          (fold_left setLink (anchors doc) []) pages
      ∧ ∀ e, e ∈ prices db' → e ∈ concat pages.
Proof.
  intros (doc & lowestPrice & Hdoc & Hlinks & ->)%scrapePrices_success.
  apply scrapeLinks_reconcile in Hlinks as (pages & Hpages & ->).
  pose proof (reconcile_reconciled (concat pages)) as Hrec.
  pose proof Hrec as [Hmin _]. cbn [prices].
  assert (Hin : ∀ e, e ∈ allEntries (reconcile (concat pages) ∅) → e ∈ concat pages).
  { intros e [id He]%allEntries_elem. now destruct (Hmin _ _ He) as (_ & Hin & _). }
  assert (Hnames : catalogOfNames (concat pages)).
  { apply Forall_concat. rewrite Forall_forall. intros es Hes.
    apply list_elem_of_lookup in Hes as [i Hi].
    destruct (Forall2_lookup_r _ _ _ _ _ Hpages Hi) as (link & _ & Hpage).
    now apply scrapePage_entries in Hpage. }
  split; [|split].
  - rewrite (allEntries_IDs _ _ Hrec). apply NoDup_fst_map_to_list.
  - apply Forall_forall. intros e He%Hin.
    unfold catalogOfNames in Hnames. rewrite Forall_forall in Hnames. now apply Hnames.
  - exists doc, pages. auto.
Qed.

(** X9. After a run that succeeds, looking up the ID of a card read off
    any page of the run finds an entry, with a price that is not above the
    price read; looking up the ID of a catalog entry gives that entry's
    name and price; looking up an ID that was on no page finds nothing. *)
Theorem NameAndPrice_after_run (db db' : DbState) :
  scrapePrices db = (Returns None, db') →
  ∃ doc pages,
    NewDocument indexUrl = Some doc
    ∧ Forall2 (λ link es, scrapePage link = Returns (inr es))
        (fold_left setLink (anchors doc) []) pages
    ∧ (∀ e, e ∈ concat pages →
         ∃ n p, NameAndPrice db' (ID e) = Some (n, p)
                ∧ PrimFloat.ltb (Price e) p = false)
    ∧ (∀ e, e ∈ prices db' → NameAndPrice db' (ID e) = Some (PName e, Price e))
    ∧ (∀ id, id ∉ (ID <$> concat pages) → NameAndPrice db' id = None).
Proof.
  intros Hrun. pose proof (scrapePrices_success _ _ Hrun)
    as (doc & lowestPrice & Hdoc & Hlinks & ->).
  apply scrapeLinks_reconcile in Hlinks as (pages & Hpages & ->).
  pose proof (reconcile_reconciled (concat pages)) as Hrec.
  pose proof Hrec as [Hmin Hall].
  set (db' := {| prices := allEntries (reconcile (concat pages) ∅);
                 scraperstats := scraperstats db |}).
  assert (Hnd : NoDup (ID <$> prices db')).
  { cbn [prices db']. rewrite (allEntries_IDs _ _ Hrec). apply NoDup_fst_map_to_list. }
  exists doc, pages. split; [assumption|]. split; [assumption|]. split; [|split].
  - intros e He. destruct (Hall e He) as [x Hx].
    destruct (Hmin _ _ Hx) as (Hid & _ & Hlow).
    exists (PName x), (Price x). split; [|now apply Hlow].
    rewrite <- Hid. apply NameAndPrice_unique; [assumption|].
    apply allEntries_elem. eauto.
  - intros e He. now apply NameAndPrice_unique.
  - intros id Hid. apply NameAndPrice_none. intros Hin. apply Hid.
    apply list_elem_of_fmap in Hin as (e & -> & [k He]%allEntries_elem).
    destruct (Hmin _ _ He) as (_ & Hine & _). apply list_elem_of_fmap. eauto.
Qed.
End CatalogFacts.

Lemma scrapePrices_example :
  @scrapePrices asciiTables (siteShowing "$800.00") oldDb = (Returns None, dbAfterRun).
Proof. vm_compute. reflexivity. Qed.

Lemma catalog_after_run_example :
  NoDup (ID <$> prices dbAfterRun) ∧ @catalogOfNames asciiTables (prices dbAfterRun).
Proof.
  destruct (@catalog_after_run asciiTables (siteShowing "$800.00") oldDb dbAfterRun
              scrapePrices_example) as (Hnd & Hnames & _).
  exact (conj Hnd Hnames).
Defined.

Lemma NameAndPrice_after_run_example :
  NameAndPrice dbAfterRun (runes "moxpearl") = Some (runes "Mox Pearl", 800%float).
Proof.
  destruct (@NameAndPrice_after_run asciiTables (siteShowing "$800.00") oldDb dbAfterRun
              scrapePrices_example) as (doc & pages & _ & _ & _ & Hfound & _).
  apply (Hfound {| ID := runes "moxpearl"; PName := runes "Mox Pearl";
                   Price := 800%float |}).
  apply list_elem_of_In. vm_compute. right. left. reflexivity.
Defined.

(** ** Resolving names and prices *)

Section PricingFacts.
Context {U : Unicode}.

Lemma freeCard_Some (id : gostring) (cards : list gostring) (x : gostring) :
  freeCard id cards = Some x → id = nameToId x ∧ x ∈ cards.
Proof.
  induction cards as [|y cards IH]; simpl; [discriminate|].
  case_bool_decide as Hy.
  - intros [= <-]. split; [assumption|now left].
  - intros [Hid Hin]%IH. split; [assumption|now right].
Qed.

Lemma NameAndPrice_Some (db : DbState) (id n : gostring) (p : Money) :
  NameAndPrice db id = Some (n, p) →
  ∃ e, e ∈ prices db ∧ ID e = id ∧ PName e = n ∧ Price e = p.
Proof.
  unfold NameAndPrice.
  destruct (filter (λ e, ID e = id) (prices db)) as [|e es] eqn:Hf; [discriminate|].
  intros [= <- <-]. exists e.
  assert (He : e ∈ filter (λ e, ID e = id) (prices db)) by (rewrite Hf; now left).
  apply list_elem_of_filter in He as [Hid Hin]. auto.
Qed.

Lemma calculateNameAndPrice_again (db : DbState) (origName : gostring) :
  catalogOfNames (prices db) →
  calculateNameAndPrice db (calculateNameAndPrice db origName).1.1
  = calculateNameAndPrice db origName.
Proof.
  intros Hcat. unfold calculateNameAndPrice at 2 3.
  destruct (freeCard (nameToId origName) freeCards) as [x|] eqn:Hfree.
  - cbn [fst]. apply freeCard_Some in Hfree as Hx. destruct Hx as [Hid _].
    unfold calculateNameAndPrice. now rewrite <- Hid, Hfree.
  - destruct (NameAndPrice db (nameToId origName)) as [[n p]|] eqn:Hfound; cbn [fst].
    + apply NameAndPrice_Some in Hfound as Hentry.
      destruct Hentry as (e & He & Hid & Hn & _).
      unfold catalogOfNames in Hcat. rewrite Forall_forall in Hcat.
      pose proof (Hcat e He) as Hname. rewrite Hid, Hn in Hname.
      unfold calculateNameAndPrice. now rewrite <- Hname, Hfree, Hfound.
    + unfold calculateNameAndPrice. now rewrite Hfree, Hfound.
Qed.

Lemma CardEntry_calculate_again (db : DbState) (c : CardEntry) :
  catalogOfNames (prices db) →
  CardEntry_calculateNameAndPrice db (CardEntry_calculateNameAndPrice db c)
  = CardEntry_calculateNameAndPrice db c.
Proof.
  intros Hcat. unfold CardEntry_calculateNameAndPrice at 2 3.
  pose proof (calculateNameAndPrice_again db (Name c) Hcat) as Hagain.
  destruct (calculateNameAndPrice db (Name c)) as [[n p] found] eqn:Hcalc.
  cbn [fst] in Hagain. unfold CardEntry_calculateNameAndPrice. cbn [Name Count].
  now rewrite Hagain.
Qed.

(** X10. With a catalog as the scraper writes it (the ID of an entry is
    the ID of its name), calculating the prices of a snapshot a second time
    changes nothing: the names that the first pass put in resolve to
    themselves, with the same prices and not-found marks. *)
Theorem CalculatePrices_idempotent (db : DbState) (s : Snapshot) :
  catalogOfNames (prices db) →
  CalculatePrices db (CalculatePrices db s) = CalculatePrices db s.
Proof.
  intros Hcat. unfold CalculatePrices at 1.
  cbn [Date Decklist Sideboard Commander IsGrandfatherLegal CalculatePrices].
  rewrite !map_map.
  rewrite (map_ext _ _ (λ c, CardEntry_calculate_again db c Hcat)).
  rewrite (map_ext _ _ (λ c, CardEntry_calculate_again db c Hcat)).
  unfold CalculatePrices. f_equal.
  destruct (IsPresent (Commander s)) eqn:Hpresent.
  - pose proof (calculateNameAndPrice_again db (CName (Commander s)) Hcat) as Hagain.
    destruct (calculateNameAndPrice db (CName (Commander s))) as [[n p] found].
    cbn [fst] in Hagain. cbn [IsPresent CName]. now rewrite Hagain.
  - now rewrite Hpresent.
Qed.
End PricingFacts.

Lemma catalogOfNames_example : @catalogOfNames asciiTables (prices dbAfterRun).
Proof.
  unfold catalogOfNames.
  assert (prices dbAfterRun
          = [ {| ID := runes "blacklotus"; PName := runes "Black Lotus";
                 Price := 1234.5%float |};
              {| ID := runes "moxpearl"; PName := runes "Mox Pearl";
                 Price := 800%float |} ]) as -> by (vm_compute; reflexivity).
  constructor; [vm_compute; reflexivity|].
  constructor; [vm_compute; reflexivity|]. constructor.
Qed.

Lemma CalculatePrices_idempotent_example :
  @CalculatePrices asciiTables dbAfterRun
    (@CalculatePrices asciiTables dbAfterRun (oneCard "MOX-pearl" 0%float))
  = @CalculatePrices asciiTables dbAfterRun (oneCard "MOX-pearl" 0%float).
Proof.
  exact (@CalculatePrices_idempotent asciiTables dbAfterRun (oneCard "MOX-pearl" 0%float)
           catalogOfNames_example).
Defined.

Lemma freeCard_None {U : Unicode} (id : gostring) (cards : list gostring) :
  (∀ x, x ∈ cards → id ≠ nameToId x) → freeCard id cards = None.
Proof.
  induction cards as [|y cards IH]; intros Hno; simpl; [reflexivity|].
  rewrite bool_decide_eq_false_2 by (apply Hno; now left).
  apply IH. intros x Hx. apply Hno. now right.
Qed.

Lemma freeCards_ids {U : Unicode} {L : UnicodeLaws U} :
  nameToId (runes "Plains") = runes "plains"
  ∧ nameToId (runes "Island") = runes "island"
  ∧ nameToId (runes "Swamp") = runes "swamp"
  ∧ nameToId (runes "Mountain") = runes "mountain"
  ∧ nameToId (runes "Forest") = runes "forest".
Proof.
  rewrite (nameToId_ascii (U:=U) (runes "Plains")),
    (nameToId_ascii (U:=U) (runes "Island")),
    (nameToId_ascii (U:=U) (runes "Swamp")),
    (nameToId_ascii (U:=U) (runes "Mountain")),
    (nameToId_ascii (U:=U) (runes "Forest"))
    by (apply runes_ascii; reflexivity).
  repeat split; vm_compute; reflexivity.
Qed.

(** X11. A name whose ID is that of a basic land (Plains, Island, Swamp,
    Mountain, Forest), however it is written, resolves to the land's name,
    at no cost and found, whatever the catalog holds. Any other name
    resolves to the catalog's entry for its ID, and when there is none it
    keeps the name as written, at no cost and not found. *)
Theorem calculateNameAndPrice_cases {U : Unicode} {L : UnicodeLaws U}
    (db : DbState) (origName : gostring) :
  (∀ x, x ∈ freeCards → nameToId origName = nameToId x →
        calculateNameAndPrice db origName = (x, Free, true))
  ∧ ((∀ x, x ∈ freeCards → nameToId origName ≠ nameToId x) →
     (NameAndPrice db (nameToId origName) = None →
      calculateNameAndPrice db origName = (origName, Free, false))
     ∧ (∀ n p, NameAndPrice db (nameToId origName) = Some (n, p) →
               calculateNameAndPrice db origName = (n, p, true))).
Proof.
  destruct freeCards_ids as (Hp & Hi & Hs & Hm & Hf).
  split.
  - intros x Hx Hid. unfold calculateNameAndPrice, freeCards. cbn [freeCard].
    rewrite Hid, Hp, Hi, Hs, Hm, Hf.
    unfold freeCards in Hx.
    repeat (apply elem_of_cons in Hx as [->|Hx]);
      [rewrite ?Hp, ?Hi, ?Hs, ?Hm, ?Hf ..|inversion Hx];
      repeat first
        [ rewrite bool_decide_eq_true_2 by reflexivity
        | rewrite bool_decide_eq_false_2 by (vm_compute; discriminate) ];
      reflexivity.
  - intros Hno. unfold calculateNameAndPrice. rewrite freeCard_None by assumption.
    split; [now intros ->|]. intros n p Hfound. now rewrite Hfound.
Qed.

Lemma calculateNameAndPrice_example :
  @calculateNameAndPrice asciiTables dbAfterRun (runes "i.s.l.a.n.d")
  = (runes "Island", Free, true).
Proof.
  destruct (@calculateNameAndPrice_cases asciiTables asciiTables_laws dbAfterRun
              (runes "i.s.l.a.n.d")) as [Hfree _].
  apply Hfree; [|vm_compute; reflexivity].
  unfold freeCards. right. left.
Defined.

(** ** Decks by name *)

Lemma stringLess_irrefl (a : gostring) : stringLess a a = false.
Proof.
  induction a as [|x a IH]; [reflexivity|]. simpl.
  now rewrite Z.ltb_irrefl, Z.eqb_refl, IH.
Qed.

(** X12. The order that [AllDecks] gives to [sort.Sort] compares the name
    of deck [i] with itself: [Less] is false for all [i] and [j] in range,
    whatever the names, so the sort has no order by name to establish; and
    it panics when [i] is out of range. *)
Theorem decks_Less_never (d : list Deck) (i j : nat) :
  decks_Less d i j ≠ Returns true
  ∧ ((i < length d)%nat → decks_Less d i j = Returns false)
  ∧ ((length d ≤ i)%nat → decks_Less d i j = Panics).
Proof.
  unfold decks_Less. split; [|split].
  - destruct (d !! i); [|discriminate]. rewrite stringLess_irrefl. discriminate.
  - intros Hi. destruct (lookup_lt_is_Some_2 d i Hi) as [di ->].
    now rewrite stringLess_irrefl.
  - intros Hi. now rewrite lookup_ge_None_2.
Qed.

Section DeckFacts.
Context {U : Unicode}.

Lemma findDeckFrom_Some (decks : list Deck) (name : gostring) (i k : nat) :
  findDeckFrom decks name i = Some k →
  ∃ j d, k = (i + j)%nat ∧ decks !! j = Some d
         ∧ Deck_NormalizedName d = normalizeString name
         ∧ ∀ j' d', (j' < j)%nat → decks !! j' = Some d' →
                    Deck_NormalizedName d' ≠ normalizeString name.
Proof.
  revert i. induction decks as [|d decks IH]; intros i; simpl; [discriminate|].
  case_bool_decide as Hd.
  - intros [= <-]. exists 0%nat, d. split; [lia|]. split; [reflexivity|].
    split; [assumption|]. intros j' d' Hj. lia.
  - intros (j & x & -> & Hx & Hname & Hfirst)%IH.
    exists (S j), x. split; [lia|]. split; [assumption|]. split; [assumption|].
    intros [|j'] d' Hj; simpl.
    + now intros [= <-].
    + apply Hfirst. lia.
Qed.

Lemma findDeckFrom_None (decks : list Deck) (name : gostring) (i : nat) :
  findDeckFrom decks name i = None ↔
  ∀ d, d ∈ decks → Deck_NormalizedName d ≠ normalizeString name.
Proof.
  revert i. induction decks as [|d decks IH]; intros i; simpl.
  - split; [|reflexivity]. intros _ d Hd. inversion Hd.
  - case_bool_decide as Hd.
    + split; [discriminate|]. intros Hall. exfalso. apply (Hall d); [now left|assumption].
    + rewrite IH. split.
      * intros Hall x [->|Hx]%elem_of_cons; auto.
      * intros Hall x Hx. apply Hall. now right.
Qed.

Lemma findDeckFrom_first (decks : list Deck) (name : gostring) (i j : nat) (d : Deck) :
  decks !! j = Some d → Deck_NormalizedName d = normalizeString name →
  (∀ j' d', (j' < j)%nat → decks !! j' = Some d' →
            Deck_NormalizedName d' ≠ normalizeString name) →
  findDeckFrom decks name i = Some (i + j)%nat.
Proof.
  revert i j. induction decks as [|x decks IH]; intros i j Hj Hname Hfirst;
    [discriminate|].
  simpl. destruct j as [|j]; simpl in Hj.
  - injection Hj as ->. rewrite bool_decide_eq_true_2 by assumption.
    f_equal. lia.
  - rewrite bool_decide_eq_false_2 by (apply (Hfirst 0%nat); [lia|reflexivity]).
    rewrite (IH (S i) j Hj Hname).
    + f_equal. lia.
    + intros j' d' Hj'. apply (Hfirst (S j')). lia.
Qed.

Lemma distinct_lookup (decks : list Deck) (i j : nat) (di dj : Deck) :
  NoDup (Deck_NormalizedName <$> decks) →
  decks !! i = Some di → decks !! j = Some dj →
  Deck_NormalizedName di = Deck_NormalizedName dj → i = j.
Proof.
  intros Hnd Hi Hj Heq.
  apply (NoDup_lookup _ i j (Deck_NormalizedName di) Hnd).
  - now rewrite list_lookup_fmap, Hi.
  - now rewrite list_lookup_fmap, Hj, Heq.
Qed.

Context {L : UnicodeLaws U}.

(** X13. [FindDeck] returns the first deck whose normalized name is that
    of the name asked for, and nil when there is none. It finds the same
    deck for a name and for its normalized form, so a deck is found again
    under the name that the links carry; and when no two decks of the user
    have the same normalized name, every deck is found under its own
    name. *)
Theorem FindDeck_spec (user : User) (name : gostring) :
  (∀ i, FindDeck user name = Some i →
        ∃ d, Decks user !! i = Some d
             ∧ Deck_NormalizedName d = normalizeString name
             ∧ ∀ j d', (j < i)%nat → Decks user !! j = Some d' →
                       Deck_NormalizedName d' ≠ normalizeString name)
  ∧ (FindDeck user name = None ↔
     ∀ d, d ∈ Decks user → Deck_NormalizedName d ≠ normalizeString name)
  ∧ FindDeck user (normalizeString name) = FindDeck user name
  ∧ (distinctDecks user →
     ∀ i d, Decks user !! i = Some d →
            FindDeck user (DName d) = Some i
            ∧ FindDeck user (Deck_NormalizedName d) = Some i).
Proof.
  assert (Hnorm : ∀ n, FindDeck user (normalizeString n) = FindDeck user n).
  { intros n. unfold FindDeck. generalize 0%nat.
    induction (Decks user) as [|d decks IH]; intros i; simpl; [reflexivity|].
    now rewrite normalizeString_idempotent, IH. }
  split; [|split; [|split]].
  - intros i (j & d & -> & Hd & Hname & Hfirst)%findDeckFrom_Some. eauto.
  - apply findDeckFrom_None.
  - apply Hnorm.
  - intros Hdistinct i d Hi.
    assert (Hown : FindDeck user (DName d) = Some i).
    { apply (findDeckFrom_first _ _ 0%nat i d Hi); [reflexivity|].
      intros j d' Hj Hd' Heq.
      pose proof (distinct_lookup _ _ _ _ _ Hdistinct Hd' Hi Heq). lia. }
    split; [exact Hown|]. unfold Deck_NormalizedName. now rewrite Hnorm.
Qed.
End DeckFacts.

Lemma user1_distinct : @distinctDecks asciiTables user1.
Proof.
  unfold distinctDecks.
  assert (@Deck_NormalizedName asciiTables <$> Decks user1
          = [runes "mono-red"; runes "elves-"]) as -> by (vm_compute; reflexivity).
  constructor.
  - intros Hin. apply list_elem_of_In in Hin. destruct Hin as [H|[]].
    vm_compute in H. discriminate.
  - constructor; [intros Hin; inversion Hin|constructor].
Qed.

Lemma FindDeck_example :
  @FindDeck asciiTables user1 (runes "Elves!") = Some 1%nat
  ∧ @FindDeck asciiTables user1 (runes "elves-") = Some 1%nat.
Proof.
  destruct (@FindDeck_spec asciiTables asciiTables_laws user1 []) as (_ & _ & _ & Hown).
  exact (Hown user1_distinct 1%nat (deckNamed "Elves!") eq_refl).
Defined.

(** ** Adding, renaming and deleting decks *)

Lemma NoDup_insert_fresh {A} (l : list A) (i : nat) (x : A) :
  NoDup l → x ∉ l → NoDup (<[i := x]> l).
Proof.
  intros Hnd Hx. destruct (decide (i < length l)%nat) as [Hi|Hi].
  - rewrite insert_take_drop by assumption.
    rewrite <- (take_drop i l) in Hnd, Hx.
    apply NoDup_app in Hnd as (Ht & Hdisj & Hd).
    apply not_elem_of_app in Hx as [Hxt Hxd].
    destruct (lookup_lt_is_Some_2 l i Hi) as [y Hy].
    rewrite (drop_S _ _ _ Hy) in Hd, Hdisj, Hxd.
    apply NoDup_cons in Hd as [_ Hd]. apply not_elem_of_cons in Hxd as [_ Hxd].
    apply NoDup_app. split; [assumption|]. split.
    + intros z Hz [->|Hzd]%elem_of_cons; [contradiction|].
      apply (Hdisj z Hz). now right.
    + apply NoDup_cons. auto.
  - now rewrite list_insert_ge by lia.
Qed.



Section DeckEdits.
Context {U : Unicode}.

(** X14. [performAddDeck] refuses a name under which [FindDeck] finds a
    deck. When it accepts, the new deck is put last, with no snapshot and
    the price limit asked for; it is the deck found under its name; every
    deck found before is still found under the same name; and if no two
    decks had the same normalized name, none have afterwards. *)
Theorem addDeck_spec (now : Z) (user : User) (name price : gostring) :
  (∀ i, FindDeck user name = Some i → ∃ err, addDeck now user name price = inl err)
  ∧ ∀ user', addDeck now user name price = inr user' →
      ∃ priceInt,
        Atoi price = Some priceInt
        ∧ Decks user'
          = Decks user ++ [ {| DName := name; CreationDate := now;
                               PriceLimit := Money_of_int priceInt;
                               StagingArea := zeroSnapshot; Snapshots := [] |} ]
        ∧ FindDeck user' name = Some (length (Decks user))
        ∧ (∀ other i, FindDeck user other = Some i → FindDeck user' other = Some i)
        ∧ (distinctDecks user → distinctDecks user').
Proof.
  unfold addDeck. split.
  - intros i Hi. destruct (_ || _); [eauto|].
    destruct (Atoi price); [|eauto]. rewrite Hi. eauto.
  - intros user'. destruct (_ || _); [discriminate|].
    destruct (Atoi price) as [priceInt|]; [|discriminate].
    destruct (FindDeck user name) eqn:Hfind; [discriminate|].
    intros [= <-]. exists priceInt. cbn [Decks withDecks].
    split; [reflexivity|]. split; [reflexivity|].
    pose proof (proj1 (findDeckFrom_None _ _ _) Hfind) as Hnone.
    split; [|split].
    + unfold FindDeck. cbn [Decks withDecks].
      apply (findDeckFrom_first _ _ 0%nat (length (Decks user))
               {| DName := name; CreationDate := now;
                  PriceLimit := Money_of_int priceInt;
                  StagingArea := zeroSnapshot; Snapshots := [] |}).
      * apply lookup_snoc_last.
      * reflexivity.
      * intros j d' Hj Hd'. rewrite lookup_app_l in Hd' by assumption.
        apply Hnone. eapply list_elem_of_lookup_2; eassumption.
    + intros other i (j & d & -> & Hd & Hname & Hfirst)%findDeckFrom_Some.
      unfold FindDeck. cbn [Decks withDecks].
      apply (findDeckFrom_first _ _ 0%nat j d); [|assumption|].
      * apply lookup_app_l_Some. assumption.
      * intros j' d' Hj' Hd'.
        rewrite lookup_app_l in Hd' by (apply lookup_lt_Some in Hd; lia).
        now apply (Hfirst j').
    + unfold distinctDecks. cbn [Decks withDecks]. intros Hnd.
      rewrite fmap_app. apply NoDup_app. split; [assumption|]. split.
      * intros x (d & -> & Hd)%list_elem_of_fmap [Hx|Hx]%elem_of_cons;
          [|inversion Hx].
        now apply (Hnone d Hd).
      * repeat constructor. intros Hin. inversion Hin.
Qed.


(** X16. [performModifyDeck] changes the name and the price limit of the
    deck found under the old name and nothing else; it refuses a new name
    under which another deck is found. When no two decks had the same
    normalized name, none have afterwards. *)
Theorem modifyDeck_spec (user : User) (origName newName price : gostring) :
  (∀ deck k d dk,
     FindDeck user origName = Some deck → FindDeck user newName = Some k →
     Decks user !! deck = Some d → Decks user !! k = Some dk → DName dk ≠ DName d →
     ∃ err, modifyDeck user origName newName price = inl err)
  ∧ ∀ user', modifyDeck user origName newName price = inr user' →
    ∃ deck d priceInt,
      FindDeck user origName = Some deck
      ∧ Decks user !! deck = Some d
      ∧ Atoi price = Some priceInt
      ∧ Decks user'
        = <[deck := renamed newName (Money_of_int priceInt) d]> (Decks user)
      ∧ (distinctDecks user → distinctDecks user').
Proof.
  split.
  { intros deck k d dk Hdeck Hk Hd Hdk Hne. unfold modifyDeck.
    destruct (_ || _); [eauto|]. destruct (Atoi price); [|eauto].
    rewrite Hdeck, Hk, Hd, Hdk. simpl.
    rewrite bool_decide_eq_false_2 by congruence. simpl. eauto. }
  intros user'. unfold modifyDeck. destruct (_ || _); [discriminate|].
  destruct (Atoi price) as [priceInt|]; [|discriminate].
  destruct (FindDeck user origName) as [deck|] eqn:Hfind; [|discriminate].
  pose proof (findDeckFrom_Some _ _ _ _ Hfind) as (j & d & Hj & Hd & _).
  simpl in Hj. subst j.
  destruct (match FindDeck user newName with Some _ => _ | None => _ end) eqn:Hclash;
    [discriminate|].
  intros [= <-]. exists deck, d, priceInt. cbn [Decks withDecks].
  split; [reflexivity|]. split; [assumption|]. split; [reflexivity|].
  assert (Halter : alter (renamed newName (Money_of_int priceInt)) deck (Decks user)
                   = <[deck := renamed newName (Money_of_int priceInt) d]> (Decks user)).
  { apply list_eq. intros k. destruct (decide (k = deck)) as [->|Hne].
    - rewrite list_lookup_alter_eq, Hd.
      rewrite list_lookup_insert_eq by (eapply lookup_lt_Some; eassumption).
      reflexivity.
    - now rewrite list_lookup_alter_ne, list_lookup_insert_ne by congruence. }
  rewrite Halter. split; [reflexivity|].
  unfold distinctDecks. cbn [Decks withDecks]. intros Hnd.
  rewrite list_fmap_insert.
  destruct (FindDeck user newName) as [k|] eqn:Hnew.
  - apply negb_false_iff, bool_decide_eq_true in Hclash.
    apply findDeckFrom_Some in Hnew as (j & dk & Hj & Hk & Hname & _).
    simpl in Hj. subst j. rewrite Hk, Hd in Hclash. injection Hclash as Hsame.
    assert (Hnorm : Deck_NormalizedName dk = Deck_NormalizedName d)
      by (unfold Deck_NormalizedName; now rewrite Hsame).
    rewrite list_insert_id; [assumption|].
    rewrite list_lookup_fmap, Hd. simpl. f_equal.
    unfold Deck_NormalizedName at 2. simpl. congruence.
  - apply NoDup_insert_fresh; [assumption|].
    intros (x & Heq & Hx)%list_elem_of_fmap.
    apply (proj1 (findDeckFrom_None _ _ _) Hnew x Hx). now rewrite <- Heq.
Qed.
End DeckEdits.

Lemma modifyDeck_example : @distinctDecks asciiTables user1Renamed.
Proof.
  destruct (@modifyDeck_spec asciiTables user1 (runes "mono red") (runes "Burn")
              (runes "25")) as [_ Hmod].
  destruct (Hmod user1Renamed) as (deck & d & priceInt & _ & _ & _ & _ & Hkeep).
  { vm_compute. reflexivity. }
  exact (Hkeep user1_distinct).
Defined.

Lemma addDeck_example :
  @distinctDecks asciiTables user1Added
  ∧ @FindDeck asciiTables user1Added (runes "Goblins") = Some 2%nat.
Proof.
  destruct (@addDeck_spec asciiTables 5 user1 (runes "Goblins") (runes "30"))
    as [_ Hadd].
  destruct (Hadd user1Added) as (priceInt & _ & _ & Hfound & _ & Hkeep).
  { vm_compute. reflexivity. }
  exact (conj (Hkeep user1_distinct) Hfound).
Defined.


(** ** The order of strings *)

Lemma stringLess_cases (a b : gostring) :
  stringLess a b = true ∨ a = b ∨ stringLess b a = true.
Proof.
  revert b. induction a as [|x a IH]; intros [|y b]; simpl; auto.
  destruct (Z.ltb_spec x y); [now left|].
  destruct (Z.ltb_spec y x); [now right; right|].
  assert (x = y) as -> by lia. rewrite Z.eqb_refl. simpl.
  destruct (IH b) as [-> | [-> | ->]]; auto.
Qed.

Lemma stringLess_trans (a b c : gostring) :
  stringLess a b = true → stringLess b c = true → stringLess a c = true.
Proof.
  revert b c. induction a as [|x a IH]; intros [|y b] [|z c]; simpl;
    try discriminate; auto.
  intros Hab Hbc.
  apply orb_true_iff in Hab as [Hxy%Z.ltb_lt|[Hxy%Z.eqb_eq Hab]%andb_true_iff];
    apply orb_true_iff in Hbc as [Hyz%Z.ltb_lt|[Hyz%Z.eqb_eq Hbc]%andb_true_iff];
    apply orb_true_iff.
  - left. apply Z.ltb_lt. lia.
  - left. apply Z.ltb_lt. lia.
  - left. apply Z.ltb_lt. lia.
  - right. apply andb_true_iff. split; [apply Z.eqb_eq; lia|]. eapply IH; eassumption.
Qed.

Lemma stringLess_asym (a b : gostring) :
  stringLess a b = true → stringLess b a = false.
Proof.
  intros Hab. apply not_true_is_false. intros Hba.
  pose proof (stringLess_trans _ _ _ Hab Hba) as Haa.
  rewrite stringLess_irrefl in Haa. discriminate.
Qed.

(** [a <= b] and [b <= c] give [a <= c], where [a <= b] is "not [b < a]". *)
Lemma stringLe_trans (a b c : gostring) :
  stringLess b a = false → stringLess c b = false → stringLess c a = false.
Proof.
  intros Hab Hbc. apply not_true_is_false. intros Hca.
  destruct (stringLess_cases a b) as [Hlt | [-> | Hgt]]; [|congruence..].
  pose proof (stringLess_trans _ _ _ Hca Hlt). congruence.
Qed.

(** ** The filter results, sorted *)

Lemma sortedByName_cons (x : deckData) (l : list deckData) :
  sortedByName (x :: l) ↔
  (∀ b, b ∈ l → stringLess (DName (DDeck b)) (DName (DDeck x)) = false)
  ∧ sortedByName l.
Proof.
  unfold sortedByName. split.
  - intros Hs. split.
    + intros b [j Hj]%list_elem_of_lookup. apply (Hs 0%nat (S j) x b); [lia|reflexivity|exact Hj].
    + intros i j a b Hij Ha Hb. apply (Hs (S i) (S j) a b); [lia|exact Ha|exact Hb].
  - intros [Hx Hs] [|i] [|j] a b Hij; try lia; simpl.
    + intros [= <-] Hb. apply Hx. eapply list_elem_of_lookup_2; eassumption.
    + apply Hs. lia.
Qed.

Lemma insertIdxFrom_shift (name : gostring) (rest : list deckData) (i : nat) :
  insertIdxFrom name rest (S i) = S (insertIdxFrom name rest i).
Proof.
  revert i. induction rest as [|x rest IH]; intros i; simpl; [reflexivity|].
  destruct (stringLess _ _); [apply IH|reflexivity].
Qed.

Lemma sortedInsert_cons (x : deckData) (l : list deckData) (d : deckData) :
  sortedInsert (x :: l) d
  = if stringLess (DName (DDeck x)) (DName (DDeck d))
    then x :: sortedInsert l d else d :: x :: l.
Proof.
  unfold sortedInsert. simpl.
  destruct (stringLess _ _); [|reflexivity]. now rewrite insertIdxFrom_shift.
Qed.

Lemma sortedInsert_perm (l : list deckData) (d : deckData) :
  sortedInsert l d ≡ₚ d :: l.
Proof.
  unfold sortedInsert. generalize (insertIdxFrom (DName (DDeck d)) l 0). intros n.
  rewrite <- (take_drop n l) at 3. symmetry. apply Permutation_middle.
Qed.

Lemma sortedInsert_sorted (l : list deckData) (d : deckData) :
  sortedByName l → sortedByName (sortedInsert l d).
Proof.
  induction l as [|x l IH]; intros Hs.
  - intros i j a b Hij Ha Hb. apply lookup_lt_Some in Hb. simpl in Hb. lia.
  - rewrite sortedInsert_cons. apply sortedByName_cons in Hs as [Hx Hl].
    destruct (stringLess (DName (DDeck x)) (DName (DDeck d))) eqn:Hlt;
      apply sortedByName_cons.
    + split; [|now apply IH]. intros b Hb.
      rewrite sortedInsert_perm in Hb. apply elem_of_cons in Hb as [-> | Hb];
        [now apply stringLess_asym|now apply Hx].
    + split; [|apply sortedByName_cons; auto].
      intros b [-> | Hb]%elem_of_cons; [assumption|].
      eapply stringLe_trans; [exact Hlt|]. now apply Hx.
Qed.

(** X17. The filter page puts each deck that passes the filters into the
    result by a sorted insert. Whatever the order in which the decks are
    met, the result holds exactly those decks, in the order of their
    names. *)
Theorem allDecksOf_sorted (passing : list deckData) :
  sortedByName (allDecksOf passing) ∧ allDecksOf passing ≡ₚ passing.
Proof.
  unfold allDecksOf.
  assert (H : ∀ acc, sortedByName acc →
            sortedByName (fold_left sortedInsert passing acc)
            ∧ fold_left sortedInsert passing acc ≡ₚ acc ++ passing).
  { induction passing as [|d passing IH]; intros acc Hacc; simpl.
    - split; [assumption|]. now rewrite app_nil_r.
    - destruct (IH (sortedInsert acc d)) as [Hs Hp]; [now apply sortedInsert_sorted|].
      split; [assumption|]. rewrite Hp, sortedInsert_perm.
      apply Permutation_middle. }
  destruct (H []) as [Hs Hp]; [|auto].
  intros i j a b Hij Ha. discriminate.
Qed.

(** ** The pages of the filter results *)

Lemma wrapInt_id (z : Z) : - 2 ^ 63 <= z < 2 ^ 63 → wrapInt z = z.
Proof.
  intros Hz. unfold wrapInt.
  change (2 ^ 64) with 18446744073709551616 in *.
  change (2 ^ 63) with 9223372036854775808 in *.
  rewrite Z.mod_small; lia.
Qed.

Lemma NumPages_bounds (allDecks : list deckData) :
  Z.of_nat (length allDecks) < 2 ^ 62 →
  Z.of_nat (length allDecks) <= filterResultsPerPage * NumPages allDecks
                              < Z.of_nat (length allDecks) + filterResultsPerPage.
Proof.
  intros Hlen. unfold NumPages, filterResultsPerPage in *.
  change (2 ^ 62) with 4611686018427387904 in Hlen.
  rewrite wrapInt_id
    by (change (2 ^ 63) with 9223372036854775808; lia).
  rewrite Z.quot_div_nonneg by lia.
  pose proof (Z.div_mod (Z.of_nat (length allDecks) + (25 - 1)) 25).
  pose proof (Z.mod_pos_bound (Z.of_nat (length allDecks) + (25 - 1)) 25).
  lia.
Qed.

Lemma CurrentDecks_window (allDecks : list deckData) (p : Z) :
  Z.of_nat (length allDecks) < 2 ^ 62 →
  0 <= filterResultsPerPage * p < Z.of_nat (length allDecks) →
  CurrentDecks allDecks p
  = take 25 (drop (Z.to_nat (filterResultsPerPage * p)) allDecks).
Proof.
  intros Hlen Hp. unfold CurrentDecks, filterResultsPerPage in *.
  change (2 ^ 62) with 4611686018427387904 in Hlen.
  rewrite (Z.mul_comm p 25).
  rewrite wrapInt_id
    by (change (2 ^ 63) with 9223372036854775808; lia).
  rewrite wrapInt_id
    by (change (2 ^ 63) with 9223372036854775808; lia).
  destruct (Z.ltb_spec (25 * p) 0); [lia|].
  destruct (Z.geb_spec (25 * p) (Z.of_nat (length allDecks))); [lia|]. simpl.
  destruct (Z.geb_spec (25 * p + 25) (Z.of_nat (length allDecks))).
  - rewrite Nat2Z.id, firstn_all. symmetry. apply take_ge.
    rewrite length_drop. lia.
  - rewrite take_drop_commute. f_equal. f_equal. lia.
Qed.

Lemma CurrentDecks_outside (allDecks : list deckData) (p : Z) :
  - 2 ^ 58 < p < 2 ^ 58 →
  filterResultsPerPage * p < 0
  ∨ Z.of_nat (length allDecks) <= filterResultsPerPage * p →
  CurrentDecks allDecks p = [].
Proof.
  intros Hp Hout. unfold CurrentDecks, filterResultsPerPage in *.
  change (2 ^ 58) with 288230376151711744 in Hp.
  rewrite (Z.mul_comm p 25).
  rewrite (wrapInt_id (25 * p))
    by (change (2 ^ 63) with 9223372036854775808; lia).
  destruct (Z.ltb_spec (25 * p) 0); [reflexivity|].
  destruct (Z.geb_spec (25 * p) (Z.of_nat (length allDecks))); [reflexivity|lia].
Qed.

Lemma windows_concat {A} (k : nat) (n : nat) (l : list A) :
  (length l <= k * n)%nat →
  concat (map (λ p, take k (drop (k * p) l)) (seq 0 n)) = l.
Proof.
  revert l. induction n as [|n IH]; intros l Hl.
  - destruct l; [reflexivity|simpl in Hl; lia].
  - cbn [seq map concat]. rewrite Nat.mul_0_r, drop_0.
    rewrite <- seq_shift, map_map.
    transitivity (take k l ++ drop k l); [|apply take_drop]. f_equal.
    rewrite <- (IH (drop k l)) by (rewrite length_drop; lia).
    f_equal. apply map_ext. intros p. rewrite drop_drop. f_equal. f_equal. lia.
Qed.

(** X18. The filter page cuts the sorted results into pages of 25. With
    fewer than 2^62 results, the page [p] with [0 <= p < NumPages] shows
    the 25 results from the index [25 p] on (fewer on the last page) and is
    never empty; any other page number of moderate size shows nothing; and
    the pages [0 .. NumPages - 1] one after the other are all the results,
    each once and in order. A page parameter that is not a number shows
    the first page. *)
Theorem CurrentDecks_pages (allDecks : list deckData) :
  Z.of_nat (length allDecks) < 2 ^ 62 →
  (∀ p, 0 <= p < NumPages allDecks →
        CurrentDecks allDecks p
        = take 25 (drop (Z.to_nat (filterResultsPerPage * p)) allDecks)
        ∧ CurrentDecks allDecks p ≠ [])
  ∧ (∀ p, - 2 ^ 58 < p < 2 ^ 58 → ¬ (0 <= p < NumPages allDecks) →
          CurrentDecks allDecks p = [])
  ∧ concat (map (λ p, CurrentDecks allDecks (Z.of_nat p))
              (seq 0 (Z.to_nat (NumPages allDecks)))) = allDecks
  ∧ (∀ page, Atoi page = None →
             CurrentDecks allDecks (CurrentPage page) = take 25 allDecks).
Proof.
  intros Hlen. pose proof (NumPages_bounds allDecks Hlen) as HN.
  unfold filterResultsPerPage in HN.
  assert (Hwin : ∀ p, 0 <= p < NumPages allDecks →
            CurrentDecks allDecks p
            = take 25 (drop (Z.to_nat (filterResultsPerPage * p)) allDecks)).
  { intros p Hp. apply CurrentDecks_window; [assumption|].
    unfold filterResultsPerPage. lia. }
  split; [|split; [|split]].
  - intros p Hp. split; [now apply Hwin|]. rewrite Hwin by assumption.
    intros Hnil. apply (f_equal length) in Hnil.
    rewrite length_take, length_drop in Hnil. cbn [length] in Hnil.
    unfold filterResultsPerPage in Hnil. lia.
  - intros p Hp Hout. apply CurrentDecks_outside; [assumption|].
    unfold filterResultsPerPage. lia.
  - rewrite <- (windows_concat 25 (Z.to_nat (NumPages allDecks)) allDecks) at 2
      by lia.
    f_equal. apply map_ext_in. intros p Hp%in_seq.
    rewrite Hwin by lia. f_equal. f_equal. unfold filterResultsPerPage. lia.
  - intros page Hpage. unfold CurrentPage. rewrite Hpage.
    destruct allDecks as [|d rest]; [reflexivity|].
    rewrite CurrentDecks_window; [reflexivity|assumption|].
    unfold filterResultsPerPage. cbn [length]. lia.
Qed.

Lemma CurrentDecks_pages_example :
  CurrentDecks manyDecks 1 = drop 25 manyDecks
  ∧ CurrentDecks manyDecks 2 = []
  ∧ CurrentDecks manyDecks (-1) = [].
Proof.
  destruct (CurrentDecks_pages manyDecks) as (Hin & Hout & _).
  { vm_compute. reflexivity. }
  split; [|split].
  - destruct (Hin 1) as [-> _]; [vm_compute; split; congruence|]. reflexivity.
  - apply Hout; [vm_compute; split; reflexivity|].
    vm_compute. intros [_ H]. discriminate H.
  - apply Hout; [vm_compute; split; reflexivity|].
    vm_compute. intros [H _]. apply H. reflexivity.
Defined.

Lemma wrapInt_congr (z k : Z) : wrapInt (z + 2 ^ 64 * k) = wrapInt z.
Proof.
  unfold wrapInt. f_equal.
  replace (z + 2 ^ 64 * k + 2 ^ 63) with (z + 2 ^ 63 + k * 2 ^ 64) by ring.
  apply Z_mod_plus_full.
Qed.

Lemma wrapInt_range (z : Z) : minInt <= wrapInt z <= maxInt.
Proof.
  unfold wrapInt, minInt, maxInt.
  pose proof (Z.mod_pos_bound (z + 2 ^ 63) (2 ^ 64)) as H.
  change (2 ^ 64) with 18446744073709551616 in *.
  change (2 ^ 63) with 9223372036854775808 in *. lia.
Qed.

Lemma pageStartingAt_start (s : Z) :
  - 2 ^ 63 <= s < 2 ^ 63 →
  wrapInt (pageStartingAt s * filterResultsPerPage) = s.
Proof.
  intros Hs. unfold pageStartingAt, filterResultsPerPage.
  rewrite <- (wrapInt_id s) at 2 by assumption.
  unfold wrapInt at 2.
  pose proof (Z.div_mod (10330176681277348905 * s + 2 ^ 63) (2 ^ 64)) as Hdm.
  set (q := (10330176681277348905 * s + 2 ^ 63) `div` 2 ^ 64) in *.
  set (r := (10330176681277348905 * s + 2 ^ 63) `mod` 2 ^ 64) in *.
  replace ((r - 2 ^ 63) * 25) with (s + 2 ^ 64 * (14 * s - 25 * q)).
  - apply wrapInt_congr.
  - change (2 ^ 64) with 18446744073709551616 in *.
    change (2 ^ 63) with 9223372036854775808 in *. lia.
Qed.

(** X19. The product of the page number and the page size is computed in
    64 bits and is not checked for overflow. So every window of 25
    consecutive results is shown by some page number that [Atoi] accepts,
    also the windows that start between two pages: for the start index
    [s], the page number is [pageStartingAt s], which lies outside
    [0 .. NumPages - 1] as soon as [s] is not a multiple of 25. *)
Theorem CurrentDecks_any_window (allDecks : list deckData) (s : Z) :
  Z.of_nat (length allDecks) < 2 ^ 62 →
  0 <= s < Z.of_nat (length allDecks) →
  minInt <= pageStartingAt s <= maxInt
  ∧ CurrentDecks allDecks (pageStartingAt s) = take 25 (drop (Z.to_nat s) allDecks)
  ∧ (s `mod` filterResultsPerPage ≠ 0 →
     ¬ (0 <= pageStartingAt s < NumPages allDecks)).
Proof.
  intros Hlen Hs.
  assert (Hs' : - 2 ^ 63 <= s < 2 ^ 63).
  { change (2 ^ 62) with 4611686018427387904 in Hlen.
    change (2 ^ 63) with 9223372036854775808. lia. }
  pose proof (pageStartingAt_start s Hs') as Hstart.
  split; [apply wrapInt_range|]. split.
  - unfold CurrentDecks. rewrite Hstart.
    change (2 ^ 62) with 4611686018427387904 in Hlen.
    unfold filterResultsPerPage.
    rewrite wrapInt_id
      by (change (2 ^ 63) with 9223372036854775808; lia).
    destruct (Z.ltb_spec s 0); [lia|].
    destruct (Z.geb_spec s (Z.of_nat (length allDecks))); [lia|]. simpl.
    destruct (Z.geb_spec (s + 25) (Z.of_nat (length allDecks))).
    + rewrite Nat2Z.id, firstn_all. symmetry. apply take_ge.
      rewrite length_drop. lia.
    + rewrite take_drop_commute. f_equal. f_equal. lia.
  - intros Hmod Hp.
    pose proof (NumPages_bounds allDecks Hlen) as HN.
    unfold filterResultsPerPage in *.
    change (2 ^ 62) with 4611686018427387904 in Hlen.
    rewrite wrapInt_id in Hstart
      by (change (2 ^ 63) with 9223372036854775808; lia).
    apply Hmod. rewrite <- Hstart. apply Z_mod_mult.
Qed.

Lemma CurrentDecks_any_window_example :
  pageStartingAt 1 = - 8116567392432202711
  ∧ CurrentDecks manyDecks (- 8116567392432202711) = take 25 (drop 1 manyDecks).
Proof.
  destruct (CurrentDecks_any_window manyDecks 1) as (_ & Hwin & _).
  { vm_compute. reflexivity. }
  { vm_compute. split; congruence. }
  split; [vm_compute; reflexivity|].
  change (- 8116567392432202711) with (pageStartingAt 1). exact Hwin.
Defined.

(** ** Dumps and the parser *)

Lemma runes_String (a : ascii) (s : string) :
  runes (String a s) = rune_of_ascii a :: runes s.
Proof. reflexivity. Qed.

Lemma uint_digits (d : Decimal.uint) :
  Forall (λ x, isDigit x = true) (runes (NilEmpty.string_of_uint d)).
Proof.
  induction d; cbn [NilEmpty.string_of_uint]; [constructor|..];
    rewrite runes_String; constructor; auto.
Qed.

Lemma uint_value_acc (d : Decimal.uint) (acc : positive) :
  fold_left (λ acc d, 10 * acc + (d - 48)) (runes (NilEmpty.string_of_uint d))
    (Z.pos acc)
  = Z.pos (Pos.of_uint_acc d acc).
Proof.
  revert acc. induction d; intros acc; cbn [NilEmpty.string_of_uint Pos.of_uint_acc];
    [reflexivity|..]; rewrite runes_String; cbn [fold_left]; rewrite <- IHd; f_equal;
    unfold rune_of_ascii; simpl N_of_ascii; lia.
Qed.

Lemma uint_value (d : Decimal.uint) :
  digitsValue (runes (NilEmpty.string_of_uint d)) = Z.of_N (Pos.of_uint d).
Proof.
  unfold digitsValue.
  induction d; cbn [NilEmpty.string_of_uint Pos.of_uint]; [reflexivity|..];
    rewrite runes_String; cbn [fold_left]; [exact IHd|..];
    apply uint_value_acc.
Qed.

(** [%d] of a count that is not negative: its decimal digits. *)
Lemma itoa_digits (n : Z) :
  0 <= n →
  itoa n ≠ [] ∧ Forall (λ x, isDigit x = true) (itoa n) ∧ digitsValue (itoa n) = n.
Proof.
  intros Hn. destruct n as [|p|p]; [|clear Hn|lia].
  - repeat split; [discriminate|repeat constructor].
  - unfold itoa. cbn [Z.to_int NilZero.string_of_int].
    pose proof (DecimalPos.Unsigned.to_uint_nonnil p) as Hnil.
    assert (Hstr : NilZero.string_of_uint (Pos.to_uint p)
                   = NilEmpty.string_of_uint (Pos.to_uint p)).
    { destruct (Pos.to_uint p); [contradiction|reflexivity..]. }
    rewrite Hstr. split; [|split].
    + destruct (Pos.to_uint p); [contradiction|discriminate..].
    + apply uint_digits.
    + rewrite uint_value, DecimalPos.Unsigned.of_to. reflexivity.
Qed.

(** A count, white space and a name, followed by something that stops
    the name (a newline, or the end). *)
Lemma matchHere_count_tail (ds ws : gostring) (w : rune) (t tail : gostring) :
  ds ≠ [] → Forall (λ d, isDigit d = true) ds →
  ws ≠ [] → Forall (λ d, isReSpace d = true) ws →
  isWord w = true → t ≠ [] → Forall (λ x, isAnyNotNL x = true) t →
  stopsAt isAnyNotNL tail →
  matchHere cardLineRegex (ds ++ ws ++ w :: t ++ tail)
  = Some (tail, <[2%nat := w :: t]> (<[1%nat := ds]> ∅)).
Proof.
  intros Hne Hds Hwne Hws Hw Ht Hall Htail. rewrite cardLineRegex_eq.
  rewrite (countPart_greedy ds [] ws (w :: t ++ tail) ∅ _
             (tail, <[2%nat := w :: t]> (<[1%nat := ds]> ∅))); auto.
  - simpl. now apply isWord_not_ReSpace.
  - now apply namePart_greedy.
Qed.

(** One match, and after it nothing that could start another. *)
Lemma FindAll_one_tail (from tail : gostring) (c : captures) :
  from ≠ [] → Forall (λ x, isWord x = false) tail →
  matchHere cardLineRegex (from ++ tail) = Some (tail, c) →
  FindAllStringSubmatch cardLineRegex 2 (from ++ tail)
  = [[from; default [] (c !! 1%nat); default [] (c !! 2%nat)]].
Proof.
  intros Hne Htail Hm. unfold FindAllStringSubmatch.
  assert (Hlen : length (from ++ tail) ≠ length tail).
  { rewrite length_app. destruct from; [contradiction|simpl; lia]. }
  cbn [findAll]. rewrite search_eq, Hm.
  rewrite bool_decide_eq_false_2 by exact Hlen.
  rewrite submatches_2, length_app.
  replace (length from + length tail - length tail)%nat with (length from) by lia.
  rewrite take_app_length. f_equal.
  destruct (length from + length tail)%nat; [reflexivity|].
  cbn [findAll]. now rewrite search_none.
Qed.

(** Two matches at least: the parser gives up on such a piece. *)
Lemma FindAll_two (from1 junk from2 tail : gostring) (c1 c2 : captures) :
  from1 ≠ [] → from2 ≠ [] → Forall (λ x, isWord x = false) junk →
  matchHere cardLineRegex (from1 ++ junk ++ from2 ++ tail)
  = Some (junk ++ from2 ++ tail, c1) →
  matchHere cardLineRegex (from2 ++ tail) = Some (tail, c2) →
  ∃ m1 m2 more,
    FindAllStringSubmatch cardLineRegex 2 (from1 ++ junk ++ from2 ++ tail)
    = m1 :: m2 :: more.
Proof.
  intros Hne1 Hne2 Hjunk Hm1 Hm2. unfold FindAllStringSubmatch.
  assert (Hlen1 : length (from1 ++ junk ++ from2 ++ tail)
                  ≠ length (junk ++ from2 ++ tail)).
  { rewrite length_app. destruct from1; [contradiction|simpl; lia]. }
  assert (Hlen2 : length (from2 ++ tail) ≠ length tail).
  { rewrite length_app. destruct from2; [contradiction|simpl; lia]. }
  cbn [findAll]. rewrite search_eq, Hm1.
  rewrite bool_decide_eq_false_2 by exact Hlen1.
  destruct (length (from1 ++ junk ++ from2 ++ tail)) as [|fuel] eqn:Hfuel.
  { rewrite length_app in Hfuel. destruct from1; [contradiction|discriminate]. }
  cbn [findAll]. rewrite search_skip, search_eq, Hm2 by exact Hjunk.
  rewrite bool_decide_eq_false_2 by exact Hlen2. eauto.
Qed.

Lemma ParseCardEntryLine_two (s : gostring) (m1 m2 : list gostring)
    (more : list (list gostring)) :
  FindAllStringSubmatch cardLineRegex 2 s = m1 :: m2 :: more →
  ParseCardEntryLine s = None.
Proof. unfold ParseCardEntryLine. now intros ->. Qed.

Lemma isDigit_not_CR (ds : gostring) :
  Forall (λ d, isDigit d = true) ds → CR ∉ ds.
Proof.
  intros Hds Hin. rewrite Forall_forall in Hds. apply Hds in Hin. discriminate.
Qed.

Lemma matchHere_dump_line (c : CardEntry) (rest : gostring) :
  dumpable c →
  ∃ from cap,
    dump_line c = from ++ [LF] ∧ from ≠ []
    ∧ matchHere cardLineRegex (from ++ LF :: rest) = Some (LF :: rest, cap)
    ∧ cap !! 1%nat = Some (itoa (Count c)) ∧ cap !! 2%nat = Some (Name c).
Proof.
  intros Hc. pose proof Hc as ([Hlo Hhi] & _ & w & t & Hname & Hw & Ht & Hall).
  destruct (itoa_digits (Count c) Hlo) as (Hne & Hds & Hval).
  exists (itoa (Count c) ++ [32] ++ w :: t),
         (<[2%nat := w :: t]> (<[1%nat := itoa (Count c)]> ∅)).
  split; [|split; [|split; [|split]]].
  - unfold dump_line. rewrite Hname.
    change (runes " ") with [32]. now rewrite <- !app_assoc.
  - destruct (itoa (Count c)); [contradiction|discriminate].
  - rewrite <- !app_assoc. change ((w :: t) ++ LF :: rest) with (w :: t ++ LF :: rest).
    apply matchHere_count_tail; auto. reflexivity.
  - now rewrite lookup_insert_ne, lookup_insert_eq by lia.
  - now rewrite lookup_insert_eq, Hname.
Qed.

(** A dumped line, newline and all, read by the parser. *)
Lemma ParseCardEntryLine_dump_line (c : CardEntry) :
  dumpable c → ParseCardEntryLine (dump_line c) = Some (reparsed c).
Proof.
  intros Hc. pose proof Hc as ([Hlo Hhi] & Htrim & _).
  destruct (itoa_digits (Count c) Hlo) as (Hne & Hds & Hval).
  destruct (matchHere_dump_line c [] Hc) as (from & cap & -> & Hfrom & Hm & H1 & H2).
  rewrite (ParseCardEntryLine_one _ from (itoa (Count c)) (Name c)).
  - rewrite (Atoi_digits _ Hne Hds), Hval, Htrim.
    now rewrite (proj2 (Z.leb_le _ _) Hhi).
  - rewrite (FindAll_one_tail from [LF] cap Hfrom); [|repeat constructor|exact Hm].
    unfold gostring in *. now rewrite H1, H2.
Qed.

Lemma dump_line_no_CR (c : CardEntry) :
  dumpable c → CR ∉ Name c → CR ∉ dump_line c.
Proof.
  intros ([Hlo _] & _) Hname. destruct (itoa_digits (Count c) Hlo) as (_ & Hds & _).
  unfold dump_line. rewrite !elem_of_app.
  intros [Hin|[Hin|[Hin|Hin]]].
  - now apply (isDigit_not_CR _ Hds).
  - apply list_elem_of_singleton in Hin. discriminate.
  - contradiction.
  - apply list_elem_of_singleton in Hin. discriminate.
Qed.

Lemma Split_CRLF_whole (s : gostring) : CR ∉ s → Split_CRLF s = [s].
Proof.
  intros Hs. unfold Split_CRLF. rewrite <- (app_nil_r s) at 1.
  rewrite splitCRLF_line by assumption. simpl. now rewrite app_nil_r, rev_involutive.
Qed.

(** X20. A dumped line is read back by the parser: for a card with a count
    from 0 to the largest [int] and a name that starts with a word
    character, has two characters or more, no newline and no white space
    at either end, [ParseCardEntryLine] of the line that the dump writes
    for it (count, a space, the name, a newline) gives the same count and
    the same name, with the price and the not-found mark cleared. When the
    names also hold no [\r], the lines of such cards handed over with
    [\r\n] between them come back as the same cards, in order. *)
Theorem dump_line_parses_back (cards : list CardEntry) :
  Forall dumpable cards →
  (∀ c, c ∈ cards → ParseCardEntryLine (dump_line c) = Some (reparsed c))
  ∧ (Forall (λ c, CR ∉ Name c) cards →
     ParseCardEntryLines (joinCRLF (map dump_line cards)) = map reparsed cards).
Proof.
  intros Hcards. split.
  - intros c Hc. rewrite Forall_forall in Hcards.
    now apply ParseCardEntryLine_dump_line, Hcards.
  - intros Hcr. rewrite ParseCardEntryLines_omap.
    destruct cards as [|c0 cards0]; [reflexivity|].
    rewrite Split_CRLF_join; [|discriminate|].
    + remember (c0 :: cards0) as cards eqn:Hcs. clear Hcs.
      induction Hcards as [|c cards Hc Hcards IH]; [reflexivity|].
      inversion Hcr; subst. cbn [map].
      change (omap ParseCardEntryLine (dump_line c :: map dump_line cards))
        with (match ParseCardEntryLine (dump_line c) with
              | Some y => y :: omap ParseCardEntryLine (map dump_line cards)
              | None => omap ParseCardEntryLine (map dump_line cards)
              end).
      rewrite (ParseCardEntryLine_dump_line c Hc). f_equal. now apply IH.
    + apply Forall_map. rewrite Forall_forall in Hcards, Hcr. apply Forall_forall.
      intros c Hc. apply dump_line_no_CR; auto.
Qed.

(** A name with a [\r] inside, as the parser itself can give it, and two
    plain cards joined by [\r\n]. *)
Lemma dump_line_parses_back_example :
  ParseCardEntryLine (dump_line boltCR) = Some boltCR
  ∧ ParseCardEntryLines (joinCRLF (map dump_line [bolt4; shock2])) = [bolt4; shock2].
Proof.
  split.
  - destruct (dump_line_parses_back [boltCR]) as [H _].
    + repeat constructor; vm_compute; try congruence;
        eexists _, _; (split; [reflexivity|]); repeat split; try discriminate;
        repeat constructor.
    + apply (H boltCR). left.
  - destruct (dump_line_parses_back [bolt4; shock2]) as [_ H].
    + repeat constructor; vm_compute; try congruence;
        eexists _, _; (split; [reflexivity|]); repeat split; try discriminate;
        repeat constructor.
    + apply H. repeat constructor; intros Hin; vm_compute in Hin;
        repeat (apply elem_of_cons in Hin as [Hin|Hin]; [discriminate|]);
        inversion Hin.
Defined.

Lemma omap_singleton {A B} (f : A → option B) (x : A) :
  omap f [x] = match f x with Some y => [y] | None => [] end.
Proof. reflexivity. Qed.

(** X21. The dump itself is not what [ParseCardEntryLines] reads: the dump
    ends its lines with [\n], the parser cuts at [\r\n] and takes a piece
    with two matches or more for no card at all. So the dump of one card
    (as in X20) is read back as that card, and the dump of two or more
    such cards is read as no cards. *)
Theorem dump_cards_not_parsed (cards : list CardEntry) :
  Forall dumpable cards → Forall (λ c, CR ∉ Name c) cards →
  Split_CRLF (dump_cards cards) = [dump_cards cards]
  ∧ (∀ c, cards = [c] → ParseCardEntryLines (dump_cards cards) = [reparsed c])
  ∧ ((2 <= length cards)%nat → ParseCardEntryLines (dump_cards cards) = []).
Proof.
  intros Hcards Hcr.
  assert (Hsplit : Split_CRLF (dump_cards cards) = [dump_cards cards]).
  { apply Split_CRLF_whole. rewrite dump_cards_flat_map.
    intros Hin. apply list_elem_of_In, in_flat_map in Hin as (c & Hc & Hin).
    apply list_elem_of_In in Hc, Hin. rewrite Forall_forall in Hcards, Hcr.
    apply (dump_line_no_CR c); auto. }
  split; [exact Hsplit|]. split.
  - intros c ->. rewrite ParseCardEntryLines_omap, Hsplit, omap_singleton.
    rewrite dump_cards_flat_map. cbn [flat_map]. rewrite app_nil_r.
    inversion Hcards; subst. now rewrite ParseCardEntryLine_dump_line.
  - intros Hlen. rewrite ParseCardEntryLines_omap, Hsplit, omap_singleton.
    destruct cards as [|c1 [|c2 more]]; [simpl in Hlen; lia..|].
    inversion Hcards as [|? ? Hc1 Hcards']; subst.
    inversion Hcards' as [|? ? Hc2 _]; subst.
    rewrite dump_cards_flat_map. cbn [flat_map].
    destruct (matchHere_dump_line c2 (flat_map dump_line more) Hc2)
      as (from2 & cap2 & Hl2 & Hne2 & Hm2 & _).
    destruct (matchHere_dump_line c1 (from2 ++ LF :: flat_map dump_line more) Hc1)
      as (from1 & cap1 & Hl1 & Hne1 & Hm1 & _).
    rewrite Hl1, Hl2, <- !app_assoc.
    destruct (FindAll_two from1 [LF] from2 (LF :: flat_map dump_line more) cap1 cap2)
      as (m1 & m2 & rest & Hall); auto.
    cbn [app] in Hall |- *. now rewrite (ParseCardEntryLine_two _ _ _ _ Hall).
Qed.

Lemma dump_cards_not_parsed_example :
  ParseCardEntryLines (dump_cards [bolt4; shock2]) = []
  ∧ ParseCardEntryLines (dump_cards [bolt4]) = [bolt4].
Proof.
  split.
  - destruct (dump_cards_not_parsed [bolt4; shock2]) as (_ & _ & H).
    + repeat constructor; vm_compute; try congruence;
        eexists _, _; (split; [reflexivity|]); repeat split; try discriminate;
        repeat constructor.
    + repeat constructor; intros Hin; vm_compute in Hin;
        repeat (apply elem_of_cons in Hin as [Hin|Hin]; [discriminate|]);
        inversion Hin.
    + apply H. simpl. lia.
  - destruct (dump_cards_not_parsed [bolt4]) as (_ & H & _).
    + repeat constructor; vm_compute; try congruence;
        eexists _, _; (split; [reflexivity|]); repeat split; try discriminate;
        repeat constructor.
    + repeat constructor; intros Hin; vm_compute in Hin;
        repeat (apply elem_of_cons in Hin as [Hin|Hin]; [discriminate|]);
        inversion Hin.
    + exact (H bolt4 eq_refl).
Defined.

(** ** The search terms of the filter page *)

Lemma HasPrefix_spec (s p : gostring) :
  HasPrefix s p = true ↔ ∃ b, s = p ++ b.
Proof.
  revert s. induction p as [|y p IH]; intros s.
  - destruct s; simpl; split; eauto.
  - destruct s as [|x s]; simpl.
    + split; [discriminate|]. intros [b Hb]. discriminate.
    + rewrite andb_true_iff, Z.eqb_eq, IH. split.
      * intros [-> [b ->]]. eauto.
      * intros [b [= -> ->]]. eauto.
Qed.

Lemma Index_eq (s sub : gostring) :
  Index s sub
  = if HasPrefix s sub then Some 0%nat
    else match s with
         | _ :: s' => S <$> Index s' sub
         | [] => None
         end.
Proof. destruct s; reflexivity. Qed.

(** [strings.Index] finds [sub] exactly when it is a part of [s]. *)
Lemma Index_is_Some (s sub : gostring) :
  is_Some (Index s sub) ↔ ∃ a b, s = a ++ sub ++ b.
Proof.
  split.
  - induction s as [|x s IH]; rewrite Index_eq;
      destruct (HasPrefix _ sub) eqn:Hp.
    + apply HasPrefix_spec in Hp as [b Hb]. intros _. exists [], b. exact Hb.
    + intros [? [=]].
    + apply HasPrefix_spec in Hp as [b Hb]. intros _. exists [], b. exact Hb.
    + intros Hsome. apply fmap_is_Some in Hsome.
      destruct (IH Hsome) as (a & b & ->). exists (x :: a), b. reflexivity.
  - intros (a & b & ->). induction a as [|x a IH]; rewrite Index_eq.
    + rewrite (proj2 (HasPrefix_spec _ _)) by eauto. eauto.
    + destruct (HasPrefix _ sub); [eauto|]. simpl. now apply fmap_is_Some.
Qed.

Lemma splitSpace_app (a b cur : gostring) :
  ∃ pre, splitSpace (a ++ 32 :: b) cur = pre ++ splitSpace b [].
Proof.
  revert cur. induction a as [|x a IH]; intros cur; simpl.
  - exists [rev cur]. reflexivity.
  - destruct (x =? 32).
    + destruct (IH []) as [pre ->]. exists (rev cur :: pre). reflexivity.
    + apply IH.
Qed.

Section SearchFacts.
Context {U : Unicode}.

Lemma matchesSearchFrom_spec (haystack : gostring) (searchTerms : list gostring) :
  matchesSearchFrom haystack searchTerms = true
  ↔ ∃ term, term ∈ searchTerms ∧ is_Some (Index haystack (normalizeString term)).
Proof.
  induction searchTerms as [|t terms IH]; simpl.
  - split; [discriminate|]. intros (term & Hin & _). inversion Hin.
  - destruct (Index haystack (normalizeString t)) as [i|] eqn:Hi.
    + split; [|reflexivity]. intros _. exists t. rewrite Hi. split; [left|eauto].
    + rewrite IH. split.
      * intros (term & Hin & Hsome). exists term. split; [now right|assumption].
      * intros (term & [-> | Hin]%elem_of_cons & Hsome).
        -- rewrite Hi in Hsome. destruct Hsome as [? [=]].
        -- eauto.
Qed.

Lemma normalizeString_dollars (term : gostring) :
  Forall (λ c, c = 36) term → normalizeString term = [].
Proof.
  rewrite normalizeString_flat_map.
  induction 1 as [|c term -> _ IH]; [reflexivity|]. exact IH.
Qed.

Lemma normalizeString_app (s t : gostring) :
  normalizeString (s ++ t) = normalizeString s ++ normalizeString t.
Proof. rewrite !normalizeString_flat_map. apply flat_map_app. Qed.

Lemma matchesSearch_part (search haystack : gostring) :
  matchesSearch search haystack = true
  ↔ ∃ term a b, term ∈ Split_space search
                ∧ haystack = a ++ normalizeString term ++ b.
Proof.
  unfold matchesSearch. rewrite matchesSearchFrom_spec. split.
  - intros (term & Hin & (a & b & Hab)%Index_is_Some). eauto.
  - intros (term & a & b & Hin & Hab). exists term. split; [assumption|].
    apply Index_is_Some. eauto.
Qed.

(** X22. The filter page cuts the search text at spaces and lets a deck
    pass when one of the pieces, normalized, is found by [strings.Index] in
    the deck's normalized text: that is, when the normalized piece is a
    part of that text. So a piece that is a part of the user's name or of
    the deck's name finds the deck. A piece that is empty or made of [$]
    only normalizes to the empty string, which is a part of every text; so
    an empty search text, and also one that starts or ends with a space or
    holds two spaces in a row, lets every deck pass. *)
Theorem matchesSearch_spec (search : gostring) :
  (∀ haystack,
     matchesSearch search haystack = true
     ↔ ∃ term a b, term ∈ Split_space search
                   ∧ haystack = a ++ normalizeString term ++ b)
  ∧ (∀ userName deckName price term a b,
       term ∈ Split_space search →
       userName = a ++ term ++ b ∨ deckName = a ++ term ++ b →
       matchesSearch search (haystackOf userName deckName price) = true)
  ∧ (∀ haystack term,
       term ∈ Split_space search → Forall (λ c, c = 36) term →
       matchesSearch search haystack = true)
  ∧ (search = [] ∨ (∃ a, search = 32 :: a) ∨ (∃ a, search = a ++ [32])
     ∨ (∃ a b, search = a ++ 32 :: 32 :: b) →
     ∀ haystack, matchesSearch search haystack = true).
Proof.
  assert (Hdollars : ∀ haystack term,
            term ∈ Split_space search → Forall (λ c, c = 36) term →
            matchesSearch search haystack = true).
  { intros haystack term Hin Hterm. apply matchesSearch_part.
    exists term, [], haystack.
    split; [assumption|]. now rewrite normalizeString_dollars. }
  split; [exact (matchesSearch_part search)|]. split; [|split; [exact Hdollars|]].
  - intros userName deckName price term a b Hin Hpart. apply matchesSearch_part.
    unfold haystackOf. rewrite !normalizeString_app.
    destruct Hpart as [-> | ->]; rewrite !normalizeString_app.
    + exists term, (normalizeString a). eexists. split; [assumption|].
      rewrite <- !app_assoc. reflexivity.
    + exists term, (normalizeString userName ++ normalizeString (runes "-")
                    ++ normalizeString a).
      eexists. split; [assumption|]. rewrite <- !app_assoc. reflexivity.
  - intros Hblank haystack. apply (Hdollars haystack []); [|constructor].
    unfold Split_space. destruct Hblank as [-> | [[a ->] | [[a ->] | (a & b & ->)]]].
    + left.
    + left.
    + destruct (splitSpace_app a [] []) as [pre Hpre].
      unfold gostring, rune in *. rewrite Hpre.
      apply elem_of_app. right. left.
    + destruct (splitSpace_app a (32 :: b) []) as [pre Hpre].
      unfold gostring, rune in *. rewrite Hpre.
      apply elem_of_app. right. left.
Qed.
End SearchFacts.

(** ** The users collection *)

Section UserDbFacts.
Context {U : Unicode}.

Lemma findUserFrom_None (docs : list User) (name : gostring) :
  findUserFrom docs name = None
  ↔ ∀ u, u ∈ docs → User_NormalizedName u ≠ normalizeString name.
Proof.
  induction docs as [|d docs IH]; simpl.
  - split; [|reflexivity]. intros _ u Hu. inversion Hu.
  - destruct (bool_decide_reflect (normalizeString name = User_NormalizedName d))
      as [Heq|Hne].
    + split; [discriminate|]. intros Hall. exfalso.
      apply (Hall d); [left|]. now symmetry.
    + rewrite IH. split.
      * intros Hall u [-> | Hu]%elem_of_cons; [congruence|now apply Hall].
      * intros Hall u Hu. apply Hall. now right.
Qed.

Lemma findUserFrom_snoc (docs : list User) (name : gostring) (user : User) :
  findUserFrom docs name = None →
  User_NormalizedName user = normalizeString name →
  findUserFrom (docs ++ [user]) name = Some user.
Proof.
  intros Hnone Hname. induction docs as [|d docs IH]; simpl in *.
  - now rewrite bool_decide_eq_true_2.
  - destruct (bool_decide (normalizeString name = User_NormalizedName d));
      [discriminate|]. now apply IH.
Qed.

(** X23. [Db.AddUser] on a collection that can be read and written: when
    no user answers to the normalized name, the new user (with the name and
    the password hash as given, an empty session key and no decks) is put
    at the end of the collection, [FindUser] then finds it under that name,
    and normalized names stay distinct when they were; when some user
    answers to the normalized name, the result is "User already exists" and
    the collection is as before. The same error comes back whenever the
    iterator of [FindUser] fails on [Close], whether or not such a user
    exists; and a failed [Insert] is not noticed: the new user is returned
    as added while the collection is unchanged. *)
Theorem AddUser_spec (users : list User) (name : gostring) (passwordHash : list Z) :
  ((∀ u, u ∈ users → User_NormalizedName u ≠ normalizeString name) →
   AddUser users (readable users) false name passwordHash
   = (inl (mkUser name passwordHash [] []), users ++ [mkUser name passwordHash [] []])
   ∧ FindUser (readable (users ++ [mkUser name passwordHash [] []])) name
     = inl (mkUser name passwordHash [] [])
   ∧ (distinctUsers users →
      distinctUsers (users ++ [mkUser name passwordHash [] []]))
   ∧ AddUser users (readable users) true name passwordHash
     = (inl (mkUser name passwordHash [] []), users))
  ∧ (∀ u insertFails, u ∈ users → User_NormalizedName u = normalizeString name →
       AddUser users (readable users) insertFails name passwordHash
       = (inr UserAlreadyExistsError, users))
  ∧ (∀ iter insertFails, closeFails iter = true →
       AddUser users iter insertFails name passwordHash
       = (inr UserAlreadyExistsError, users)).
Proof.
  split; [|split].
  - intros Hfresh. pose proof (proj2 (findUserFrom_None users name) Hfresh) as Hnone.
    assert (Hadd : ∀ insertFails,
              AddUser users (readable users) insertFails name passwordHash
              = (inl (mkUser name passwordHash [] []),
                 if insertFails then users
                 else users ++ [mkUser name passwordHash [] []])).
    { intros insertFails. unfold AddUser, FindUser. cbn [delivered closeFails readable].
      now rewrite Hnone. }
    split; [apply (Hadd false)|]. split; [|split; [|apply (Hadd true)]].
    + unfold FindUser. cbn [delivered closeFails readable].
      now rewrite (findUserFrom_snoc users name _ Hnone).
    + unfold distinctUsers. rewrite fmap_app. intros Hnd.
      apply NoDup_app. split; [assumption|]. split; [|apply NoDup_singleton].
      intros x Hx ->%list_elem_of_singleton.
      apply list_elem_of_fmap in Hx as (u & Hu & Hin).
      apply (Hfresh u Hin). now rewrite <- Hu.
  - intros u insertFails Hin Hname. unfold AddUser, FindUser.
    cbn [delivered closeFails readable].
    destruct (findUserFrom users name) as [found|] eqn:Hfind; [reflexivity|].
    exfalso. apply (proj1 (findUserFrom_None users name) Hfind u Hin Hname).
  - intros iter insertFails Hclose. unfold AddUser, FindUser. rewrite Hclose.
    now destruct (findUserFrom (delivered iter) name).
Qed.
End UserDbFacts.

(** ** The snapshot page *)

Section SnapshotPageFacts.
Context {U : Unicode}.

(** X3. The snapshot page takes the user, the deck and the index from the
    request. An empty deck name or an empty index is refused first, then a
    user or a deck that is not found. For the deck found, an index [i] with
    [0 <= i < len] shows the snapshot [len-1-i] of the history with its
    legality; an index that is not empty and not an integer, or is [len]
    or more, is the error "Invalid snapshot index"; a negative index passes
    the test [snapIdxInt >= len(snaps)] and the page panics on
    [snaps[snapIdxInt]]. *)
Theorem snapshotPage_index (iter : UsersIter) (username deckName snapIdx : gostring) :
  (deckName = [] ∨ snapIdx = [] →
   renderSnapshotPage iter username deckName snapIdx
   = Returns (inl (ErrorsNew (runes "Deck name / snapshot index not included"))))
  ∧ (deckName ≠ [] → snapIdx ≠ [] →
     (∀ err, FindUser iter username = inr err →
        renderSnapshotPage iter username deckName snapIdx
        = Returns (inl (FromFindUser err)))
     ∧ (∀ u, FindUser iter username = inl u → FindDeck u deckName = None →
          renderSnapshotPage iter username deckName snapIdx
          = Returns (inl (ErrorsNew (runes "Deck '" ++ deckName
                                       ++ runes "' doesn't exist!"))))
     ∧ (∀ u deck, FindUser iter username = inl u → FindDeck u deckName = Some deck →
          ∃ d, Decks u !! deck = Some d
            ∧ (Atoi snapIdx = None →
               renderSnapshotPage iter username deckName snapIdx
               = Returns (inl (ErrorsNew (runes "Invalid snapshot index"))))
            ∧ (∀ i, Atoi snapIdx = Some i → Z.of_nat (length (Snapshots d)) <= i →
                 renderSnapshotPage iter username deckName snapIdx
                 = Returns (inl (ErrorsNew (runes "Invalid snapshot index"))))
            ∧ (∀ i, Atoi snapIdx = Some i → i < 0 →
                 renderSnapshotPage iter username deckName snapIdx = Panics)
            ∧ (∀ i, Atoi snapIdx = Some i →
                 0 <= i < Z.of_nat (length (Snapshots d)) →
                 ∃ s b,
                   Snapshots d !! (length (Snapshots d) - 1 - Z.to_nat i)%nat = Some s
                   ∧ IsSnapshotLegal d (Some s) = Returns b
                   ∧ renderSnapshotPage iter username deckName snapIdx
                     = Returns (inr (s, b))))).
Proof.
  split.
  { intros Hempty. unfold renderSnapshotPage.
    destruct Hempty as [-> | ->]; [reflexivity|].
    now rewrite orb_true_r. }
  intros Hdeck Hidx. unfold renderSnapshotPage.
  rewrite (bool_decide_eq_false_2 _ Hdeck), (bool_decide_eq_false_2 _ Hidx).
  cbn [orb]. split; [now intros err ->|]. split; [now intros u -> ->|].
  intros u deck -> Hfind. rewrite Hfind.
  pose proof (findDeckFrom_Some _ _ _ _ Hfind) as (j & d & Hj & Hd & _).
  simpl in Hj. subst j. exists d. rewrite Hd. split; [reflexivity|].
  pose proof (SnapshotsReversed_lookup d) as Hlookup.
  rewrite SnapshotsReversed_length.
  split; [now intros ->|]. split; [|split].
  - intros i -> Hi. now rewrite (proj2 (Z.geb_le _ _)) by lia.
  - intros i -> Hi. destruct (Z.geb_spec i (Z.of_nat (length (Snapshots d)))); [lia|].
    now rewrite (proj2 (Z.ltb_lt _ _)) by lia.
  - intros i -> Hi. destruct (Z.geb_spec i (Z.of_nat (length (Snapshots d)))); [lia|].
    destruct (Z.ltb_spec i 0); [lia|].
    rewrite Hlookup by lia.
    destruct (lookup_lt_is_Some_2 (Snapshots d)
                (length (Snapshots d) - 1 - Z.to_nat i)) as [s Hs]; [lia|].
    rewrite Hs. destruct (IsSnapshotLegal_returns d s) as [b Hb].
    exists s, b. rewrite Hb. auto.
Qed.
End SnapshotPageFacts.

(** The pages of Ann's deck "Mono Red": the index 0 shows the snapshot
    saved at 7, the empty index and the index 1 are refused, and the index
    -1 panics. *)
Lemma snapshotPage_index_example :
  @renderSnapshotPage asciiTables (readable [user2]) (runes "ann") (runes "mono red")
    (runes "0")
  = Returns (inr (withDate 7 zeroSnapshot, true))
  ∧ @renderSnapshotPage asciiTables (readable [user2]) (runes "ann") (runes "mono red")
      (runes "")
    = Returns (inl (ErrorsNew (runes "Deck name / snapshot index not included")))
  ∧ @renderSnapshotPage asciiTables (readable [user2]) (runes "ann") (runes "mono red")
      (runes "-1")
    = Panics.
Proof.
  split; [|split].
  - destruct (@snapshotPage_index asciiTables (readable [user2]) (runes "ann")
                (runes "mono red") (runes "0")) as [_ H].
    destruct H as (_ & _ & H); [discriminate..|].
    destruct (H user2 0%nat) as (d & Hd & _ & _ & _ & Hshow);
      [vm_compute; reflexivity..|].
    injection Hd as <-.
    destruct (Hshow 0) as (s & b & Hs & Hb & ->);
      [vm_compute; reflexivity|vm_compute; split; congruence|].
    injection Hs as <-. vm_compute in Hb. injection Hb as <-. reflexivity.
  - destruct (@snapshotPage_index asciiTables (readable [user2]) (runes "ann")
                (runes "mono red") (runes "")) as [H _].
    apply H. now right.
  - destruct (@snapshotPage_index asciiTables (readable [user2]) (runes "ann")
                (runes "mono red") (runes "-1")) as [_ H].
    destruct H as (_ & _ & H); [discriminate..|].
    destruct (H user2 0%nat) as (d & _ & _ & _ & Hneg & _);
      [vm_compute; reflexivity..|].
    apply (Hneg (-1)); [vm_compute; reflexivity|lia].
Defined.
